(** * recallapp: the storage core, embedded and verified

    A shallow embedding of [recall_core/storage] (models.py, conversation.py,
    vector.py) and the proofs of the properties stated for it, followed by
    the embedding providers and the settings ([recall_core/embeddings],
    [recall_core/config], exceptions.py) and laws of both.

    What is modelled, and how:
    - Python values: [str] as [string], [int] as [Z], [float] as the kernel's
      binary64 [float], [None]-able fields as [option], [datetime] as a record
      of its seven fields and its [tzinfo], the offset from UTC in whole
      minutes of an aware datetime ([datetime.utcnow] builds naive ones),
      [dict[str, Any]] as an association list of JSON documents. The JSON
      text of a datetime is its [isoformat].
    - The file tree below [conversations/]: a finite map from path to content.
      Directory creation is not modelled, and ids are taken to be file names
      (no path separator), so that two path strings name the same file only
      when they are equal.
    - The SQLite index: the list of its rows in storage order.
    - The LanceDB table: the list of its rows in storage order. The engine is
      not part of the repository and is a parameter: its distance metric,
      its reading of a filter expression as a test on rows (or its refusal
      of the expression), the limit of a plain query that sets none, and the
      rows its vector query returns. What is taken of it: a plain query
      returns the first rows that pass its filter, a delete removes the rows
      that pass its filter, and a merge writes the data after the rows whose
      id is not in the data, once the data fits the schema of the table.
    - JSON numbers are integers; no field of the models holds a float but the
      score and the distance of a search result.
    - Exceptions: a result type, threaded with the store in a state monad.
      The engine raises where it refuses a filter, a query or a row; failures
      of the operating system are not modelled.
    - The Ollama server: a parameter, the response to a request given the
      requests sent before it. A response is an exception of httpx, or the
      decoded JSON object with its ["embedding"] entry, a list of floats,
      when it has one.
    - [RecallSettings( **kwargs )]: a parameter, the settings or the error
      that pydantic builds from the keyword arguments and the environment.
      Whether voyageai and openai can be imported is a parameter of the
      factory. What this code raises is a second result type, with the
      class and the message of the exception.

    Part I holds the definitions, Part II the lemmas and theorems. *)

From Stdlib Require Import ZArith String Ascii Floats Lia.
From stdpp Require Import gmap strings list sorting.

Local Open Scope string_scope.
Local Open Scope Z_scope.

(* ===================================================================== *)
(** * Part I: definitions *)
(* ===================================================================== *)

(** ** Exceptions and the state monad the stores run in *)

Inductive exn : Type :=
  | ValidationError     (* pydantic: the content does not validate *)
  | FileNotFoundError   (* pathlib: rename of a missing file *)
  | ZeroDivisionError   (* float division by zero *)
  | ValueError          (* usage errors raised by the stores *)
  | EngineError.        (* raised by LanceDB: a refused filter, limit or row *)

Inductive result (A : Type) : Type :=
  | Ok (a : A)
  | Raise (e : exn).
Arguments Ok {A} a.
Arguments Raise {A} e.

(** A computation over a store of type [S]: it returns a value or raises, and
    in both cases leaves a store behind (what was written before an exception
    stays written). *)
Definition M (S A : Type) : Type := S → result A * S.

#[global] Instance M_ret {S} : MRet (M S) := λ A a s, (Ok a, s).
#[global] Instance M_bind {S} : MBind (M S) := λ A B f m s,
  match m s with
  | (Ok a, s') => f a s'
  | (Raise e, s') => (Raise e, s')
  end.

Definition raise {S A} (e : exn) : M S A := λ s, (Raise e, s).
Definition gets {S A} (f : S → A) : M S A := λ s, (Ok (f s), s).
Definition modify {S} (f : S → S) : M S unit := λ s, (Ok tt, f s).
Definition run {S A} (m : M S A) (s : S) : result A * S := m s.
Definition exec {S A} (m : M S A) (s : S) : S := (m s).2.

(** ** datetime *)

Module Datetime.

(** A datetime: its fields, and the [tzinfo] of an aware datetime as its
    offset from UTC in minutes ([None] for a naive datetime). *)
Record datetime : Type := mk_datetime {
  year : Z; month : Z; day : Z;
  hour : Z; minute : Z; second : Z; microsecond : Z;
  tzinfo : option Z
}.

Definition naive (d : datetime) : Prop := tzinfo d = None.

Definition is_leap (y : Z) : bool :=
  (y mod 4 =? 0) && (negb (y mod 100 =? 0) || (y mod 400 =? 0)).

Definition days_in_month (y m : Z) : Z :=
  if m =? 2 then (if is_leap y then 29 else 28)
  else if (m =? 4) || (m =? 6) || (m =? 9) || (m =? 11) then 30
  else 31.

(** The ranges the class enforces on construction (MINYEAR = 1, MAXYEAR =
    9999), and an offset strictly between -24 and 24 hours. *)
Definition offset_okb (tz : option Z) : bool :=
  match tz with
  | None => true
  | Some o => (-1440 <? o) && (o <? 1440)
  end.

Definition datetime_okb (d : datetime) : bool :=
  (1 <=? year d) && (year d <=? 9999) &&
  (1 <=? month d) && (month d <=? 12) &&
  (1 <=? day d) && (day d <=? days_in_month (year d) (month d)) &&
  (0 <=? hour d) && (hour d <=? 23) &&
  (0 <=? minute d) && (minute d <=? 59) &&
  (0 <=? second d) && (second d <=? 59) &&
  (0 <=? microsecond d) && (microsecond d <=? 999999) &&
  offset_okb (tzinfo d).

Definition datetime_ok (d : datetime) : Prop := datetime_okb d = true.

(** Comparison of naive datetimes: lexicographic on the fields. *)
Definition lex (c1 c2 : comparison) : comparison :=
  match c1 with Eq => c2 | _ => c1 end.

Definition compare_fields (a b : datetime) : comparison :=
  lex (year a ?= year b)
  (lex (month a ?= month b)
  (lex (day a ?= day b)
  (lex (hour a ?= hour b)
  (lex (minute a ?= minute b)
  (lex (second a ?= second b)
       (microsecond a ?= microsecond b)))))).

(** Comparison of aware datetimes: of their instants, the local time less
    the offset, counted in microseconds from the day before 0001-01-01. *)
Definition days_before_year (y : Z) : Z :=
  let y' := y - 1 in y' * 365 + y' / 4 - y' / 100 + y' / 400.

Definition days_before_month (y m : Z) : Z :=
  foldr Z.add 0 (days_in_month y <$> (Z.of_nat <$> seq 1 (Z.to_nat (m - 1)))).

Definition toordinal (d : datetime) : Z :=
  days_before_year (year d) + days_before_month (year d) (month d) + day d.

Definition instant (d : datetime) (offset : Z) : Z :=
  (((toordinal d * 24 + hour d) * 60 + minute d - offset) * 60 + second d) * 1000000
  + microsecond d.

(** [a] compared with [b]; [None] is the [TypeError] of comparing a naive
    datetime with an aware one. *)
Definition compare (a b : datetime) : option comparison :=
  match tzinfo a, tzinfo b with
  | None, None => Some (compare_fields a b)
  | Some oa, Some ob => Some (instant a oa ?= instant b ob)
  | _, _ => None
  end.

(** [a <= b] holds. *)
Definition leb (a b : datetime) : bool :=
  match compare a b with
  | Some Gt | None => false
  | Some _ => true
  end.

(** The decimal digit [n] (0..9) as a character. *)
Definition digit (n : Z) : ascii := ascii_of_N (48 + Z.to_N n).

(** ["%0<w>d" % n]: [n] in decimal, zero-padded to [w] digits. *)
Fixpoint zfill (w : nat) (n : Z) : string :=
  match w with
  | O => ""
  | S w' => String (digit (n / 10 ^ Z.of_nat w')) (zfill w' (n mod 10 ^ Z.of_nat w'))
  end.

(** [datetime.isoformat()] with the default separator and [timespec='auto']:
    the microseconds are written only when they are not zero. *)
Definition fraction (us : Z) : string :=
  if us =? 0 then "" else "." ++ zfill 6 us.

(** The offset of an aware datetime, [+HH:MM] or [-HH:MM]. *)
Definition utcoffset (tz : option Z) : string :=
  match tz with
  | None => ""
  | Some o =>
      (if o <? 0 then "-" else "+") ++ zfill 2 (Z.abs o / 60) ++ ":" ++ zfill 2 (Z.abs o mod 60)
  end.

Definition isoformat (d : datetime) : string :=
  zfill 4 (year d) ++ "-" ++ zfill 2 (month d) ++ "-" ++ zfill 2 (day d) ++ "T" ++
  zfill 2 (hour d) ++ ":" ++ zfill 2 (minute d) ++ ":" ++ zfill 2 (second d) ++
  fraction (microsecond d) ++ utcoffset (tzinfo d).

(** Reading the text back, as validation of a [datetime] field does. The
    reader accepts the layout [isoformat] writes and checks the ranges. *)
Definition digit_val (c : ascii) : option Z :=
  let n := Z.of_N (N_of_ascii c) in
  if (48 <=? n) && (n <=? 57) then Some (n - 48) else None.

Fixpoint read_digits (w : nat) (acc : Z) (s : string) : option (Z * string) :=
  match w with
  | O => Some (acc, s)
  | S w' =>
      match s with
      | String c s' => v ← digit_val c; read_digits w' (10 * acc + v) s'
      | EmptyString => None
      end
  end.

Definition expect (c : ascii) (s : string) : option string :=
  match s with
  | String c' s' => if Ascii.eqb c c' then Some s' else None
  | EmptyString => None
  end.

Definition read_fraction (s : string) : option (Z * string) :=
  match s with
  | EmptyString => Some (0, s)
  | String c s' => if Ascii.eqb c "." then read_digits 6 0 s' else Some (0, s)
  end.

Definition read_offset (s : string) : option (option Z) :=
  match s with
  | EmptyString => Some None
  | String c s' =>
      sign ← (if Ascii.eqb c "+" then Some 1
              else if Ascii.eqb c "-" then Some (-1) else None);
      '(h, s) ← read_digits 2 0 s'; s ← expect ":" s;
      '(m, s) ← read_digits 2 0 s;
      match s with
      | EmptyString =>
          if (h <=? 23) && (m <=? 59) then Some (Some (sign * (60 * h + m))) else None
      | _ => None
      end
  end.

Definition fromisoformat (s : string) : option datetime :=
  '(y, s) ← read_digits 4 0 s; s ← expect "-" s;
  '(mo, s) ← read_digits 2 0 s; s ← expect "-" s;
  '(d, s) ← read_digits 2 0 s; s ← expect "T" s;
  '(h, s) ← read_digits 2 0 s; s ← expect ":" s;
  '(mi, s) ← read_digits 2 0 s; s ← expect ":" s;
  '(se, s) ← read_digits 2 0 s;
  '(us, s) ← read_fraction s;
  tz ← read_offset s;
  let d := mk_datetime y mo d h mi se us tz in
  if datetime_okb d then Some d else None.

End Datetime.

Export Datetime (datetime, mk_datetime).

(** ** JSON documents

    The conversation files and the [extra] column hold JSON text. The printer
    and the parser of the JSON layer are inverse to each other on documents, so
    the model keeps the document and leaves the concrete syntax (quoting,
    [indent=2]) out. [Any] is read as "any JSON document". *)

#[warnings="-register-all"]
Inductive json : Type :=
  | JNull
  | JBool (b : bool)
  | JInt (n : Z)
  | JStr (s : string)
  | JArr (l : list json)
  | JObj (kv : list (string * json)).

(** [dict[str, Any]]: the items in insertion order. *)
Definition dict : Type := list (string * json).

Fixpoint field (k : string) (kv : dict) : option json :=
  match kv with
  | [] => None
  | (k', v) :: kv' => if String.eqb k k' then Some v else field k kv'
  end.

Definition as_str (j : json) : option string :=
  match j with JStr s => Some s | _ => None end.
(** A field of type [list[T]]: an array whose items all validate as [T]. *)
Definition as_list {A} (f : json → option A) (j : json) : option (list A) :=
  match j with JArr l => mapM f l | _ => None end.
Definition as_obj (j : json) : option dict :=
  match j with JObj kv => Some kv | _ => None end.
Definition as_datetime (j : json) : option datetime :=
  as_str j ≫= Datetime.fromisoformat.
(** A field of type [T | None]: [null] is [None], anything else must be a [T]. *)
Definition as_optional {A} (f : json → option A) (j : json) : option (option A) :=
  match j with JNull => Some None | _ => Some <$> f j end.

Definition dump_optional {A} (f : A → json) (o : option A) : json :=
  match o with Some a => f a | None => JNull end.
Definition dump_datetime (d : datetime) : json := JStr (Datetime.isoformat d).

(** ** models.py *)

Module Message.
Record t : Type := mk {
  role : string;
  content : string;
  timestamp : option datetime;
  tool_calls : list dict
}.

Definition model_dump (m : t) : json :=
  JObj [("role", JStr (role m));
        ("content", JStr (content m));
        ("timestamp", dump_optional dump_datetime (timestamp m));
        ("tool_calls", JArr (JObj <$> tool_calls m))].

Definition model_validate (j : json) : option t :=
  kv ← as_obj j;
  r ← field "role" kv ≫= as_str;
  c ← field "content" kv ≫= as_str;
  ts ← field "timestamp" kv ≫= as_optional as_datetime;
  tc ← field "tool_calls" kv ≫= as_list as_obj;
  Some (mk r c ts tc).
End Message.

Module Conversation.
Record t : Type := mk {
  id : string;
  source : string;
  project_path : option string;
  created_at : datetime;
  updated_at : datetime;
  messages : list Message.t;
  indexed_at : option datetime;
  title : option string;
  extra : dict
}.

(** The assignment [conv.indexed_at = v]. *)
Definition set_indexed_at (v : option datetime) (c : t) : t :=
  mk (id c) (source c) (project_path c) (created_at c) (updated_at c)
     (messages c) v (title c) (extra c).

(** [model_dump_json]: the fields in declaration order. *)
Definition model_dump_json (c : t) : json :=
  JObj [("id", JStr (id c));
        ("source", JStr (source c));
        ("project_path", dump_optional JStr (project_path c));
        ("created_at", dump_datetime (created_at c));
        ("updated_at", dump_datetime (updated_at c));
        ("messages", JArr (Message.model_dump <$> messages c));
        ("indexed_at", dump_optional dump_datetime (indexed_at c));
        ("title", dump_optional JStr (title c));
        ("extra", JObj (extra c))].

(** [model_validate_json]: [None] stands for a validation error. The fields
    are looked up by name; the defaults that a missing field would take are
    not modelled (files are written by [save], which writes every field). *)
Definition model_validate_json (j : json) : option t :=
  kv ← as_obj j;
  i ← field "id" kv ≫= as_str;
  src ← field "source" kv ≫= as_str;
  pp ← field "project_path" kv ≫= as_optional as_str;
  ca ← field "created_at" kv ≫= as_datetime;
  ua ← field "updated_at" kv ≫= as_datetime;
  ms ← field "messages" kv ≫= as_list Message.model_validate;
  ia ← field "indexed_at" kv ≫= as_optional as_datetime;
  ti ← field "title" kv ≫= as_optional as_str;
  ex ← field "extra" kv ≫= as_obj;
  Some (mk i src pp ca ua ms ia ti ex).
End Conversation.

Module DocumentMetadata.
Record t : Type := mk {
  source : string;
  project_path : option string;
  conversation_id : option string;
  chunk_index : Z;
  created_at : datetime;
  extra : dict
}.
End DocumentMetadata.

Module Document.
Record t : Type := mk {
  id : string;
  text : string;
  metadata : DocumentMetadata.t;
  embedding : option (list float)
}.
End Document.

Module SearchResult.
Record t : Type := mk {
  document : Document.t;
  score : float;
  distance : float
}.
End SearchResult.

(** The objects a caller can build: every datetime in them is a datetime. *)
Definition option_ok {A} (P : A → Prop) (o : option A) : Prop :=
  match o with Some a => P a | None => True end.

Definition message_ok (m : Message.t) : Prop :=
  option_ok Datetime.datetime_ok (Message.timestamp m).

Definition conversation_ok (c : Conversation.t) : Prop :=
  Datetime.datetime_ok (Conversation.created_at c) ∧
  Datetime.datetime_ok (Conversation.updated_at c) ∧
  option_ok Datetime.datetime_ok (Conversation.indexed_at c) ∧
  Forall message_ok (Conversation.messages c).

(** ** pathlib, as far as the store uses it

    A path below the [conversations/] directory: the shard directory and the
    file name. The file tree is keyed by the rendered path. *)

Module Path.
Record t : Type := mk { parent : string; name : string }.

Definition render (p : t) : string := (parent p ++ "/" ++ name p)%string.

(** [str.rfind]: the last position of [c] in [s], or -1. *)
Fixpoint rfind (c : ascii) (s : string) : Z :=
  match s with
  | EmptyString => -1
  | String c' s' =>
      let i := rfind c s' in
      if 0 <=? i then i + 1 else if Ascii.eqb c c' then 0 else -1
  end.

(** [PurePath.suffix]: the last dot-separated part of the name, unless the
    only dot leads or ends the name. *)
Definition suffix (n : string) : string :=
  let i := rfind "." n in
  if (0 <? i) && (i <? Z.of_nat (String.length n) - 1)
  then substring (Z.to_nat i) (String.length n - Z.to_nat i) n
  else "".

(** [PurePath.with_suffix]: replace the suffix, or add one when there is none. *)
Definition with_suffix (p : t) (sfx : string) : t :=
  let old := suffix (name p) in
  let stem :=
    match old with
    | EmptyString => name p
    | _ => substring 0 (String.length (name p) - String.length old) (name p)
    end in
  mk (parent p) (stem ++ sfx)%string.
End Path.

(** ** conversation.py *)

Module ConversationStore.

(** One row of the [conversations] table. The timestamps are TEXT columns
    holding [isoformat] strings. *)
Record row : Type := mk_row {
  row_id : string;
  row_source : string;
  row_project_path : option string;
  row_created_at : string;
  row_updated_at : string;
  row_indexed_at : option string;
  row_title : option string;
  row_message_count : Z
}.

(** The store on disk: the files below [conversations/] and the index. The
    store is the one [_ensure_initialized] leaves: directories and table
    exist ([mkdir(exist_ok=True)], [CREATE TABLE IF NOT EXISTS]). *)
Record t : Type := mk {
  files : gmap string json;
  index : list row
}.

Definition empty : t := mk ∅ [].

Definition set_files (f : gmap string json → gmap string json) (s : t) : t :=
  mk (f (files s)) (index s).
Definition set_index (f : list row → list row) (s : t) : t :=
  mk (files s) (f (index s)).

(** *** The file system calls *)

Definition exists_ (p : Path.t) : M t bool :=
  gets (λ s, bool_decide (is_Some (files s !! Path.render p))).

Definition read_text (p : Path.t) : M t json :=
  λ s, match files s !! Path.render p with
       | Some content => (Ok content, s)
       | None => (Raise FileNotFoundError, s)
       end.

Definition write_text (p : Path.t) (content : json) : M t unit :=
  modify (set_files (<[Path.render p := content]>)).

(** [rename] replaces the target in one step. *)
Definition rename (src dst : Path.t) : M t unit :=
  λ s, match files s !! Path.render src with
       | Some content =>
           (Ok tt, set_files (λ f, <[Path.render dst := content]> (delete (Path.render src) f)) s)
       | None => (Raise FileNotFoundError, s)
       end.

Definition unlink (p : Path.t) : M t unit :=
  λ s, match files s !! Path.render p with
       | Some _ => (Ok tt, set_files (delete (Path.render p)) s)
       | None => (Raise FileNotFoundError, s)
       end.

(** *** The SQL statements *)

(** [INSERT OR REPLACE]: [id] is the primary key, so a row with the same id
    is removed and the new row is added. *)
Definition insert_or_replace (r : row) (tbl : list row) : list row :=
  (filter (λ r', row_id r' ≠ row_id r) tbl ++ [r])%list.

(** [DELETE FROM conversations WHERE id = ?] *)
Definition delete_where_id (i : string) (tbl : list row) : list row :=
  filter (λ r, row_id r ≠ i) tbl.

(** [UPDATE conversations SET indexed_at = ? WHERE id = ?] *)
Definition update_indexed_at (v : string) (i : string) (tbl : list row) : list row :=
  (λ r, if decide (row_id r = i)
        then mk_row (row_id r) (row_source r) (row_project_path r) (row_created_at r)
                    (row_updated_at r) (Some v) (row_title r) (row_message_count r)
        else r) <$> tbl.

(** [ORDER BY key DESC] and [ORDER BY key ASC] on a TEXT column: the rows
    sorted by the byte order of their keys. *)
Definition desc_by (key : row → string) : relation row :=
  λ a b, String.le (key b) (key a).
Definition asc_by (key : row → string) : relation row :=
  λ a b, String.le (key a) (key b).

#[global] Instance desc_by_dec key : RelDecision (desc_by key) :=
  λ a b, String.le_dec (key b) (key a).
#[global] Instance asc_by_dec key : RelDecision (asc_by key) :=
  λ a b, String.le_dec (key a) (key b).

Definition order_by_desc (key : row → string) (tbl : list row) : list row :=
  merge_sort (desc_by key) tbl.
Definition order_by_asc (key : row → string) (tbl : list row) : list row :=
  merge_sort (asc_by key) tbl.

(** [LIMIT ? OFFSET ?]: a negative limit is no limit, a negative offset is 0. *)
Definition limit_offset (limit offset : Z) (rows : list row) : list row :=
  let rest := drop (Z.to_nat offset) rows in
  if limit <? 0 then rest else take (Z.to_nat limit) rest.

Definition execute (stmt : list row → list row) : M t unit :=
  modify (set_index stmt).

(** *** The store *)

Definition _ensure_initialized : M t unit := mret tt.

(** [id[:2] if len(id) >= 2 else "00"] *)
Definition shard (id : string) : string :=
  if 2 <=? Z.of_nat (String.length id) then substring 0 2 id else "00".

Definition _conversation_path (id : string) : Path.t :=
  Path.mk (shard id) (id ++ ".json")%string.

Definition index_row (c : Conversation.t) : row :=
  mk_row (Conversation.id c)
         (Conversation.source c)
         (Conversation.project_path c)
         (Datetime.isoformat (Conversation.created_at c))
         (Datetime.isoformat (Conversation.updated_at c))
         (Datetime.isoformat <$> Conversation.indexed_at c)
         (Conversation.title c)
         (Z.of_nat (length (Conversation.messages c))).

Definition save (conversation : Conversation.t) : M t unit :=
  _ensure_initialized;;
  let path := _conversation_path (Conversation.id conversation) in
  let temp_path := Path.with_suffix path ".tmp" in
  let content := Conversation.model_dump_json conversation in
  write_text temp_path content;;
  rename temp_path path;;
  execute (insert_or_replace (index_row conversation)).

Definition get (id : string) : M t (option Conversation.t) :=
  _ensure_initialized;;
  let path := _conversation_path id in
  found ← exists_ path;
  if negb found then mret None
  else
    content ← read_text path;
    match Conversation.model_validate_json content with
    | Some c => mret (Some c)
    | None => raise ValidationError
    end.

Definition delete (id : string) : M t bool :=
  _ensure_initialized;;
  let path := _conversation_path id in
  existed ← exists_ path;
  (if (existed : bool) then unlink path else mret tt);;
  execute (delete_where_id id);;
  mret existed.

(** The loop that reads the selected ids back from their files; an id whose
    file is gone is skipped. *)
Fixpoint hydrate (ids : list string) : M t (list Conversation.t) :=
  match ids with
  | [] => mret ([] : list Conversation.t)
  | id :: ids' =>
      conv ← get id;
      rest ← hydrate ids';
      mret (match conv with Some c => c :: rest | None => rest end)
  end.

Definition list_all (limit offset : Z) : M t (list Conversation.t) :=
  _ensure_initialized;;
  rows ← gets (λ s, row_id <$> limit_offset limit offset
                      (order_by_desc row_updated_at (index s)));
  hydrate rows.

Definition list_by_project (project_path : string) (limit offset : Z)
    : M t (list Conversation.t) :=
  _ensure_initialized;;
  rows ← gets (λ s, row_id <$> limit_offset limit offset
                      (order_by_desc row_updated_at
                         (filter (λ r, row_project_path r = Some project_path) (index s))));
  hydrate rows.

(** [if source:]: [None] and the empty string both skip the condition. *)
Definition truthy (source : option string) : bool :=
  match source with
  | Some s => negb (String.eqb s "")
  | None => false
  end.

Definition in_date_range (start_ end_ : string) (source : option string) (r : row) : bool :=
  String.leb start_ (row_created_at r) && String.leb (row_created_at r) end_ &&
  (if truthy source then bool_decide (Some (row_source r) = source) else true).

Definition list_by_date_range (start_ end_ : datetime) (source : option string) (limit : Z)
    : M t (list Conversation.t) :=
  _ensure_initialized;;
  rows ← gets (λ s, row_id <$> limit_offset limit 0
                      (order_by_desc row_created_at
                         (filter (λ r, in_date_range (Datetime.isoformat start_)
                                                     (Datetime.isoformat end_) source r = true)
                                 (index s))));
  hydrate rows.

Definition list_unindexed (limit : Z) : M t (list Conversation.t) :=
  _ensure_initialized;;
  rows ← gets (λ s, row_id <$> limit_offset limit 0
                      (order_by_asc row_created_at
                         (filter (λ r, row_indexed_at r = None) (index s))));
  hydrate rows.

(** [utcnow] is the reading of the clock at the call. A datetime is always
    true as a condition, so [indexed_at or datetime.utcnow()] is the argument
    when one is given. *)
Definition mark_indexed (utcnow : datetime) (id : string) (indexed_at : option datetime)
    : M t unit :=
  _ensure_initialized;;
  let now := default utcnow indexed_at in
  execute (update_indexed_at (Datetime.isoformat now) id);;
  conv ← get id;
  match conv with
  | Some c => save (Conversation.set_indexed_at (Some now) c)
  | None => mret tt
  end.

Record stats : Type := mk_stats {
  total_conversations : Z;
  indexed_conversations : Z;
  unique_projects : Z
}.

(** [COUNT( * )], [COUNT(CASE WHEN indexed_at IS NOT NULL THEN 1 END)] and
    [COUNT(DISTINCT project_path)], which counts the values that are not null. *)
Definition count_stats (tbl : list row) : stats :=
  mk_stats (Z.of_nat (length tbl))
           (Z.of_nat (length (filter (λ r, is_Some (row_indexed_at r)) tbl)))
           (Z.of_nat (length (remove_dups (omap row_project_path tbl)))).

Definition get_stats : M t stats :=
  _ensure_initialized;;
  gets (λ s, count_stats (index s)).

End ConversationStore.

(** ** vector.py *)

#[global] Instance result_ret : MRet result := λ A a, Ok a.
#[global] Instance result_bind : MBind result := λ A B f m,
  match m with Ok a => f a | Raise e => Raise e end.

(** A computation that does not touch the store. *)
Definition lift {S A} (r : result A) : M S A := λ s, (r, s).

(** A read of the store that may raise, and a write that may raise and then
    leaves the store as it was. *)
Definition ask {S A} (f : S → result A) : M S A := λ s, (f s, s).
Definition update {S} (f : S → result S) : M S unit := λ s,
  match f s with
  | Ok s' => (Ok tt, s')
  | Raise e => (Raise e, s)
  end.

(** Python's [a / b] on floats: a zero divisor raises. *)
Definition float_div (a b : float) : result float :=
  if (b =? 0)%float then Raise ZeroDivisionError else Ok (a / b)%float.

(** [x or ""] and [x or None] on strings: the empty string counts as false. *)
Definition or_empty (x : option string) : string :=
  match x with
  | Some s => if String.eqb s "" then "" else s
  | None => ""
  end.
Definition or_none (x : string) : option string :=
  if String.eqb x "" then None else Some x.

Module VectorStore.

(** A text column that holds JSON: the empty text, or the text of a document
    (see the note on JSON documents above). *)
Inductive json_text : Type :=
  | EmptyText
  | TextOf (j : json).

Definition json_dumps (j : json) : json_text := TextOf j.

(** One row of the [documents] table. *)
Record row : Type := mk_row {
  id : string;
  text : string;
  vector : list float;
  source : string;
  project_path : string;
  conversation_id : string;
  chunk_index : Z;
  created_at : string;
  extra : json_text
}.

(** The store is its table; [_ensure_connected] opens it or creates it empty
    with the schema of the store. *)
Abbreviation t := (list row).
Definition empty : t := [].

(** A row as a query returns it: with its [_distance] when the query ranked. *)
Definition hit : Type := row * option float.

(** The query builder: [table.search(v)], [.limit(n)], [.where(expr)]. *)
Record query : Type := mk_query {
  q_vector : option (list float);
  q_limit : option Z;
  q_where : option string
}.
Definition search_ (v : option (list float)) : query := mk_query v None None.
Definition limit (n : Z) (q : query) : query := mk_query (q_vector q) (Some n) (q_where q).
Definition where_ (expr : string) (q : query) : query :=
  mk_query (q_vector q) (q_limit q) (Some expr).

(** The order of a ranking: ascending distance, NaN after every number. *)
Definition dist_le (a b : float) : Prop := (a <=? b)%float || is_nan b.
Definition nearer : relation (row * float) := λ x y, dist_le x.2 y.2.
#[global] Instance nearer_dec : RelDecision nearer :=
  λ x y, Is_true_dec ((x.2 <=? y.2)%float || is_nan y.2).

(** The [int32] column. *)
Definition int32 (n : Z) : bool := (- 2 ^ 31 <=? n) && (n <? 2 ^ 31).

Section Engine.
(** The store is built with its [dimension]. The engine is LanceDB, which is
    not part of the repository; it is a parameter:
    - [metric]: the [_distance] it gives a stored vector for a query vector;
    - [sql_where]: its reading of a filter expression as a test on rows, or
      [None] for an expression it refuses (every call with it raises);
    - [scan_limit]: how many rows a plain query without [.limit] returns at
      most ([None]: all of them);
    - [nearest]: the rows a vector query returns, in their order, given the
      query vector, the limit, the test of the filter and the table; it may
      raise. *)
Variable dimension : Z.
Variable metric : list float → list float → float.
Variable sql_where : string → option (row → bool).
Variable scan_limit : option nat.
Variable nearest : list float → option Z → option (row → bool) → t → result (list row).

(** The engine reads [expr] as the test [test]. *)
Definition reads_as (expr : string) (test : row → bool) : Prop :=
  ∃ f, sql_where expr = Some f ∧ ∀ r, f r = test r.

Definition parse (expr : option string) : result (option (row → bool)) :=
  match expr with
  | None => Ok None
  | Some e =>
      match sql_where e with
      | Some f => Ok (Some f)
      | None => Raise EngineError
      end
  end.

(** [query.to_list()]. A vector query returns the rows the engine selects,
    each with its distance; a plain query returns the rows that pass the
    filter, in storage order, up to its limit. *)
Definition to_list (q : query) (tbl : t) : result (list hit) :=
  match parse (q_where q) with
  | Raise e => Raise e
  | Ok test =>
      match q_vector q with
      | Some v =>
          match nearest v (q_limit q) test tbl with
          | Ok rows => Ok ((λ r : row, (r, Some (metric v (vector r)))) <$> rows)
          | Raise e => Raise e
          end
      | None =>
          let candidates : t :=
            match test with
            | Some f => filter (λ r, f r = true) tbl
            | None => tbl
            end in
          let n : option nat :=
            match q_limit q with
            | Some n => Some (Z.to_nat n)
            | None => scan_limit
            end in
          Ok ((λ r : row, (r, @None float)) <$>
                match n with Some n => take n candidates | None => candidates end)
      end
  end.

(** [table.delete(expr)] *)
Definition table_delete (expr : string) (tbl : t) : result t :=
  match sql_where expr with
  | Some f => Ok (filter (λ r, f r ≠ true) tbl)
  | None => Raise EngineError
  end.

(** The schema of [_ensure_connected]: the vector column has [dimension]
    entries and [chunk_index] is an [int32]. *)
Definition fits (r : row) : bool :=
  (Z.of_nat (length (vector r)) =? dimension) && int32 (chunk_index r).

(** [merge_insert("id").when_matched_update_all().when_not_matched_insert_all()
    .execute(data)]: data that does not fit the schema is refused; otherwise
    the stored rows whose id is in the data give way to the data, which is
    written after the rows that stay. *)
Definition merge_insert (data : list row) (tbl : t) : result t :=
  if forallb fits data
  then Ok (filter (λ r, id r ∉ id <$> data) tbl ++ data)%list
  else Raise EngineError.

Definition _ensure_connected : M t unit := mret tt.

Definition to_row (document : Document.t) (embedding : list float) : row :=
  let metadata := Document.metadata document in
  mk_row (Document.id document)
         (Document.text document)
         embedding
         (DocumentMetadata.source metadata)
         (or_empty (DocumentMetadata.project_path metadata))
         (or_empty (DocumentMetadata.conversation_id metadata))
         (DocumentMetadata.chunk_index metadata)
         (Datetime.isoformat (DocumentMetadata.created_at metadata))
         (json_dumps (JObj (DocumentMetadata.extra metadata))).

Definition add (document : Document.t) (embedding : list float) : M t unit :=
  _ensure_connected;;
  let data := [to_row document embedding] in
  update (merge_insert data).

Definition add_batch (documents : list Document.t) (embeddings : list (list float))
    : M t unit :=
  _ensure_connected;;
  if negb (length documents =? length embeddings)%nat
  then raise ValueError
  else
    let data := (λ de : Document.t * list float, to_row de.1 de.2)
                  <$> zip documents embeddings in
    update (merge_insert data).

(** The document of a row, as [search] and [get] both build it. The
    [created_at] text and the [extra] text go through validation. *)
Definition to_document (r : row) : result Document.t :=
  created ← match Datetime.fromisoformat (created_at r) with
            | Some d => Ok d
            | None => Raise ValidationError
            end;
  ex ← match extra r with
       | EmptyText => Ok []
       | TextOf (JObj kv) => Ok kv
       | TextOf _ => Raise ValidationError
       end;
  let metadata :=
    DocumentMetadata.mk (source r)
                        (or_none (project_path r))
                        (or_none (conversation_id r))
                        (chunk_index r)
                        created
                        ex in
  Ok (Document.mk (id r) (text r) metadata None).

Definition to_search_result (h : hit) : result SearchResult.t :=
  doc ← to_document h.1;
  let distance := default 0%float h.2 in
  score ← float_div 1 (1 + distance);
  Ok (SearchResult.mk doc score distance).

Fixpoint search_results (results : list hit) : result (list SearchResult.t) :=
  match results with
  | [] => Ok []
  | h :: results' =>
      r ← to_search_result h;
      rest ← search_results results';
      Ok (r :: rest)
  end.

Definition search (embedding : list float) (limit_ : Z) (filter_expr : option string)
    : M t (list SearchResult.t) :=
  _ensure_connected;;
  let query := limit limit_ (search_ (Some embedding)) in
  let query :=
    match filter_expr with
    | Some expr => if String.eqb expr "" then query else where_ expr query
    | None => query
    end in
  results ← ask (to_list query);
  lift (search_results results).

(** The filter expressions the store builds: [f"id = '{id}'"] and
    [f"conversation_id = '{conversation_id}'"]. *)
Definition id_expr (id : string) : string := ("id = '" ++ id ++ "'")%string.
Definition conversation_expr (conversation_id : string) : string :=
  ("conversation_id = '" ++ conversation_id ++ "'")%string.

Definition get (id : string) : M t (option Document.t) :=
  _ensure_connected;;
  results ← ask (to_list (limit 1 (where_ (id_expr id) (search_ None))));
  match results with
  | [] => mret None
  | h :: _ => doc ← lift (to_document h.1); mret (Some doc)
  end.

Definition delete (id : string) : M t bool :=
  _ensure_connected;;
  update (table_delete (id_expr id));;
  mret true.

Definition delete_by_conversation (conversation_id : string) : M t Z :=
  _ensure_connected;;
  count_results ← ask (to_list (where_ (conversation_expr conversation_id) (search_ None)));
  let count := Z.of_nat (length count_results) in
  update (table_delete (conversation_expr conversation_id));;
  mret count.

Definition count : M t Z :=
  _ensure_connected;;
  gets (λ tbl, Z.of_nat (length tbl)).

(** The filter that [search] passes on: [if filter_expr:] skips [None] and
    the empty string. *)
Definition passed_filter (filter_expr : option string) : option string :=
  match filter_expr with
  | Some expr => if String.eqb expr "" then None else Some expr
  | None => None
  end.

(** A row passes the test of a filter; every row passes when there is none. *)
Definition passes (test : option (row → bool)) (r : row) : Prop :=
  match test with
  | Some f => f r = true
  | None => True
  end.
#[global] Instance passes_dec test r : Decision (passes test r).
Proof. destruct test; cbn [passes]; apply _. Defined.

(** The order of the rows by their distance to the query. *)
Definition nearer_to (embedding : list float) : relation row :=
  λ a b, dist_le (metric embedding (vector a)) (metric embedding (vector b)).

(** What a vector query with the limit [n] is to return when the engine
    applies the filter before it ranks: the first [n] rows of [ranked], a
    ranking by ascending distance of the rows that pass the filter. *)
Definition selects_nearest (embedding : list float) (n : Z) (test : option (row → bool))
    (tbl : t) (ranked rows : list row) : Prop :=
  ranked ≡ₚ filter (passes test) tbl ∧
  StronglySorted (nearer_to embedding) ranked ∧
  rows = take (Z.to_nat n) ranked.

(** [res] is the search result of the row [r] for the query [embedding]. *)
Definition result_of (embedding : list float) (r : row) (res : SearchResult.t) : Prop :=
  to_document r = Ok (SearchResult.document res) ∧
  SearchResult.distance res = metric embedding (vector r) ∧
  SearchResult.score res = (1 / (1 + SearchResult.distance res))%float.
End Engine.

End VectorStore.

(** ** Stores in which the index and the files agree

    Every index row is the row of a conversation whose file is in place, and
    every file belongs to a row. The empty store is such a store and [save],
    [delete] and [mark_indexed] keep it so (Part II); only a crash between the
    two steps of a save could break it. *)

Definition store_ok (s : ConversationStore.t) : Prop :=
  NoDup (ConversationStore.row_id <$> ConversationStore.index s) ∧
  (∀ r, r ∈ ConversationStore.index s →
     ∃ c, conversation_ok c ∧ ConversationStore.index_row c = r ∧
          ConversationStore.files s
            !! Path.render (ConversationStore._conversation_path (ConversationStore.row_id r))
          = Some (Conversation.model_dump_json c)) ∧
  (∀ p, is_Some (ConversationStore.files s !! p) →
     ∃ r, r ∈ ConversationStore.index s ∧
          p = Path.render (ConversationStore._conversation_path (ConversationStore.row_id r))).

(** Newest first, by a datetime field. *)
Definition newest_first (key : Conversation.t → datetime) : relation Conversation.t :=
  λ a b, Datetime.leb (key b) (key a) = true.

(** Newest first by the text of a datetime field, as the index holds it: the
    order of [ORDER BY ... DESC] on the TEXT column. For naive datetimes it
    is [newest_first] (Part II); for aware datetimes of different offsets it
    is not. *)
Definition newest_text_first (key : Conversation.t → datetime) : relation Conversation.t :=
  λ a b, String.leb (Datetime.isoformat (key b)) (Datetime.isoformat (key a)) = true.

(** [c] is the conversation of the index row [r] in the store [s]: [r] is its
    row and [get] returns it. *)
Definition row_of (s : ConversationStore.t) (r : ConversationStore.row) (c : Conversation.t)
    : Prop :=
  conversation_ok c ∧ ConversationStore.index_row c = r ∧
  run (ConversationStore.get (Conversation.id c)) s = (Ok (Some c), s).

(** What a date-range query asks of a conversation: created within the bounds,
    both included, and from the given source when a source that is not the
    empty string is given. *)
Definition date_range_match (start_ end_ : datetime) (source : option string)
    (c : Conversation.t) : Prop :=
  Datetime.leb start_ (Conversation.created_at c) = true ∧
  Datetime.leb (Conversation.created_at c) end_ = true ∧
  ∀ src, source = Some src → src ≠ "" → Conversation.source c = src.

(** The same on the texts of the datetimes, as the query compares them. *)
Definition date_range_text_match (start_ end_ : datetime) (source : option string)
    (c : Conversation.t) : Prop :=
  String.leb (Datetime.isoformat start_) (Datetime.isoformat (Conversation.created_at c)) = true ∧
  String.leb (Datetime.isoformat (Conversation.created_at c)) (Datetime.isoformat end_) = true ∧
  ∀ src, source = Some src → src ≠ "" → Conversation.source c = src.

(** How many rows [LIMIT ?] keeps of [rows]: all of them when the limit is
    negative. *)
Definition cap {A} (limit : Z) (rows : list A) : nat :=
  if limit <? 0 then length rows else Z.to_nat limit.

(** The not-empty-string condition on the optional text fields of a document. *)
Definition no_empty_string (x : option string) : Prop := x ≠ Some "".

(** ** The order of the ranking on specification floats

    [Prim2SF] maps a binary64 float to its specification; the two functions
    below are [is_nan] and [VectorStore.dist_le] there. *)

Definition sf_is_nan (x : spec_float) : bool :=
  match x with S754_nan => true | _ => false end.

Definition sf_le (x y : spec_float) : bool := SFleb x y || sf_is_nan y.


(** ** The values of specification floats

    The bounds and the monotonicity of the score are proved on the
    specification of binary64 ([SpecFloat]), where a finite float is a sign, a
    mantissa [m] and an exponent [e >= -1074] and stands for [m * 2^e].
    Multiplied by 2^1074 the values of the floats are integers, and a positive
    real number is a fraction [N / D] of integers; the definitions below state
    values in that scale. *)

(** [2^e], for [e >= -1074]. *)
Definition scaled (e : Z) : Z := 2 ^ (e + 1074).

(** The value of a float that is not negative; the infinity is given 2^1024,
    the first power of two above every finite float. *)
Definition sf_value (x : spec_float) : Z :=
  match x with
  | S754_finite false m e => Z.pos m * scaled e
  | S754_infinity false => scaled 1024
  | _ => 0
  end.

(** The floats that are not negative: a zero of either sign, a positive float
    of the format, or the positive infinity. *)
Definition sf_nonneg (x : spec_float) : Prop :=
  match x with
  | S754_zero _ | S754_infinity false => True
  | S754_finite false m e => bounded prec emax m e = true
  | _ => False
  end.

(** The float [1.0]. *)
Definition sf_one : spec_float := S754_finite false 4503599627370496 (-52).

(** [m] is a mantissa of the format at the exponent [e]. *)
Definition canonical (m : positive) (e : Z) : Prop :=
  fexp prec emax (Z.pos (digits2_pos m) + e) = e.

(** The values of zero and of the positive floats, the exponent not being
    bounded from above. *)
Definition representable (v : Z) : Prop :=
  v = 0 ∨ ∃ m e, canonical m e ∧ v = Z.pos m * scaled e.

(** No representable number is nearer to [N / D] than [v]. *)
Definition nearest (v N D : Z) : Prop :=
  ∀ g, representable g → Z.abs (v * D - N) <= Z.abs (g * D - N).

(** Where [N / D] lies with respect to the multiples of [2^e]: at [m * 2^e]
    when the location is exact, and otherwise strictly between [m * 2^e] and
    [(m + 1) * 2^e], below, at or above the middle as the location says. *)
Definition inbetween (m e : Z) (l : location) (N D : Z) : Prop :=
  match l with
  | loc_Exact => N = m * (scaled e * D)
  | loc_Inexact c =>
      m * (scaled e * D) < N < (m + 1) * (scaled e * D) ∧
      (2 * N ?= (2 * m + 1) * (scaled e * D)) = c
  end.


(** ** Orders and sequences of writes, for the laws of Part II *)

(** Oldest first, by a datetime field. *)
Definition oldest_first (key : Conversation.t → datetime) : relation Conversation.t :=
  λ a b, Datetime.leb (key a) (key b) = true.

Definition oldest_text_first (key : Conversation.t → datetime) : relation Conversation.t :=
  λ a b, String.leb (Datetime.isoformat (key a)) (Datetime.isoformat (key b)) = true.

(** A write to the conversation store, and a sequence of writes. *)
Inductive write : Type :=
  | Save (conversation : Conversation.t)
  | Delete (id : string)
  | MarkIndexed (utcnow : datetime) (id : string) (indexed_at : option datetime).

Definition perform (w : write) : M ConversationStore.t unit :=
  match w with
  | Save conversation => ConversationStore.save conversation
  | Delete id => ConversationStore.delete id;; mret tt
  | MarkIndexed utcnow id indexed_at => ConversationStore.mark_indexed utcnow id indexed_at
  end.

Fixpoint perform_all (ws : list write) : M ConversationStore.t unit :=
  match ws with
  | [] => mret tt
  | w :: ws' => perform w;; perform_all ws'
  end.

(** An id that is the name of a file: it has no path separator and no NUL,
    so that the file of the conversation lies in its shard directory. *)
Definition file_name (id : string) : Prop :=
  Forall (λ c, c ≠ "/"%char ∧ c ≠ "000"%char) (list_ascii_of_string id).

(** The writes of valid data: conversations and timestamps that validate,
    and ids that are file names. *)
Definition write_ok (w : write) : Prop :=
  match w with
  | Save conversation =>
      conversation_ok conversation ∧ file_name (Conversation.id conversation)
  | Delete id => file_name id
  | MarkIndexed utcnow id indexed_at =>
      Datetime.datetime_ok (default utcnow indexed_at) ∧ file_name id
  end.

(** Adding documents one after the other, as a caller's loop over [add]. *)
Fixpoint add_each (dimension : Z) (pairs : list (Document.t * list float))
    : M VectorStore.t unit :=
  match pairs with
  | [] => mret tt
  | (document, embedding) :: pairs' =>
      VectorStore.add dimension document embedding;; add_each dimension pairs'
  end.

(** ** exceptions.py *)

Module Exceptions.
Inductive t : Type :=
  | RecallError
  | ConfigurationError
  | EmbeddingError
  | ProviderConnectionError
  | ProviderNotAvailableError
  | StorageError
  | ConversationNotFoundError
  | DocumentNotFoundError.

#[global] Instance eq_dec : EqDecision t.
Proof. solve_decision. Defined.

(** The class a class derives from; [RecallError] derives from [Exception]. *)
Definition base (cls : t) : option t :=
  match cls with
  | RecallError => None
  | ConfigurationError => Some RecallError
  | EmbeddingError => Some RecallError
  | ProviderConnectionError => Some EmbeddingError
  | ProviderNotAvailableError => Some EmbeddingError
  | StorageError => Some RecallError
  | ConversationNotFoundError => Some StorageError
  | DocumentNotFoundError => Some StorageError
  end.

(** [issubclass(a, b)], following [base] at most [n] times. *)
Fixpoint issubclass_within (n : nat) (a b : t) : bool :=
  bool_decide (a = b) ||
  match n, base a with
  | S n', Some a' => issubclass_within n' a' b
  | _, _ => false
  end.

(** No class is more than two classes away from [RecallError]. *)
Definition issubclass (a b : t) : bool := issubclass_within 2 a b.
End Exceptions.

(** What the embedding and configuration code raises: an exception of
    [exceptions.py] with its message, [ValueError], or an exception of a
    library that the code lets through. *)
Inductive raised : Type :=
  | Recall (cls : Exceptions.t) (message : string)
  | BuiltinValueError (message : string)
  | LibraryError (name : string).

Inductive outcome (A : Type) : Type :=
  | Returns (a : A)
  | Raises (e : raised).
Arguments Returns {A} a.
Arguments Raises {A} e.

(** A computation over a state [S] that returns or raises. *)
Definition P (S A : Type) : Type := S → outcome A * S.

#[global] Instance P_ret {S} : MRet (P S) := λ A a s, (Returns a, s).
#[global] Instance P_bind {S} : MBind (P S) := λ A B f m s,
  match m s with
  | (Returns a, s') => f a s'
  | (Raises e, s') => (Raises e, s')
  end.

Definition raises {S A} (e : raised) : P S A := λ s, (Raises e, s).

(** ** config/settings.py *)

Module Settings.
Inductive EmbeddingProviderType : Type := OLLAMA | ANTHROPIC | OPENAI.

#[global] Instance provider_eq_dec : EqDecision EmbeddingProviderType.
Proof. solve_decision. Defined.

Record RecallSettings : Type := mk {
  embedding_provider : EmbeddingProviderType;
  ollama_model : string;
  ollama_base_url : string;
  anthropic_api_key : option string;
  openai_api_key : option string;
  data_dir : string;
  claude_code_dir : string
}.

(** The model validator that runs after the fields are set. *)
Definition validate_api_keys (self : RecallSettings) : outcome RecallSettings :=
  if bool_decide (embedding_provider self = ANTHROPIC)
     && negb (ConversationStore.truthy (anthropic_api_key self))
  then Raises (BuiltinValueError "anthropic_api_key required when using Anthropic provider")
  else if bool_decide (embedding_provider self = OPENAI)
          && negb (ConversationStore.truthy (openai_api_key self))
  then Raises (BuiltinValueError "openai_api_key required when using OpenAI provider")
  else Returns self.

Section Singleton.
(** [RecallSettings( **kwargs )]: the settings that pydantic builds from the
    keyword arguments, the environment variables and the TOML file, or the
    error it raises. The environment [E] is what it reads. *)
Context {E : Type}.
Variable build : E → dict → outcome RecallSettings.

(** The process: its environment and the module variable [_settings]. *)
Record process : Type := mk_process {
  environment : E;
  _settings : option RecallSettings
}.

Definition get_settings (kwargs : dict) : P process RecallSettings :=
  λ p,
    match _settings p, kwargs with
    | Some settings, [] => (Returns settings, p)
    | _, _ =>
        match build (environment p) kwargs with
        | Returns settings => (Returns settings, mk_process (environment p) (Some settings))
        | Raises e => (Raises e, p)
        end
    end.

Definition reset_settings : P process unit :=
  λ p, (Returns tt, mk_process (environment p) None).

(** What happens in a process between two looks at its settings: the
    environment changes, or the settings are asked for or reset. *)
Inductive event : Type :=
  | SetEnvironment (e : E)
  | GetSettings (kwargs : dict)
  | ResetSettings.

Definition happen (ev : event) (p : process) : process :=
  match ev with
  | SetEnvironment e => mk_process e (_settings p)
  | GetSettings kwargs => (get_settings kwargs p).2
  | ResetSettings => (reset_settings p).2
  end.

(** An event that neither resets the settings nor passes keyword arguments. *)
Definition quiet (ev : event) : Prop :=
  match ev with
  | SetEnvironment _ => True
  | GetSettings kwargs => kwargs = []
  | ResetSettings => False
  end.
End Singleton.
End Settings.

(** ** embeddings/ollama.py

    The HTTP client is the provider's view of the server: the response to a
    request, given the requests sent before it. A response is one of the
    exceptions of httpx, or the decoded JSON object with its ["embedding"]
    entry when it has one (a list of floats). *)

Module OllamaProvider.

Definition MODEL_DIMENSIONS : gmap string Z :=
  list_to_map [("nomic-embed-text", 768); ("mxbai-embed-large", 1024);
               ("all-minilm", 384); ("snowflake-arctic-embed", 1024)].
Definition DEFAULT_DIMENSION : Z := 768.

(** [s.rstrip(c)] for one character [c]. *)
Fixpoint rstrip (c : ascii) (s : string) : string :=
  match s with
  | EmptyString => EmptyString
  | String a s' =>
      match rstrip c s' with
      | EmptyString => if Ascii.eqb a c then EmptyString else String a EmptyString
      | rest => String a rest
      end
  end.

Record t : Type := mk {
  _model : string;
  _base_url : string;
  _timeout : float;
  _detected_dimension : option Z
}.

Definition init (model base_url : string) (timeout : float) : t :=
  mk model (rstrip "/" base_url) timeout None.

Definition model_name (self : t) : string := _model self.

Definition dimension (self : t) : Z :=
  match _detected_dimension self with
  | Some d => d
  | None => default DEFAULT_DIMENSION (MODEL_DIMENSIONS !! _model self)
  end.

Record request : Type := mk_request {
  url : string;
  json_model : string;
  json_prompt : string
}.

Inductive response : Type :=
  | ConnectError                       (* httpx.ConnectError *)
  | OtherError (name : string)         (* an exception that [embed] does not catch *)
  | HTTPStatusError (text : string)    (* raised by [raise_for_status] *)
  | Data (embedding : option (list float)).

Section Client.
Variable server : list request → request → response.

(** The provider and the requests its client has sent. *)
Record world : Type := mk_world {
  self : t;
  sent : list request
}.

Definition _detect_dimension (embedding : list float) : P world unit :=
  λ w,
    (Returns tt,
     match _detected_dimension (self w) with
     | None => mk_world (mk (_model (self w)) (_base_url (self w)) (_timeout (self w))
                            (Some (Z.of_nat (length embedding))))
                        (sent w)
     | Some _ => w
     end).

Definition post (path : string) (model prompt : string) : P world response :=
  λ w,
    let rq := mk_request (_base_url (self w) ++ path) model prompt in
    (Returns (server (sent w) rq), mk_world (self w) (sent w ++ [rq])%list).

Definition embed (text : string) : P world (list float) :=
  λ w,
    match post "/api/embeddings" (_model (self w)) text w with
    | (Returns ConnectError, w') =>
        (Raises (Recall Exceptions.ProviderConnectionError
                   ("Failed to connect to Ollama at " ++ _base_url (self w)
                    ++ ". Ensure Ollama is running and accessible.")), w')
    | (Returns (OtherError name), w') => (Raises (LibraryError name), w')
    | (Returns (HTTPStatusError text), w') =>
        (Raises (Recall Exceptions.EmbeddingError ("Ollama API error: " ++ text)), w')
    | (Returns (Data None), w') =>
        (Raises (Recall Exceptions.EmbeddingError
                   "Unexpected Ollama response format: 'embedding'"), w')
    | (Returns (Data (Some embedding)), w') =>
        (_detect_dimension embedding;; mret embedding) w'
    | (Raises e, w') => (Raises e, w')
    end.

Fixpoint embed_batch (texts : list string) : P world (list (list float)) :=
  match texts with
  | [] => mret []
  | text :: texts' =>
      embedding ← embed text;
      embeddings ← embed_batch texts';
      mret (embedding :: embeddings)
  end.

(** The responses of the server to the requests [rqs] sent one after the
    other, after the requests [history]. *)
Fixpoint exchange (history rqs : list request) : list response :=
  match rqs with
  | [] => []
  | rq :: rqs' => server history rq :: exchange (history ++ [rq])%list rqs'
  end.

(** The request of [embed(text)]. *)
Definition embed_request (provider : t) (text : string) : request :=
  mk_request (_base_url provider ++ "/api/embeddings") (_model provider) text.
End Client.
End OllamaProvider.

(** ** embeddings/anthropic.py and embeddings/openai.py: the constructors *)

Module AnthropicProvider.
Definition MODEL_DIMENSIONS : gmap string Z :=
  list_to_map [("voyage-3", 1024); ("voyage-3-lite", 512); ("voyage-code-3", 1024);
               ("voyage-finance-2", 1024); ("voyage-law-2", 1024); ("voyage-large-2", 1536)].

Record t : Type := mk { _model : string; api_key : string; _dimension : Z }.

(** [installed]: whether [import voyageai] succeeds. *)
Definition init (installed : bool) (api_key model : string) : outcome t :=
  if installed
  then Returns (mk model api_key (default 1024 (MODEL_DIMENSIONS !! model)))
  else Raises (Recall Exceptions.ProviderNotAvailableError
                 "voyageai package not installed. Install with: pip install recall-core[anthropic]").
End AnthropicProvider.

Module OpenAIProvider.
Definition MODEL_DIMENSIONS : gmap string Z :=
  list_to_map [("text-embedding-3-small", 1536); ("text-embedding-3-large", 3072);
               ("text-embedding-ada-002", 1536)].

Record t : Type := mk { _model : string; api_key : string; _dimension : Z }.

(** [installed]: whether [from openai import AsyncOpenAI] succeeds. *)
Definition init (installed : bool) (api_key model : string) : outcome t :=
  if installed
  then Returns (mk model api_key (default 1536 (MODEL_DIMENSIONS !! model)))
  else Raises (Recall Exceptions.ProviderNotAvailableError
                 "openai package not installed. Install with: pip install recall-core[openai]").
End OpenAIProvider.

(** ** embeddings/factory.py *)

Module Factory.
Import Settings.

Inductive EmbeddingProvider : Type :=
  | Ollama (provider : OllamaProvider.t)
  | Anthropic (provider : AnthropicProvider.t)
  | OpenAI (provider : OpenAIProvider.t).

Section Factory.
Context {E : Type}.
Variable build : E → dict → outcome RecallSettings.
Variable voyageai_installed openai_installed : bool.

Definition create_embedding_provider (settings : option RecallSettings)
    : P (@process E) EmbeddingProvider :=
  settings ← match settings with
             | Some settings => mret settings
             | None => get_settings build []
             end;
  match embedding_provider settings with
  | OLLAMA =>
      mret (Ollama (OllamaProvider.init (ollama_model settings) (ollama_base_url settings) 30))
  | ANTHROPIC =>
      if negb (ConversationStore.truthy (anthropic_api_key settings))
      then raises (BuiltinValueError "anthropic_api_key required for Anthropic provider")
      else λ p,
        (match AnthropicProvider.init voyageai_installed
                 (default "" (anthropic_api_key settings)) "voyage-3" with
         | Returns provider => Returns (Anthropic provider)
         | Raises e => Raises e
         end, p)
  | OPENAI =>
      if negb (ConversationStore.truthy (openai_api_key settings))
      then raises (BuiltinValueError "openai_api_key required for OpenAI provider")
      else λ p,
        (match OpenAIProvider.init openai_installed
                 (default "" (openai_api_key settings)) "text-embedding-3-small" with
         | Returns provider => Returns (OpenAI provider)
         | Raises e => Raises e
         end, p)
  end.
End Factory.
End Factory.

(** ** Data for the examples of Part II *)

Module Examples.

Definition noon (day : Z) : datetime := mk_datetime 2024 1 day 12 0 0 0 None.

(** A conversation created and last updated at noon of the given day. *)
Definition conv (id source : string) (day : Z) : Conversation.t :=
  Conversation.mk id source (Some "/home/user/project") (noon day) (noon day)
    [Message.mk "user" "Hello" None [];
     Message.mk "assistant" "Hi!" (Some (noon day))
       [[("name", JStr "read_file"); ("args", JObj [("path", JStr "/test")])]]]
    None (Some "A title") [("turns", JInt 2)].

Definition store1 : ConversationStore.t :=
  exec (ConversationStore.save (conv "date-0" "claude_code" 1)) ConversationStore.empty.

Definition store3 : ConversationStore.t :=
  exec (ConversationStore.save (conv "date-2" "other" 3))
    (exec (ConversationStore.save (conv "date-1" "claude_code" 2)) store1).

(** The store of [store1] after its one file was removed from the disk: an
    index row without a file. *)
Definition store_orphan : ConversationStore.t :=
  exec (ConversationStore.unlink (ConversationStore._conversation_path "date-0")) store1.

(** Conversations without messages, created and last updated at an aware
    datetime of 2024-01-01. *)
Definition aware (hour minute offset : Z) : datetime :=
  mk_datetime 2024 1 1 hour minute 0 0 (Some offset).

Definition conv_at (id : string) (d : datetime) : Conversation.t :=
  Conversation.mk id "claude_code" None d d [] None None [].

(** 12:00+02:00 is 10:00 UTC, before 10:30 UTC and 11:00 UTC. *)
Definition store_aware : ConversationStore.t :=
  exec (ConversationStore.save (conv_at "c" (aware 10 30 0)))
    (exec (ConversationStore.save (conv_at "b" (aware 11 0 0)))
       (exec (ConversationStore.save (conv_at "a" (aware 12 0 120))) ConversationStore.empty)).

(** An engine for the examples: the squared Euclidean distance, and filters
    of the form [column = 'value'] on the id, conversation_id and source
    columns, read by comparing the expression with the one the row gives. *)
Definition l2 (u v : list float) : float :=
  foldl (λ acc (ab : float * float), (acc + (ab.1 - ab.2) * (ab.1 - ab.2))%float)
        0%float (zip u v).

Definition source_expr (source : string) : string := "source = '" ++ source ++ "'".

(** The number of single quotes of an expression. *)
Definition quotes (expr : string) : nat :=
  length (filter (λ c, c = "'"%char) (list_ascii_of_string expr)).

(** The example engine refuses an expression that does not have exactly two
    single quotes, as an SQL reader refuses [id = 'a'b']. *)
Definition eq_where (expr : string) : option (VectorStore.row → bool) :=
  if (quotes expr =? 2)%nat
  then Some (λ r,
         String.eqb expr (VectorStore.id_expr (VectorStore.id r)) ||
         String.eqb expr (VectorStore.conversation_expr (VectorStore.conversation_id r)) ||
         String.eqb expr (source_expr (VectorStore.source r)))
  else None.

(** Its vector query is an exhaustive search: it refuses a limit below 1,
    keeps the rows that pass the filter, ranks them by distance and returns
    the nearest, 10 when no limit is set. *)
Definition exhaustive (v : list float) (limit : option Z)
    (test : option (VectorStore.row → bool)) (tbl : VectorStore.t)
    : result (list VectorStore.row) :=
  let n := default 10 limit in
  if n <=? 0 then Raise EngineError
  else
    let candidates :=
      match test with
      | Some f => filter (λ r, f r = true) tbl
      | None => tbl
      end in
    Ok (fst <$> take (Z.to_nat n)
                  (merge_sort VectorStore.nearer
                     ((λ r, (r, l2 v (VectorStore.vector r))) <$> candidates))).

(** A one-dimensional chunk of a conversation. *)
Definition chunk (id : string) (conversation_id : option string) : Document.t :=
  Document.mk id "Chunk"
    (DocumentMetadata.mk "test" (Some "") conversation_id 0 (noon 1) [("custom", JStr "value")])
    None.

Definition table3 : VectorStore.t :=
  exec (VectorStore.add 1 (chunk "b-0" (Some "B")) [0.25%float])
    (exec (VectorStore.add 1 (chunk "a-1" (Some "A")) [0.5%float])
       (exec (VectorStore.add 1 (chunk "a-0" (Some "A")) [0%float]) VectorStore.empty)).

(** Two rows whose distances to the query [[0]] are 0 and 2^-60. *)
Definition table_close : VectorStore.t :=
  exec (VectorStore.add 1 (chunk "near" None) [0x1p-30%float])
    (exec (VectorStore.add 1 (chunk "same" None) [0%float]) VectorStore.empty).

(** Twelve chunks of the conversation ["A"], as twelve calls of [add] leave
    them. *)
Definition table12 : VectorStore.t :=
  (λ i, VectorStore.to_row (chunk i (Some "A")) [0%float])
    <$> ["c00"; "c01"; "c02"; "c03"; "c04"; "c05"; "c06"; "c07"; "c08"; "c09"; "c10"; "c11"].

End Examples.

(** Data for the examples of the laws. *)
Module LawExamples.
Import Examples.

(** A document without empty strings in its optional fields. *)
Definition note : Document.t :=
  Document.mk "note" "Text"
    (DocumentMetadata.mk "test" None (Some "A") 0 (noon 1) [("custom", JStr "value")])
    None.

(** A metric for which every distance is -1. *)
Definition minus_one (u v : list float) : float := (-1)%float.

(** A server that has a one-dimensional embedding for every prompt but the
    empty one, for which the connection fails. *)
Definition server (history : list OllamaProvider.request) (rq : OllamaProvider.request)
    : OllamaProvider.response :=
  if String.eqb (OllamaProvider.json_prompt rq) ""
  then OllamaProvider.ConnectError
  else OllamaProvider.Data (Some [1%float]).

Definition fresh : OllamaProvider.world :=
  OllamaProvider.mk_world
    (OllamaProvider.init "nomic-embed-text" "http://localhost:11434/" 30) [].

End LawExamples.

(* ===================================================================== *)
(** * Part II: lemmas and theorems *)
(* ===================================================================== *)

Local Open Scope list_scope.

(** ** Running a computation *)

Module MonadFacts.

Lemma run_bind {S A B} (m : M S A) (f : A → M S B) s :
  run (m ≫= f) s =
  match run m s with
  | (Ok a, s') => run (f a) s'
  | (Raise e, s') => (Raise e, s')
  end.
Proof. reflexivity. Qed.

Lemma run_ret {S A} (a : A) (s : S) : run (mret a) s = (Ok a, s).
Proof. reflexivity. Qed.

End MonadFacts.

(** ** isoformat *)

Module DatetimeFacts.
Import Datetime.

Lemma N_of_digit n : 0 <= n < 10 -> N_of_ascii (digit n) = (48 + Z.to_N n)%N.
Proof.
  intros H. unfold digit. apply N_ascii_embedding. lia.
Qed.

Lemma digit_val_digit n : 0 <= n < 10 -> digit_val (digit n) = Some n.
Proof.
  intros H. unfold digit_val. rewrite N_of_digit by done.
  replace (Z.of_N (48 + Z.to_N n)) with (48 + n) by lia.
  rewrite !(proj2 (Z.leb_le _ _)) by lia. simpl. f_equal. lia.
Qed.

Lemma compare_digit a b :
  0 <= a < 10 -> 0 <= b < 10 -> Ascii.compare (digit a) (digit b) = (a ?= b).
Proof.
  intros Ha Hb. unfold Ascii.compare. rewrite !N_of_digit by done.
  destruct (N.compare_spec (48 + Z.to_N a) (48 + Z.to_N b)), (Z.compare_spec a b);
    try done; lia.
Qed.

Lemma ascii_compare_refl c : Ascii.compare c c = Eq.
Proof. unfold Ascii.compare. apply N.compare_refl. Qed.

Lemma string_compare_cons c s t :
  String.compare (String c s) (String c t) = String.compare s t.
Proof. simpl. by rewrite ascii_compare_refl. Qed.

Lemma append_cons c s t : (String c s ++ t)%string = String c (s ++ t)%string.
Proof. reflexivity. Qed.

Lemma append_nil t : ("" ++ t)%string = t.
Proof. reflexivity. Qed.

Lemma length_zfill w n : String.length (zfill w n) = w.
Proof. revert n. induction w as [|w IH]; intros n; simpl; [done|]. by rewrite IH. Qed.

Lemma pow10_pos w : 0 < 10 ^ Z.of_nat w.
Proof. apply Z.pow_pos_nonneg; lia. Qed.

Lemma zfill_split w n :
  0 <= n < 10 ^ Z.of_nat (S w) ->
  0 <= n / 10 ^ Z.of_nat w < 10 /\ 0 <= n mod 10 ^ Z.of_nat w < 10 ^ Z.of_nat w.
Proof.
  intros [H0 H1]. pose proof (pow10_pos w) as Hp.
  rewrite Nat2Z.inj_succ, Z.pow_succ_r in H1 by lia.
  split; [|by apply Z.mod_pos_bound].
  split; [by apply Z.div_pos|].
  apply Z.div_lt_upper_bound; lia.
Qed.

Lemma read_digits_zfill w n acc rest :
  0 <= n < 10 ^ Z.of_nat w ->
  read_digits w acc (zfill w n ++ rest) = Some (acc * 10 ^ Z.of_nat w + n, rest).
Proof.
  revert n acc. induction w as [|w IH]; intros n acc Hn.
  - simpl in *. rewrite append_nil. do 2 f_equal. lia.
  - destruct (zfill_split w n Hn) as [Hq Hr].
    cbn [zfill read_digits]. rewrite append_cons, digit_val_digit by done. simpl.
    rewrite IH by done. do 2 f_equal.
    pose proof (Z.div_mod n (10 ^ Z.of_nat w)) as Hdm.
    rewrite Nat2Z.inj_succ, Z.pow_succ_r by lia.
    pose proof (pow10_pos w). nia.
Qed.

Lemma compare_zfill w a b s t :
  0 <= a < 10 ^ Z.of_nat w -> 0 <= b < 10 ^ Z.of_nat w ->
  String.compare (zfill w a ++ s) (zfill w b ++ t) = lex (a ?= b) (String.compare s t).
Proof.
  revert a b. induction w as [|w IH]; intros a b Ha Hb.
  - simpl in *. assert (a = 0) as -> by lia. assert (b = 0) as -> by lia. done.
  - destruct (zfill_split w a Ha) as [Hqa Hra], (zfill_split w b Hb) as [Hqb Hrb].
    cbn [zfill]. rewrite !append_cons. cbn [String.compare]. rewrite compare_digit by done.
    pose proof (pow10_pos w) as Hp.
    pose proof (Z.div_mod a (10 ^ Z.of_nat w)) as Hda.
    pose proof (Z.div_mod b (10 ^ Z.of_nat w)) as Hdb.
    destruct (Z.compare_spec (a / 10 ^ Z.of_nat w) (b / 10 ^ Z.of_nat w)) as [Hq|Hq|Hq].
    + rewrite IH by done.
      destruct (Z.compare_spec (a mod 10 ^ Z.of_nat w) (b mod 10 ^ Z.of_nat w)) as [Hr|Hr|Hr];
        destruct (Z.compare_spec a b); simpl; try done; nia.
    + destruct (Z.compare_spec a b); simpl; try done; nia.
    + destruct (Z.compare_spec a b); simpl; try done; nia.
Qed.

Lemma append_nil_r s : (s ++ "")%string = s.
Proof. induction s as [|c s IH]; [done|]. by rewrite append_cons, IH. Qed.

Lemma expect_cons c rest : expect c (String c "" ++ rest) = Some rest.
Proof. rewrite append_cons, append_nil. simpl. by rewrite Ascii.eqb_refl. Qed.

Lemma days_in_month_le y m : days_in_month y m <= 31.
Proof. unfold days_in_month. repeat case_match; lia. Qed.

(** The ranges of a datetime, as inequalities. *)
Lemma datetime_ok_ranges d :
  datetime_ok d ->
  1 <= year d <= 9999 /\ 1 <= month d <= 12 /\ 1 <= day d <= 31 /\
  0 <= hour d <= 23 /\ 0 <= minute d <= 59 /\ 0 <= second d <= 59 /\
  0 <= microsecond d <= 999999.
Proof.
  unfold datetime_ok, datetime_okb. rewrite !andb_true_iff, !Z.leb_le.
  pose proof (days_in_month_le (year d) (month d)). lia.
Qed.

Lemma datetime_ok_offset d : datetime_ok d -> offset_okb (tzinfo d) = true.
Proof. unfold datetime_ok, datetime_okb. rewrite !andb_true_iff. tauto. Qed.

Lemma read_fraction_fraction us rest :
  0 <= us <= 999999 -> (∀ r, rest ≠ String "." r) ->
  read_fraction (fraction us ++ rest) = Some (us, rest).
Proof.
  intros H Hrest. unfold fraction. destruct (Z.eqb_spec us 0) as [->|Hne].
  - rewrite append_nil. destruct rest as [|c r]; [done|]. cbn [read_fraction].
    destruct (Ascii.eqb_spec c ".") as [->|_]; [by destruct (Hrest r)|done].
  - rewrite !append_cons, append_nil. cbn [read_fraction].
    rewrite Ascii.eqb_refl.
    rewrite read_digits_zfill by (simpl; lia). simpl. do 2 f_equal.
Qed.

Lemma utcoffset_no_dot tz r : utcoffset tz ≠ String "." r.
Proof.
  destruct tz as [o|]; [|done]. unfold utcoffset.
  destruct (o <? 0); rewrite append_cons; intros [=].
Qed.

Lemma read_offset_utcoffset tz :
  offset_okb tz = true -> read_offset (utcoffset tz) = Some tz.
Proof.
  destruct tz as [o|]; [|done]. unfold offset_okb, utcoffset.
  rewrite andb_true_iff, !Z.ltb_lt. intros [Hlo Hhi].
  assert (0 <= Z.abs o / 60 < 10 ^ Z.of_nat 2) as Hh.
  { change (10 ^ Z.of_nat 2) with 100. split; [apply Z.div_pos; lia|].
    apply Z.div_lt_upper_bound; lia. }
  assert (0 <= Z.abs o mod 60 < 10 ^ Z.of_nat 2) as Hm.
  { change (10 ^ Z.of_nat 2) with 100. pose proof (Z.mod_pos_bound (Z.abs o) 60). lia. }
  assert (Z.abs o / 60 <= 23) as Hh23.
  { assert (Z.abs o / 60 < 24); [apply Z.div_lt_upper_bound; lia|lia]. }
  assert (Z.abs o mod 60 <= 59) as Hm59.
  { pose proof (Z.mod_pos_bound (Z.abs o) 60). lia. }
  pose proof (Z.div_mod (Z.abs o) 60 ltac:(lia)) as Hdm.
  destruct (Z.ltb_spec o 0) as [Hneg|Hpos]; rewrite append_cons, append_nil;
    cbn [read_offset Ascii.eqb Bool.eqb andb mbind option_bind];
    rewrite read_digits_zfill by done; cbn [mbind option_bind];
    rewrite expect_cons; cbn [mbind option_bind];
    rewrite <- (append_nil_r (zfill 2 (Z.abs o mod 60))), read_digits_zfill by done;
    cbn [mbind option_bind];
    rewrite !Z.mul_0_l, !Z.add_0_l;
    destruct (Z.leb_spec (Z.abs o / 60) 23); try lia;
    destruct (Z.leb_spec (Z.abs o mod 60) 59); try lia;
    cbn [andb]; do 2 f_equal; lia.
Qed.

Lemma compare_fraction a b :
  0 <= a <= 999999 -> 0 <= b <= 999999 ->
  String.compare (fraction a) (fraction b) = (a ?= b).
Proof.
  intros Ha Hb. unfold fraction.
  destruct (Z.eqb_spec a 0) as [->|Hna], (Z.eqb_spec b 0) as [->|Hnb].
  - done.
  - rewrite append_cons. cbn [String.compare]. destruct (Z.compare_spec 0 b); try done; lia.
  - rewrite append_cons. cbn [String.compare]. destruct (Z.compare_spec a 0); try done; lia.
  - rewrite !append_cons, !append_nil, string_compare_cons.
    rewrite <- (append_nil_r (zfill 6 a)), <- (append_nil_r (zfill 6 b)).
    rewrite compare_zfill by (simpl; lia). simpl. by destruct (a ?= b).
Qed.

Lemma isoformat_unfold d :
  isoformat d =
  (zfill 4 (year d) ++ String "-" "" ++ zfill 2 (month d) ++ String "-" "" ++
   zfill 2 (day d) ++ String "T" "" ++ zfill 2 (hour d) ++ String ":" "" ++
   zfill 2 (minute d) ++ String ":" "" ++ zfill 2 (second d) ++
   fraction (microsecond d) ++ utcoffset (tzinfo d))%string.
Proof. reflexivity. Qed.

(** Validation reads back what [isoformat] wrote. *)
Lemma fromisoformat_isoformat d :
  datetime_ok d -> fromisoformat (isoformat d) = Some d.
Proof.
  intros Hok. pose proof (datetime_ok_ranges d Hok) as (Hy & Hmo & Hd & Hh & Hmi & Hs & Hus).
  pose proof (datetime_ok_offset d Hok) as Htz.
  rewrite isoformat_unfold. unfold fromisoformat.
  rewrite read_digits_zfill by (simpl; lia). cbn [mbind option_bind].
  rewrite expect_cons. cbn [mbind option_bind].
  rewrite read_digits_zfill by (simpl; lia). cbn [mbind option_bind].
  rewrite expect_cons. cbn [mbind option_bind].
  rewrite read_digits_zfill by (simpl; lia). cbn [mbind option_bind].
  rewrite expect_cons. cbn [mbind option_bind].
  rewrite read_digits_zfill by (simpl; lia). cbn [mbind option_bind].
  rewrite expect_cons. cbn [mbind option_bind].
  rewrite read_digits_zfill by (simpl; lia). cbn [mbind option_bind].
  rewrite expect_cons. cbn [mbind option_bind].
  rewrite read_digits_zfill by (simpl; lia). cbn [mbind option_bind].
  rewrite read_fraction_fraction by (done || apply utcoffset_no_dot).
  cbn [mbind option_bind].
  rewrite read_offset_utcoffset by done. cbn [mbind option_bind].
  rewrite !Z.mul_0_l, !Z.add_0_l. destruct d; simpl in *.
  unfold datetime_ok in Hok. simpl in Hok. by rewrite Hok.
Qed.

Lemma isoformat_inj a b :
  datetime_ok a -> datetime_ok b -> isoformat a = isoformat b -> a = b.
Proof.
  intros Ha Hb Heq. apply (inj Some).
  by rewrite <- (fromisoformat_isoformat a), <- (fromisoformat_isoformat b), Heq.
Qed.

(** The byte order of the [isoformat] strings of naive datetimes is the
    order of the datetimes. *)
Lemma compare_isoformat a b :
  datetime_ok a -> datetime_ok b -> naive a -> naive b ->
  String.compare (isoformat a) (isoformat b) = compare_fields a b.
Proof.
  intros Ha Hb Hna Hnb.
  pose proof (datetime_ok_ranges a Ha) as (? & ? & ? & ? & ? & ? & ?).
  pose proof (datetime_ok_ranges b Hb) as (? & ? & ? & ? & ? & ? & ?).
  unfold naive in Hna, Hnb.
  rewrite !isoformat_unfold, Hna, Hnb. cbn [utcoffset]. rewrite !append_nil_r.
  rewrite !append_cons, !append_nil. unfold compare_fields.
  rewrite compare_zfill by (simpl; lia). f_equal. rewrite string_compare_cons.
  rewrite compare_zfill by (simpl; lia). f_equal. rewrite string_compare_cons.
  rewrite compare_zfill by (simpl; lia). f_equal. rewrite string_compare_cons.
  rewrite compare_zfill by (simpl; lia). f_equal. rewrite string_compare_cons.
  rewrite compare_zfill by (simpl; lia). f_equal. rewrite string_compare_cons.
  rewrite compare_zfill by (simpl; lia). f_equal.
  by apply compare_fraction.
Qed.

Lemma leb_isoformat a b :
  datetime_ok a -> datetime_ok b -> naive a -> naive b ->
  String.leb (isoformat a) (isoformat b) = leb a b.
Proof.
  intros Ha Hb Hna Hnb. unfold String.leb, leb, compare.
  rewrite compare_isoformat by done. unfold naive in Hna, Hnb. by rewrite Hna, Hnb.
Qed.

End DatetimeFacts.

(** ** The JSON codec of the models *)

Module CodecFacts.
Import DatetimeFacts.

Ltac lookup_fields := cbn [field String.eqb Ascii.eqb Bool.eqb mbind option_bind as_obj as_str].

Lemma as_datetime_dump d :
  Datetime.datetime_ok d -> as_datetime (dump_datetime d) = Some d.
Proof. intros H. unfold as_datetime, dump_datetime. simpl. by apply fromisoformat_isoformat. Qed.

Lemma as_optional_datetime_dump o :
  option_ok Datetime.datetime_ok o ->
  as_optional as_datetime (dump_optional dump_datetime o) = Some o.
Proof.
  destruct o as [d|]; simpl; [|done]. intros H.
  change (JStr (Datetime.isoformat d)) with (dump_datetime d).
  by rewrite as_datetime_dump.
Qed.

Lemma as_optional_str_dump o : as_optional as_str (dump_optional JStr o) = Some o.
Proof. by destruct o. Qed.

Lemma as_list_obj_dump (l : list dict) : as_list as_obj (JArr (JObj <$> l)) = Some l.
Proof. simpl. by apply mapM_fmap_Some. Qed.

Lemma message_roundtrip m :
  message_ok m -> Message.model_validate (Message.model_dump m) = Some m.
Proof.
  intros Hm. destruct m as [r c ts tc]. unfold message_ok in Hm. simpl in Hm.
  unfold Message.model_validate, Message.model_dump. cbn [Message.role Message.content Message.timestamp Message.tool_calls].
  lookup_fields.
  rewrite as_optional_datetime_dump by done. cbn [mbind option_bind].
  rewrite as_list_obj_dump. done.
Qed.

Lemma conversation_roundtrip c :
  conversation_ok c ->
  Conversation.model_validate_json (Conversation.model_dump_json c) = Some c.
Proof.
  intros (Hca & Hua & Hia & Hms). destruct c as [i src pp ca ua ms ia ti ex]. simpl in *.
  unfold Conversation.model_validate_json, Conversation.model_dump_json.
  cbn [Conversation.id Conversation.source Conversation.project_path Conversation.created_at
       Conversation.updated_at Conversation.messages Conversation.indexed_at
       Conversation.title Conversation.extra].
  lookup_fields.
  rewrite as_optional_str_dump. cbn [mbind option_bind].
  rewrite !as_datetime_dump by done. cbn [mbind option_bind].
  assert (as_list Message.model_validate (JArr (Message.model_dump <$> ms)) = Some ms) as ->.
  { simpl. apply mapM_fmap_Forall_Some. eapply Forall_impl; [done|]. apply message_roundtrip. }
  cbn [mbind option_bind].
  rewrite as_optional_datetime_dump by done. cbn [mbind option_bind].
  rewrite as_optional_str_dump. done.
Qed.

End CodecFacts.

(** ** Paths of the conversation files *)

Module PathFacts.
Import DatetimeFacts ConversationStore.

Lemma chars_app s t :
  list_ascii_of_string (s ++ t) = (list_ascii_of_string s ++ list_ascii_of_string t)%list.
Proof. induction s as [|c s IH]; [done|]. rewrite append_cons. simpl. by rewrite IH. Qed.

Lemma chars_inj s t : list_ascii_of_string s = list_ascii_of_string t -> s = t.
Proof.
  intros H. by rewrite <- (string_of_list_ascii_of_string s), H, string_of_list_ascii_of_string.
Qed.

Lemma length_chars s : length (list_ascii_of_string s) = String.length s.
Proof. induction s; simpl; congruence. Qed.

(** Two names with different extensions are different. *)
Lemma tmp_ne_json s t : (s ++ ".tmp")%string ≠ (t ++ ".json")%string.
Proof.
  intros H. apply (f_equal list_ascii_of_string) in H. rewrite !chars_app in H.
  change (list_ascii_of_string ".tmp") with ((list_ascii_of_string ".tm") ++ ["p"%char])%list in H.
  change (list_ascii_of_string ".json") with ((list_ascii_of_string ".jso") ++ ["n"%char])%list in H.
  rewrite !(assoc_L (++)%list) in H. apply app_inj_2 in H as [_ H]; [|done]. discriminate.
Qed.

Lemma append_inv_tail s t u : (s ++ u)%string = (t ++ u)%string -> s = t.
Proof.
  intros H. apply chars_inj. apply (f_equal list_ascii_of_string) in H.
  rewrite !chars_app in H. by apply app_inv_tail in H.
Qed.

Lemma length_substring_0 n s :
  (n <= String.length s)%nat -> String.length (substring 0 n s) = n.
Proof.
  revert s. induction n as [|n IH]; intros [|c s] H; simpl in *; try done; try lia.
  rewrite IH; lia.
Qed.

Lemma length_shard id : String.length (shard id) = 2%nat.
Proof.
  unfold shard. destruct (Z.leb_spec 2 (Z.of_nat (String.length id))); [|done].
  apply length_substring_0. lia.
Qed.

Lemma render_conversation_path id :
  Path.render (_conversation_path id) = (shard id ++ "/" ++ id ++ ".json")%string.
Proof. reflexivity. Qed.

(** Different ids have different files. *)
Lemma conversation_path_inj id1 id2 :
  Path.render (_conversation_path id1) = Path.render (_conversation_path id2) -> id1 = id2.
Proof.
  rewrite !render_conversation_path. intros H.
  apply (f_equal list_ascii_of_string) in H. rewrite !chars_app in H.
  apply app_inj_1 in H as [_ H]; [|by rewrite !length_chars, !length_shard].
  apply app_inj_1 in H as [_ H]; [|done].
  rewrite <- !chars_app in H. apply chars_inj in H. by apply append_inv_tail in H.
Qed.

(** The temporary file of a save is no conversation file. *)
Lemma temp_path_ne id1 id2 :
  Path.render (Path.with_suffix (_conversation_path id1) ".tmp")
  ≠ Path.render (_conversation_path id2).
Proof.
  unfold Path.with_suffix, Path.render. cbn [Path.parent Path.name _conversation_path].
  set (stem := match Path.suffix _ with "" => _ | _ => _ end).
  intros H.
  assert (∀ a b c d : string, (a ++ b ++ c ++ d)%string = ((a ++ b ++ c) ++ d)%string) as Hassoc.
  { intros a b c d. apply chars_inj. rewrite !chars_app. by rewrite !(assoc_L (++)%list). }
  rewrite !Hassoc in H. by apply tmp_ne_json in H.
Qed.

End PathFacts.

(** ** The conversation store *)

Module ConversationStoreFacts.
Import DatetimeFacts CodecFacts PathFacts MonadFacts ConversationStore.

Abbreviation path id := (Path.render (_conversation_path id)).
Abbreviation temp id := (Path.render (Path.with_suffix (_conversation_path id) ".tmp")).

(** *** What each operation does to a store *)

Lemma run_get id s :
  run (get id) s =
  (match files s !! path id with
   | None => Ok None
   | Some content =>
       match Conversation.model_validate_json content with
       | Some c => Ok (Some c)
       | None => Raise ValidationError
       end
   end, s).
Proof.
  unfold run, get, exists_, read_text, gets, _ensure_initialized.
  unfold mbind, M_bind, mret, M_ret; cbn beta iota.
  destruct (files s !! path id) as [content|] eqn:E.
  - rewrite bool_decide_eq_true_2 by eauto. cbn. rewrite E.
    by destruct (Conversation.model_validate_json content).
  - rewrite bool_decide_eq_false_2 by (by intros [? ?]). done.
Qed.

Lemma run_save c s :
  run (save c) s =
  (Ok tt,
   mk (<[path (Conversation.id c) := Conversation.model_dump_json c]>
         (base.delete (temp (Conversation.id c)) (files s)))
      (insert_or_replace (index_row c) (index s))).
Proof.
  unfold run, save, write_text, rename, execute, modify, set_files, set_index,
    _ensure_initialized.
  unfold mbind, M_bind, mret, M_ret; cbn beta iota; cbn [files index].
  rewrite lookup_insert_eq. cbn [files index]. by rewrite delete_insert_eq.
Qed.

Lemma run_delete id s :
  run (delete id) s =
  (Ok (bool_decide (is_Some (files s !! path id))),
   mk (base.delete (path id) (files s)) (delete_where_id id (index s))).
Proof.
  unfold run, delete, exists_, unlink, execute, modify, gets, set_files, set_index,
    _ensure_initialized.
  unfold mbind, M_bind, mret, M_ret; cbn beta iota.
  destruct (files s !! path id) as [content|] eqn:E.
  - rewrite bool_decide_eq_true_2 by eauto. cbn. by rewrite E.
  - rewrite bool_decide_eq_false_2 by (by intros [? ?]). cbn.
    by rewrite delete_id.
Qed.

Lemma run_get_stats s : run get_stats s = (Ok (count_stats (index s)), s).
Proof. reflexivity. Qed.

Lemma exec_save c s :
  exec (save c) s =
  mk (<[path (Conversation.id c) := Conversation.model_dump_json c]>
        (base.delete (temp (Conversation.id c)) (files s)))
     (insert_or_replace (index_row c) (index s)).
Proof. unfold exec. fold (run (save c) s). by rewrite run_save. Qed.

(** The file of a conversation, read back. *)
Lemma get_stored id c s :
  conversation_ok c ->
  files s !! path id = Some (Conversation.model_dump_json c) ->
  run (get id) s = (Ok (Some c), s).
Proof. intros Hok Hf. by rewrite run_get, Hf, conversation_roundtrip. Qed.

Lemma files_save_other c s id' :
  id' ≠ Conversation.id c ->
  files (exec (save c) s) !! path id' = files s !! path id'.
Proof.
  intros Hne. rewrite exec_save. cbn [files].
  rewrite lookup_insert_ne by (intros H; by apply conversation_path_inj in H).
  rewrite lookup_delete_ne by apply temp_path_ne. done.
Qed.

Lemma files_save_same c s :
  files (exec (save c) s) !! path (Conversation.id c) = Some (Conversation.model_dump_json c).
Proof. rewrite exec_save. cbn [files]. by rewrite lookup_insert_eq. Qed.

(** *** The index statements *)

Lemma elem_of_insert_or_replace r r0 tbl :
  r ∈ insert_or_replace r0 tbl ↔ (r ∈ tbl ∧ row_id r ≠ row_id r0) ∨ r = r0.
Proof.
  unfold insert_or_replace. rewrite elem_of_app, list_elem_of_filter, list_elem_of_singleton.
  tauto.
Qed.

Lemma NoDup_fmap_filter {A B} (f : A → B) (P : A → Prop) `{!∀ x, Decision (P x)} l :
  NoDup (f <$> l) -> NoDup (f <$> filter P l).
Proof.
  induction l as [|x l IH]; [done|]. rewrite fmap_cons, NoDup_cons. intros [Hx Hl].
  rewrite filter_cons. destruct (decide (P x)); [|by auto].
  rewrite fmap_cons, NoDup_cons. split; [|by auto].
  intros Hin. apply Hx. apply list_elem_of_fmap in Hin as (y & -> & Hy).
  apply list_elem_of_filter in Hy as [_ Hy]. by apply list_elem_of_fmap_2.
Qed.

Lemma NoDup_insert_or_replace r0 tbl :
  NoDup (row_id <$> tbl) -> NoDup (row_id <$> insert_or_replace r0 tbl).
Proof.
  intros Hnd. unfold insert_or_replace. rewrite fmap_app. apply NoDup_app. split_and!.
  - by apply NoDup_fmap_filter.
  - intros i Hi Hi'. apply list_elem_of_fmap in Hi as (r & -> & Hr).
    apply list_elem_of_filter in Hr as [Hne _]. simpl in Hi'.
    apply list_elem_of_singleton in Hi'. done.
  - simpl. apply NoDup_singleton.
Qed.

(** *** The invariant *)

Lemma store_ok_empty : store_ok empty.
Proof.
  split_and!.
  - simpl. constructor.
  - intros r Hr. simpl in Hr. by apply elem_of_nil in Hr.
  - intros p [j Hj]. simpl in Hj. by rewrite lookup_empty in Hj.
Qed.

Lemma store_ok_save c s :
  conversation_ok c -> store_ok s -> store_ok (exec (save c) s).
Proof.
  intros Hc (Hnd & Hrows & Hfiles). split_and!.
  - rewrite exec_save. cbn [index]. by apply NoDup_insert_or_replace.
  - intros r Hr. rewrite exec_save in Hr. cbn [index] in Hr.
    apply elem_of_insert_or_replace in Hr as [[Hr Hne]| ->].
    + destruct (Hrows r Hr) as (c' & Hc' & <- & Hf). exists c'. split_and!; [done..|].
      rewrite files_save_other by done. done.
    + exists c. split_and!; [done..|]. apply files_save_same.
  - intros p Hp. rewrite exec_save in Hp |- *. cbn [files index] in *.
    destruct (decide (p = path (Conversation.id c))) as [->|Hne].
    + exists (index_row c). split; [|done]. apply elem_of_insert_or_replace. by right.
    + rewrite lookup_insert_ne in Hp by done.
      assert (is_Some (files s !! p)) as Hp'.
      { destruct Hp as [j Hj]. apply lookup_delete_Some in Hj as [_ Hj]. eauto. }
      destruct (Hfiles p Hp') as (r & Hr & ->). exists r. split; [|done].
      apply elem_of_insert_or_replace. left. split; [done|].
      intros Heq. apply Hne. by rewrite Heq.
Qed.

Lemma store_ok_delete id s : store_ok s -> store_ok (exec (delete id) s).
Proof.
  intros (Hnd & Hrows & Hfiles). unfold exec. fold (run (delete id) s). rewrite run_delete.
  cbn [snd]. split_and!; cbn [files index].
  - by apply NoDup_fmap_filter.
  - intros r Hr. apply list_elem_of_filter in Hr as [Hne Hr].
    destruct (Hrows r Hr) as (c & Hc & <- & Hf). exists c. split_and!; [done..|].
    rewrite lookup_delete_ne; [done|]. intros H. by apply conversation_path_inj in H.
  - intros p [j Hj]. apply lookup_delete_Some in Hj as [Hne Hj].
    destruct (Hfiles p) as (r & Hr & ->); [by eauto|]. exists r. split; [|done].
    apply list_elem_of_filter. split; [|done]. intros Heq. apply Hne. by rewrite Heq.
Qed.

(** In a well-formed store, what [get] returns is the conversation of the
    row with that id. *)
Lemma get_row s id c :
  store_ok s -> run (get id) s = (Ok (Some c), s) ->
  conversation_ok c ∧ Conversation.id c = id ∧ index_row c ∈ index s ∧
  files s !! path id = Some (Conversation.model_dump_json c).
Proof.
  intros (Hnd & Hrows & Hfiles) Hget. rewrite run_get in Hget.
  destruct (files s !! path id) as [j|] eqn:Hj; [|done].
  destruct (Hfiles (path id)) as (r & Hr & Hp); [by eauto|].
  apply conversation_path_inj in Hp as ->.
  destruct (Hrows r Hr) as (c' & Hc' & <- & Hf).
  rewrite Hj in Hf. injection Hf as ->.
  rewrite conversation_roundtrip in Hget by done. injection Hget as <-.
  done.
Qed.

Lemma row_get s r :
  store_ok s -> r ∈ index s ->
  ∃ c, conversation_ok c ∧ index_row c = r ∧ run (get (row_id r)) s = (Ok (Some c), s).
Proof.
  intros (Hnd & Hrows & Hfiles) Hr. destruct (Hrows r Hr) as (c & Hc & <- & Hf).
  exists c. split_and!; [done..|]. by apply get_stored.
Qed.

(** *** ORDER BY *)

#[local] Instance desc_by_trans key : Transitive (desc_by key).
Proof. intros a b c Hab Hbc. unfold desc_by in *. by etrans. Qed.

#[local] Instance desc_by_total key : Total (desc_by key).
Proof. intros a b. unfold desc_by. destruct (total String.le (key a) (key b)); auto. Qed.

Lemma order_by_desc_perm key tbl : order_by_desc key tbl ≡ₚ tbl.
Proof. apply merge_sort_Permutation. Qed.

Lemma order_by_desc_sorted key tbl : StronglySorted (desc_by key) (order_by_desc key tbl).
Proof. apply (StronglySorted_merge_sort _). Qed.

Lemma limit_offset_nat (limit offset : nat) rows :
  limit_offset (Z.of_nat limit) (Z.of_nat offset) rows = take limit (drop offset rows).
Proof.
  unfold limit_offset. rewrite (proj2 (Z.ltb_ge _ _)) by lia. by rewrite !Nat2Z.id.
Qed.

(** *** Reading the selected rows back *)

Lemma run_hydrate s rows :
  store_ok s -> Forall (λ r, r ∈ index s) rows ->
  ∃ cs, run (hydrate (row_id <$> rows)) s = (Ok cs, s) ∧ Forall2 (row_of s) rows cs.
Proof.
  intros Hs. induction 1 as [|r rows Hr _ (cs & Hrun & Hcs)].
  - exists []. split; [done|constructor].
  - destruct (row_get s r Hs Hr) as (c & Hc & Hrow & Hget).
    exists (c :: cs). split.
    + rewrite fmap_cons. cbn [hydrate]. rewrite run_bind, Hget, run_bind, Hrun. done.
    + constructor; [|done]. split_and!; [done..|]. by rewrite <- Hrow in Hget.
Qed.

Lemma row_of_ids s rows cs :
  Forall2 (row_of s) rows cs -> Conversation.id <$> cs = row_id <$> rows.
Proof.
  induction 1 as [|r c rows cs (_ & <- & _) _ IH]; [done|].
  rewrite !fmap_cons. by f_equal.
Qed.

Lemma row_of_elem s rows cs c :
  Forall2 (row_of s) rows cs -> c ∈ cs -> ∃ r, r ∈ rows ∧ row_of s r c.
Proof.
  intros H Hc. apply list_elem_of_lookup in Hc as [i Hi].
  destruct (Forall2_lookup_r _ _ _ _ _ H Hi) as (r & Hr & Hrc).
  exists r. split; [|done]. by eapply list_elem_of_lookup_2.
Qed.

Lemma row_of_elem_l s rows cs r :
  Forall2 (row_of s) rows cs -> r ∈ rows -> ∃ c, c ∈ cs ∧ row_of s r c.
Proof.
  intros H Hr. apply list_elem_of_lookup in Hr as [i Hi].
  destruct (Forall2_lookup_l _ _ _ _ _ H Hi) as (c & Hc & Hrc).
  exists c. split; [|done]. by eapply list_elem_of_lookup_2.
Qed.

(** The order of the rows by a timestamp column is the order of the
    conversations by that timestamp. *)
Lemma row_of_sorted s (col : row → string) (key : Conversation.t → datetime) rows cs :
  (∀ c, col (index_row c) = Datetime.isoformat (key c)) ->
  Forall2 (row_of s) rows cs ->
  StronglySorted (desc_by col) rows -> StronglySorted (newest_text_first key) cs.
Proof.
  intros Hcol. induction 1 as [|r c rows cs (Hc & <- & _) Hrest IH].
  - constructor.
  - intros Hsorted. apply StronglySorted_inv in Hsorted as [Hs Hall].
    constructor; [by auto|].
    apply Forall_forall. intros c' Hc'.
    destruct (row_of_elem _ _ _ _ Hrest Hc') as (r' & Hr' & Hc'' & <- & _).
    rewrite Forall_forall in Hall. specialize (Hall _ Hr').
    unfold desc_by, String.le in Hall. rewrite !Hcol in Hall.
    unfold newest_text_first. by apply Is_true_true in Hall.
Qed.

(** For naive datetimes the order of the texts is the order of the
    datetimes. *)
Lemma newest_text_naive (key : Conversation.t → datetime) a b :
  Datetime.datetime_ok (key a) -> Datetime.datetime_ok (key b) ->
  Datetime.naive (key a) -> Datetime.naive (key b) ->
  newest_text_first key a b ↔ newest_first key a b.
Proof.
  intros. unfold newest_text_first, newest_first. by rewrite leb_isoformat.
Qed.

Lemma sorted_naive (key : Conversation.t → datetime) cs :
  Forall (λ c, Datetime.datetime_ok (key c) ∧ Datetime.naive (key c)) cs ->
  StronglySorted (newest_text_first key) cs -> StronglySorted (newest_first key) cs.
Proof.
  intros Hcs Hsorted. induction Hsorted as [|c cs Hsorted IH Hall]; [constructor|].
  apply Forall_cons in Hcs as [[Hok Hn] Hcs]. constructor; [by apply IH|].
  rewrite Forall_forall in Hall, Hcs. apply Forall_forall. intros c' Hc'.
  destruct (Hcs c' Hc') as [Hok' Hn']. apply newest_text_naive; auto.
Qed.

(** *** list_all *)

Lemma run_list_all s (limit offset : nat) :
  store_ok s ->
  ∃ cs, run (list_all (Z.of_nat limit) (Z.of_nat offset)) s = (Ok cs, s) ∧
        Forall2 (row_of s)
          (take limit (drop offset (order_by_desc row_updated_at (index s)))) cs.
Proof.
  intros Hs. unfold list_all, _ensure_initialized. rewrite run_bind, run_ret, run_bind. unfold gets at 1. cbn [run].
  rewrite limit_offset_nat. apply run_hydrate; [done|].
  apply Forall_forall. intros r Hr.
  apply subseteq_take, subseteq_drop in Hr.
  by rewrite order_by_desc_perm in Hr.
Qed.

(** Whatever is selected from a sorted index, the conversations that were
    not selected are not newer than the selected ones, provided the selection
    is a prefix of the sorted rows. *)
Lemma prefix_newest s (col : row → string) (key : Conversation.t → datetime) tbl n cs id c' :
  store_ok s ->
  (∀ c, col (index_row c) = Datetime.isoformat (key c)) ->
  Forall2 (row_of s) (take n (order_by_desc col tbl)) cs ->
  run (get id) s = (Ok (Some c'), s) ->
  index_row c' ∈ tbl ->
  c' ∉ cs ->
  ∀ c, c ∈ cs -> newest_text_first key c c'.
Proof.
  intros Hs Hcol Hcs Hget Hin Hnot c Hc.
  destruct (get_row s id c' Hs Hget) as (Hc'ok & Hid & _ & _).
  set (sorted := order_by_desc col tbl) in *.
  assert (index_row c' ∈ sorted) as Hr' by (by unfold sorted; rewrite order_by_desc_perm).
  rewrite <- (take_drop n sorted) in Hr'. apply elem_of_app in Hr' as [Hr'|Hr'].
  - destruct (row_of_elem_l _ _ _ _ Hcs Hr') as (c'' & Hc'' & _ & Heq & Hget'').
    assert (Conversation.id c'' = id) as Hid''.
    { rewrite <- Hid. by apply (f_equal row_id) in Heq. }
    rewrite Hid'' in Hget''. rewrite Hget in Hget''. injection Hget'' as ->. done.
  - destruct (row_of_elem _ _ _ _ Hcs Hc) as (r & Hr & Hcok & <- & _).
    pose proof (order_by_desc_sorted col tbl) as Hsorted. fold sorted in Hsorted.
    rewrite <- (take_drop n sorted) in Hsorted.
    pose proof (StronglySorted_app_1_elem_of _ _ _ _ _ Hsorted Hr Hr') as Hle.
    unfold desc_by, String.le in Hle. rewrite !Hcol in Hle.
    unfold newest_text_first. by apply Is_true_true in Hle.
Qed.

Lemma updated_at_ok c : conversation_ok c -> Datetime.datetime_ok (Conversation.updated_at c).
Proof. by intros (_ & ? & _). Qed.

Lemma created_at_ok c : conversation_ok c -> Datetime.datetime_ok (Conversation.created_at c).
Proof. by intros (? & _). Qed.


(** *** save, get and delete *)

(** C1. For every valid conversation [c] and every store, [save(c)] succeeds
    and [get(c.id)] then returns a conversation equal to [c] in every field,
    the messages in their order and the tool-call payloads included. *)
Theorem save_get_roundtrip (s : t) (c : Conversation.t) :
  conversation_ok c ->
  run (save c;; get (Conversation.id c)) s = (Ok (Some c), exec (save c) s).
Proof.
  intros Hc. rewrite run_bind, run_save. fold (run (save c) s).
  rewrite <- exec_save. apply get_stored; [done|]. apply files_save_same.
Qed.

(** C5. For every id, [delete(id)] removes the shard file when it is there,
    deletes the index row in either case and returns [True] exactly when the
    file existed; afterwards [get(id)] returns not-found and [get_stats()]
    counts the rows of the other ids only. *)
Theorem delete_complete (s : t) (id : string) :
  ∃ existed s',
    run (delete id) s = (Ok existed, s') ∧
    (existed = true ↔ is_Some (files s !! path id)) ∧
    files s' = base.delete (path id) (files s) ∧
    index s' = filter (λ r, row_id r ≠ id) (index s) ∧
    run (get id) s' = (Ok None, s') ∧
    run get_stats s' = (Ok (count_stats (filter (λ r, row_id r ≠ id) (index s))), s').
Proof.
  eexists _, _. split; [apply run_delete|]. split_and!.
  - apply bool_decide_eq_true.
  - done.
  - done.
  - rewrite run_get. cbn [files]. by rewrite lookup_delete_eq.
  - done.
Qed.

(** *** list_by_date_range *)

Lemma truthy_Some src : truthy (Some src) = true ↔ src ≠ "".
Proof.
  unfold truthy. rewrite negb_true_iff. split.
  - intros H ->. done.
  - intros H. by apply String.eqb_neq.
Qed.

(** The WHERE clause on the row of a conversation is the query's condition on
    the texts of the conversation. *)
Lemma in_date_range_match start_ end_ source c :
  in_date_range (Datetime.isoformat start_) (Datetime.isoformat end_) source (index_row c) = true
  ↔ date_range_text_match start_ end_ source c.
Proof.
  unfold in_date_range, date_range_text_match. cbn [row_created_at row_source index_row].
  rewrite !andb_true_iff.
  split; intros ((H1 & H2) & H3) || intros (H1 & H2 & H3); split_and!; try done.
  - intros src -> Hne. rewrite (proj2 (truthy_Some src) Hne) in H3.
    apply bool_decide_eq_true in H3. by injection H3.
  - destruct (truthy source) eqn:Ht; [|done]. apply bool_decide_eq_true.
    destruct source as [src|]; [|done]. apply truthy_Some in Ht. by rewrite (H3 src).
Qed.

(** For naive datetimes the condition on the texts is the condition on the
    datetimes. *)
Lemma date_range_naive start_ end_ source c :
  Datetime.datetime_ok start_ -> Datetime.datetime_ok end_ ->
  Datetime.naive start_ -> Datetime.naive end_ ->
  conversation_ok c -> Datetime.naive (Conversation.created_at c) ->
  date_range_text_match start_ end_ source c ↔ date_range_match start_ end_ source c.
Proof.
  intros Hs He Hns Hne Hc Hnc. pose proof (created_at_ok c Hc) as Hca.
  unfold date_range_text_match, date_range_match. by rewrite !leb_isoformat.
Qed.

Lemma limit_offset_cap limit (rows : list row) :
  limit_offset limit 0 rows = take (cap limit rows) rows.
Proof.
  unfold limit_offset, cap. cbn [Z.to_nat drop].
  destruct (limit <? 0); [by rewrite take_ge|done].
Qed.

Lemma cap_nonneg limit (rows : list row) : 0 <= limit -> cap limit rows = Z.to_nat limit.
Proof. intros H. unfold cap. by rewrite (proj2 (Z.ltb_ge _ _)). Qed.

Lemma cap_left_out limit (rows : list row) x :
  x ∈ rows -> x ∉ take (cap limit rows) rows ->
  0 <= limit ∧ Z.of_nat (length (take (cap limit rows) rows)) = limit.
Proof.
  intros Hin Hnot. unfold cap in *. destruct (Z.ltb_spec limit 0) as [Hneg|Hpos].
  - by rewrite take_ge in Hnot.
  - split; [done|].
    destruct (decide (Z.to_nat limit ≤ length rows)%nat).
    + rewrite length_take_le by done. lia.
    + rewrite take_ge in Hnot by lia. done.
Qed.

Lemma take_not_elem {A} (l : list A) n x : x ∈ l -> x ∉ take n l -> length (take n l) = n.
Proof.
  intros Hin Hnot. destruct (decide (n ≤ length l)%nat); [by apply length_take_le|].
  rewrite take_ge in Hnot by lia. done.
Qed.


(** *** mark_indexed *)

Lemma update_indexed_at_absent v id tbl :
  (∀ r, r ∈ tbl -> row_id r ≠ id) -> update_indexed_at v id tbl = tbl.
Proof.
  intros H. unfold update_indexed_at. induction tbl as [|r tbl IH]; [done|].
  rewrite fmap_cons. rewrite decide_False by (apply H; left).
  f_equal. apply IH. intros r' Hr'. apply H. by right.
Qed.

Lemma filter_update_indexed_at v id tbl :
  filter (λ r, row_id r ≠ id) (update_indexed_at v id tbl) = filter (λ r, row_id r ≠ id) tbl.
Proof.
  unfold update_indexed_at. induction tbl as [|r tbl IH]; [done|].
  rewrite fmap_cons, !filter_cons. destruct (decide (row_id r = id)) as [Heq|Hne].
  - cbn [row_id]. rewrite !decide_False by (intros H; by apply H). done.
  - rewrite !decide_True by done. by f_equal.
Qed.

Lemma filter_insert_or_replace r0 tbl :
  filter (λ r, row_id r ≠ row_id r0) (insert_or_replace r0 tbl)
  = filter (λ r, row_id r ≠ row_id r0) tbl.
Proof.
  unfold insert_or_replace. rewrite filter_app, filter_cons, filter_nil.
  rewrite decide_False by (intros H; by apply H). rewrite app_nil_r.
  apply list_filter_filter_l. done.
Qed.

Lemma run_mark_indexed utcnow id indexed_at s :
  run (mark_indexed utcnow id indexed_at) s =
  let now := default utcnow indexed_at in
  let s1 := set_index (update_indexed_at (Datetime.isoformat now) id) s in
  match run (get id) s1 with
  | (Ok (Some c), _) => run (save (Conversation.set_indexed_at (Some now) c)) s1
  | (Ok None, _) => (Ok tt, s1)
  | (Raise e, _) => (Raise e, s1)
  end.
Proof.
  unfold mark_indexed, _ensure_initialized, execute, modify.
  rewrite run_bind, run_ret, run_bind. cbn [run]. rewrite run_bind.
  cbn zeta. rewrite run_get. cbn [files set_index].
  destruct (files s !! path id) as [j|]; [|done].
  destruct (Conversation.model_validate_json j); done.
Qed.

Lemma get_other_files id s s' :
  files s' = files s -> run (get id) s' = ((run (get id) s).1, s').
Proof. intros H. by rewrite !run_get, H. Qed.

Lemma no_row_no_update v id (s : t) :
  (∀ r, r ∈ index s -> row_id r ≠ id) -> set_index (update_indexed_at v id) s = s.
Proof. intros H. unfold set_index. rewrite update_indexed_at_absent by done. by destruct s. Qed.

(** C8, amended. [mark_indexed(id, t)] first sets [indexed_at] to [t] (to
    the clock's reading when [t] is omitted) in every index row of [id], then
    reads the content file of [id] and saves it again with that [indexed_at].
    When the file holds a valid conversation with that id, [get(id)]
    afterwards returns it with [indexed_at] set and every other field as
    before, and the one index row of [id] is the row of that conversation.
    When there is no file, the call does not raise and the files stay as they
    are, but the index rows of [id], if there are any, have the new
    [indexed_at]: it changes nothing only when there is no such row, as in
    every store whose index and files agree. In all cases the conversations
    and rows of the other ids are as before, and a store whose index and
    files agree stays one. *)
Theorem mark_indexed_spec (s : t) (utcnow : datetime) (id : string)
    (indexed_at : option datetime) :
  let now := default utcnow indexed_at in
  (∀ c, run (get id) s = (Ok (Some c), s) ->
     Conversation.id c = id -> conversation_ok c -> Datetime.datetime_ok now ->
     let c' := Conversation.mk (Conversation.id c) (Conversation.source c)
                 (Conversation.project_path c) (Conversation.created_at c)
                 (Conversation.updated_at c) (Conversation.messages c)
                 (Some now) (Conversation.title c) (Conversation.extra c) in
     ∃ s',
       run (mark_indexed utcnow id indexed_at) s = (Ok tt, s') ∧
       run (get id) s' = (Ok (Some c'), s') ∧
       (∀ r, r ∈ index s' -> row_id r = id -> r = index_row c') ∧
       index_row c' ∈ index s' ∧
       (∀ id', id' ≠ id ->
          run (get id') s' = ((run (get id') s).1, s') ∧
          ∀ r, row_id r = id' -> r ∈ index s' ↔ r ∈ index s)) ∧
  (run (get id) s = (Ok None, s) ->
     ∃ s',
       run (mark_indexed utcnow id indexed_at) s = (Ok tt, s') ∧
       files s' = files s ∧
       index s' = update_indexed_at (Datetime.isoformat now) id (index s) ∧
       (∀ r, r ∈ index s' -> row_id r = id ->
          row_indexed_at r = Some (Datetime.isoformat now)) ∧
       (∀ r, row_id r ≠ id -> r ∈ index s' ↔ r ∈ index s) ∧
       ((∀ r, r ∈ index s -> row_id r ≠ id) -> s' = s)) ∧
  (store_ok s -> Datetime.datetime_ok now ->
     ∃ s',
       run (mark_indexed utcnow id indexed_at) s = (Ok tt, s') ∧
       store_ok s' ∧
       (run (get id) s = (Ok None, s) -> s' = s)).
Proof.
  cbn zeta. set (now := default utcnow indexed_at).
  set (s1 := set_index (update_indexed_at (Datetime.isoformat now) id) s).
  assert (∀ c, run (get id) s = (Ok (Some c), s) -> Conversation.id c = id ->
            run (mark_indexed utcnow id indexed_at) s
            = (Ok tt, exec (save (Conversation.set_indexed_at (Some now) c)) s)) as Hfound.
  { intros c Hget Hid. rewrite run_mark_indexed. cbn zeta. fold now s1.
    rewrite (get_other_files id s s1), Hget by done. cbn [fst].
    rewrite run_save, exec_save. subst s1. cbn [files index set_index]. do 2 f_equal.
    unfold insert_or_replace. f_equal.
    replace (row_id (index_row (Conversation.set_indexed_at (Some now) c))) with id by done.
    apply filter_update_indexed_at. }
  assert (run (get id) s = (Ok None, s) ->
          run (mark_indexed utcnow id indexed_at) s = (Ok tt, s1)) as Hmissing.
  { intros Hget. rewrite run_mark_indexed. cbn zeta. fold now s1.
    by rewrite (get_other_files id s s1), Hget. }
  split_and!.
  - intros c Hget Hid Hcok Hnow.
    set (c' := Conversation.set_indexed_at (Some now) c).
    change (Conversation.mk _ _ _ _ _ _ _ _ _) with c'.
    assert (conversation_ok c') as Hc'ok.
    { destruct Hcok as (? & ? & ? & ?). by split_and!. }
    assert (row_id (index_row c') = id) as Hid' by done.
    exists (exec (save c') s). split_and!.
    + by apply Hfound.
    + apply get_stored; [done|]. rewrite <- Hid. exact (files_save_same c' s).
    + intros r Hr Hrid. rewrite exec_save in Hr. cbn [index] in Hr.
      apply elem_of_insert_or_replace in Hr as [[_ Hne]|Hr]; [congruence|done].
    + rewrite exec_save. cbn [index]. apply elem_of_insert_or_replace. by right.
    + intros id' Hne. split.
      * rewrite !run_get, files_save_other by (by rewrite <- Hid in Hne). done.
      * intros r Hr. rewrite exec_save. cbn [index]. rewrite elem_of_insert_or_replace.
        split.
        -- intros [[? _]| ->]; [done|]. congruence.
        -- intros Hin. left. split; [done|]. congruence.
  - intros Hget. exists s1. split_and!; try done.
    + by apply Hmissing.
    + intros r Hr Hrid. subst s1. cbn [index set_index] in Hr. unfold update_indexed_at in Hr.
      apply list_elem_of_fmap in Hr as (r0 & -> & _).
      destruct (decide (row_id r0 = id)); [done|]. done.
    + intros r Hne. subst s1. cbn [index set_index]. unfold update_indexed_at.
      rewrite list_elem_of_fmap. split.
      * intros (r0 & -> & Hr0). destruct (decide (row_id r0 = id)); [|done].
        cbn [row_id] in Hne. done.
      * intros Hr. exists r. by rewrite decide_False.
    + intros Habsent. by apply no_row_no_update.
  - intros Hs Hnow.
    destruct (run (get id) s) as [[[c|]|e] s0] eqn:Hget.
    + assert (s0 = s) as -> by (rewrite run_get in Hget; by injection Hget).
      destruct (get_row s id c Hs Hget) as (Hcok & Hid & _).
      exists (exec (save (Conversation.set_indexed_at (Some now) c)) s). split_and!.
      * by apply Hfound.
      * apply store_ok_save; [|done]. destruct Hcok as (? & ? & ? & ?). by split_and!.
      * intros [=].
    + assert (s0 = s) as -> by (rewrite run_get in Hget; by injection Hget).
      assert (∀ r, r ∈ index s -> row_id r ≠ id) as Habsent.
      { intros r Hr Heq. destruct Hs as (_ & Hrows & _).
        destruct (Hrows r Hr) as (c & _ & _ & Hf).
        rewrite run_get, <- Heq, Hf in Hget.
        by destruct (Conversation.model_validate_json _). }
      exists s. split_and!; [|done|done].
      rewrite Hmissing by done. unfold s1. by rewrite no_row_no_update.
    + exfalso. rewrite run_get in Hget.
      destruct (files s !! path id) as [j|] eqn:Hj; [|done].
      destruct Hs as (_ & Hrows & Hfiles).
      destruct (Hfiles (path id)) as (r & Hr & Hp); [by eauto|].
      apply conversation_path_inj in Hp as ->.
      destruct (Hrows r Hr) as (c & Hc & _ & Hf). rewrite Hj in Hf. injection Hf as ->.
      by rewrite conversation_roundtrip in Hget.
Qed.

End ConversationStoreFacts.

(** ** The order of the ranking *)

Module FloatOrder.

Lemma SFcompare_refl x : sf_is_nan x = false -> SFcompare x x = Some Eq.
Proof.
  destruct x as [s|s| |s m e]; simpl; try done.
  - by destruct s.
  - intros _. rewrite Z.compare_refl.
    change (PosDef.Pos.compare_cont Eq m m) with (Pos.compare m m).
    rewrite Pos.compare_refl. by destruct s.
Qed.

Lemma is_nan_spec x : is_nan x = sf_is_nan (Prim2SF x).
Proof.
  unfold is_nan. rewrite FloatAxioms.eqb_spec. unfold SFeqb.
  destruct (sf_is_nan (Prim2SF x)) eqn:E.
  - by destruct (Prim2SF x).
  - by rewrite SFcompare_refl.
Qed.

Ltac cmp_cases :=
  repeat match goal with
  | |- context [(?a ?= ?b)%Z] => destruct (Z.compare_spec a b)
  | |- context [PosDef.Pos.compare_cont Eq ?a ?b] =>
      change (PosDef.Pos.compare_cont Eq a b) with (Pos.compare a b);
      destruct (Pos.compare_spec a b)
  | H : context [(?a ?= ?b)%Z] |- _ => destruct (Z.compare_spec a b)
  | H : context [PosDef.Pos.compare_cont Eq ?a ?b] |- _ =>
      change (PosDef.Pos.compare_cont Eq a b) with (Pos.compare a b) in H;
      destruct (Pos.compare_spec a b)
  end.

Lemma sf_le_total x y : sf_le x y = true ∨ sf_le y x = true.
Proof.
  unfold sf_le, SFleb.
  destruct x as [sx|sx| |sx mx ex], y as [sy|sy| |sy my ey]; simpl; auto;
    try (destruct sx, sy; simpl; auto; fail).
  destruct sx, sy; simpl; auto; cmp_cases; simpl; auto; try lia.
Qed.

Lemma sf_le_trans x y z : sf_le x y = true -> sf_le y z = true -> sf_le x z = true.
Proof.
  unfold sf_le, SFleb.
  destruct x as [sx|sx| |sx mx ex], y as [sy|sy| |sy my ey], z as [sz|sz| |sz mz ez];
    simpl; try done;
    try (destruct sx; simpl; try done; fail);
    try (destruct sy; simpl; try done; fail);
    try (destruct sz; simpl; try done; fail);
    try (destruct sx, sy; simpl; try done; fail);
    try (destruct sy, sz; simpl; try done; fail);
    try (destruct sx, sz; simpl; try done; fail);
    try (destruct sx, sy, sz; simpl; try done; fail).
  all: destruct sx, sy, sz; simpl; try done; intros H1 H2; cmp_cases; simpl in *; try done; lia.
Qed.

Lemma dist_le_spec a b :
  VectorStore.dist_le a b ↔ sf_le (Prim2SF a) (Prim2SF b) = true.
Proof.
  unfold VectorStore.dist_le, sf_le. rewrite FloatAxioms.leb_spec, is_nan_spec.
  apply Is_true_true.
Qed.

#[export] Instance dist_le_total : Total VectorStore.dist_le.
Proof. intros a b. rewrite !dist_le_spec. apply sf_le_total. Qed.

#[export] Instance dist_le_trans : Transitive VectorStore.dist_le.
Proof. intros a b c. rewrite !dist_le_spec. apply sf_le_trans. Qed.

#[export] Instance nearer_total : Total VectorStore.nearer.
Proof. intros x y. apply dist_le_total. Qed.

#[export] Instance nearer_trans : Transitive VectorStore.nearer.
Proof. intros x y z. apply dist_le_trans. Qed.

(** On numbers the order of the ranking is [<=]. *)
Lemma dist_le_leb a b : is_nan b = false -> VectorStore.dist_le a b ↔ (a <=? b)%float = true.
Proof.
  intros Hb. unfold VectorStore.dist_le. rewrite Hb, orb_false_r. apply Is_true_true.
Qed.

End FloatOrder.


(** ** Rounding to nearest in binary64

    [SpecFloat] rounds a positive number given by a mantissa, an exponent and
    a location. The result is a representable number nearest to it, so that
    rounding is monotone; with it, [1 + d] and [1 / u] are monotone on the
    floats, which bounds the score and orders the scores of two distances. *)

Module FloatRounding.

(** *** Powers of two and the digits of a mantissa *)

Lemma fexp_eq k : fexp prec emax k = Z.max (k - 53) (-1074).
Proof. reflexivity. Qed.

Lemma digits2_pos_bounds p :
  2 ^ (Z.pos (digits2_pos p) - 1) <= Z.pos p < 2 ^ Z.pos (digits2_pos p).
Proof.
  induction p as [p IH|p IH|]; cbn [digits2_pos].
  - rewrite Pos2Z.inj_succ.
    replace (Z.succ (Z.pos (digits2_pos p)) - 1) with (Z.succ (Z.pos (digits2_pos p) - 1)) by lia.
    rewrite !Z.pow_succ_r by lia. lia.
  - rewrite Pos2Z.inj_succ.
    replace (Z.succ (Z.pos (digits2_pos p)) - 1) with (Z.succ (Z.pos (digits2_pos p) - 1)) by lia.
    rewrite !Z.pow_succ_r by lia. lia.
  - cbn. lia.
Qed.


Lemma scaled_pos e : -1074 <= e -> 0 < scaled e.
Proof. intros He. unfold scaled. apply Z.pow_pos_nonneg; lia. Qed.

Lemma scaled_add e n : -1074 <= e -> 0 <= n -> scaled (e + n) = scaled e * 2 ^ n.
Proof.
  intros He Hn. unfold scaled.
  replace (e + n + 1074) with ((e + 1074) + n) by lia.
  apply Z.pow_add_r; lia.
Qed.

Lemma scaled_succ e : -1074 <= e -> scaled (e + 1) = 2 * scaled e.
Proof. intros He. rewrite scaled_add by lia. change (2 ^ 1) with 2. lia. Qed.

Lemma scaled_le e e' : -1074 <= e -> e <= e' -> scaled e <= scaled e'.
Proof. intros He Hle. unfold scaled. apply Z.pow_le_mono_r; lia. Qed.

(** *** Shifting a mantissa to the right *)

Lemma loc_of_shr_record_of_loc m l :
  loc_of_shr_record (shr_record_of_loc m l) = l ∧ shr_m (shr_record_of_loc m l) = m.
Proof. destruct l as [|[]]; split; reflexivity. Qed.

(** One step of the right shift keeps the position of the real number
    [N / D] (scaled by 2^1074) between two consecutive multiples. *)
Lemma shr_1_inbetween mrs e N D :
  -1074 <= e -> 0 < D -> 0 <= shr_m mrs ->
  inbetween (shr_m mrs) e (loc_of_shr_record mrs) N D ->
  0 <= shr_m (shr_1 mrs) ∧
  inbetween (shr_m (shr_1 mrs)) (e + 1) (loc_of_shr_record (shr_1 mrs)) N D.
Proof.
  intros He HD Hm. unfold inbetween. rewrite scaled_succ by lia.
  pose proof (scaled_pos e He) as Hs.
  assert (0 < scaled e * D) as HS by lia.
  replace (2 * scaled e * D) with (2 * (scaled e * D)) by ring.
  generalize dependent (scaled e * D). intros S HS.
  destruct mrs as [m r s]. cbn [shr_m] in *.
  destruct m as [|[p|p|]|p]; [| | | |lia]; destruct r, s; cbn [shr_1 loc_of_shr_record shr_m orb].
  all: intros H; split; [lia|].
  all: repeat match goal with
    | H : _ ∧ _ |- _ => destruct H
    | H : (?a ?= ?b) = _ |- _ => destruct (Z.compare_spec a b); try discriminate; clear H
    end.
  all: try (split; [lia|]).
  all: try match goal with
    | |- (?a ?= ?b) = _ => destruct (Z.compare_spec a b); try reflexivity; exfalso
    end.
  all: lia.
Qed.

Lemma iter_pos_shr_1_inbetween p : ∀ mrs e N D,
  -1074 <= e -> 0 < D -> 0 <= shr_m mrs ->
  inbetween (shr_m mrs) e (loc_of_shr_record mrs) N D ->
  0 <= shr_m (SpecFloat.iter_pos shr_1 p mrs) ∧
  inbetween (shr_m (SpecFloat.iter_pos shr_1 p mrs)) (e + Z.pos p)
    (loc_of_shr_record (SpecFloat.iter_pos shr_1 p mrs)) N D.
Proof.
  induction p as [p IH|p IH|]; intros mrs e N D He HD Hm H; cbn [SpecFloat.iter_pos].
  - destruct (shr_1_inbetween mrs e N D He HD Hm H) as [Hm1 H1].
    destruct (IH _ (e + 1) N D ltac:(lia) HD Hm1 H1) as [Hm2 H2].
    destruct (IH _ (e + 1 + Z.pos p) N D ltac:(lia) HD Hm2 H2) as [Hm3 H3].
    split; [exact Hm3|].
    replace (e + Z.pos p~1) with (e + 1 + Z.pos p + Z.pos p) by lia. exact H3.
  - destruct (IH _ e N D He HD Hm H) as [Hm2 H2].
    destruct (IH _ (e + Z.pos p) N D ltac:(lia) HD Hm2 H2) as [Hm3 H3].
    split; [exact Hm3|].
    replace (e + Z.pos p~0) with (e + Z.pos p + Z.pos p) by lia. exact H3.
  - apply shr_1_inbetween; assumption.
Qed.

(** [shr_fexp] moves the mantissa to the exponent of the format (never to
    a smaller one) and keeps the position of the number. *)
Lemma shr_fexp_inbetween m e l N D :
  0 <= m -> -1074 <= e -> 0 < D -> inbetween m e l N D ->
  ∃ mrs, shr_fexp prec emax m e l = (mrs, Z.max e (fexp prec emax (Zdigits2 m + e))) ∧
    0 <= shr_m mrs ∧
    inbetween (shr_m mrs) (Z.max e (fexp prec emax (Zdigits2 m + e)))
      (loc_of_shr_record mrs) N D.
Proof.
  intros Hm He HD H. unfold shr_fexp, shr.
  destruct (loc_of_shr_record_of_loc m l) as [Hl Hsm].
  destruct (fexp prec emax (Zdigits2 m + e) - e) as [|n|n] eqn:En.
  - exists (shr_record_of_loc m l). rewrite Z.max_l by lia.
    rewrite Hl, Hsm. auto.
  - exists (SpecFloat.iter_pos shr_1 n (shr_record_of_loc m l)).
    replace (Z.max e (fexp prec emax (Zdigits2 m + e))) with (e + Z.pos n) by lia.
    split; [reflexivity|].
    apply iter_pos_shr_1_inbetween; rewrite ?Hl, ?Hsm; assumption.
  - exists (shr_record_of_loc m l). rewrite Z.max_l by lia.
    rewrite Hl, Hsm. auto.
Qed.

Lemma inbetween_floor m e l N D :
  -1074 <= e -> 0 < D ->
  inbetween m e l N D -> m * (scaled e * D) <= N < (m + 1) * (scaled e * D).
Proof.
  intros He HD H. pose proof (scaled_pos e He).
  destruct l; cbn in H; nia.
Qed.

(** *** Rounding to the nearest float, ties to even *)

Lemma round_nearest_even_near m l e N D :
  -1074 <= e -> 0 < D -> inbetween m e l N D ->
  m <= round_nearest_even m l <= m + 1 ∧
  Z.abs (round_nearest_even m l * (scaled e * D) - N) <= N - m * (scaled e * D) ∧
  Z.abs (round_nearest_even m l * (scaled e * D) - N) <= (m + 1) * (scaled e * D) - N.
Proof.
  intros He HD H. pose proof (scaled_pos e He) as Hs.
  assert (0 < scaled e * D) as HS by lia.
  unfold inbetween in H. generalize dependent (scaled e * D). intros S H HS.
  destruct l as [|[]]; cbn [round_nearest_even];
    repeat match goal with
    | H : _ ∧ _ |- _ => destruct H
    | H : (?a ?= ?b) = _ |- _ => destruct (Z.compare_spec a b); try discriminate; clear H
    end; try destruct (Z.even m); split_and!; try lia.
Qed.

Lemma digits2_pos_le p n : 0 <= n -> Z.pos p < 2 ^ n -> Z.pos (digits2_pos p) <= n.
Proof.
  intros Hn Hp. destruct (Z.le_gt_cases (Z.pos (digits2_pos p)) n) as [|Hgt]; [assumption|].
  pose proof (digits2_pos_bounds p) as [Hlo _].
  assert (2 ^ n <= 2 ^ (Z.pos (digits2_pos p) - 1)) by (apply Z.pow_le_mono_r; lia).
  lia.
Qed.

Lemma digits2_pos_gt p n : 0 <= n -> 2 ^ n <= Z.pos p -> n < Z.pos (digits2_pos p).
Proof.
  intros Hn Hp. destruct (Z.lt_ge_cases n (Z.pos (digits2_pos p))) as [|Hge]; [assumption|].
  pose proof (digits2_pos_bounds p) as [_ Hhi].
  assert (2 ^ Z.pos (digits2_pos p) <= 2 ^ n) by (apply Z.pow_le_mono_r; lia).
  lia.
Qed.

Lemma canonical_cases m e :
  canonical m e ↔
  (Z.pos (digits2_pos m) = 53 ∧ -1074 <= e) ∨ (Z.pos (digits2_pos m) <= 53 ∧ e = -1074).
Proof. unfold canonical. rewrite fexp_eq. lia. Qed.

Lemma mul_lt_cancel a b S : 0 < S -> a * S < b * S -> a < b.
Proof. intros HS H. apply (Z.mul_lt_mono_pos_r S); assumption. Qed.

Lemma mul_le_cancel a b S : 0 < S -> a * S <= b * S -> a <= b.
Proof. intros HS H. apply (Z.mul_le_mono_pos_r _ _ S); assumption. Qed.

(** The magnitude of a number read off its mantissa. *)
Lemma inbetween_mag p e l N D :
  -1074 <= e -> 0 < D -> inbetween (Z.pos p) e l N D ->
  scaled (Z.pos (digits2_pos p) + e - 1) * D <= N < scaled (Z.pos (digits2_pos p) + e) * D.
Proof.
  intros He HD H. apply inbetween_floor in H; [|assumption..].
  pose proof (scaled_pos e He) as Hs.
  pose proof (digits2_pos_bounds p) as [Hlo Hhi].
  replace (Z.pos (digits2_pos p) + e - 1) with (e + (Z.pos (digits2_pos p) - 1)) by lia.
  replace (Z.pos (digits2_pos p) + e) with (e + Z.pos (digits2_pos p)) by lia.
  rewrite !scaled_add by lia.
  assert (0 < scaled e * D) as HS by lia.
  split.
  - transitivity (Z.pos p * (scaled e * D)); [|lia].
    replace (scaled e * 2 ^ (Z.pos (digits2_pos p) - 1) * D)
      with (2 ^ (Z.pos (digits2_pos p) - 1) * (scaled e * D)) by ring.
    apply Z.mul_le_mono_nonneg_r; lia.
  - eapply Z.lt_le_trans; [apply H|].
    replace (scaled e * 2 ^ Z.pos (digits2_pos p) * D)
      with (2 ^ Z.pos (digits2_pos p) * (scaled e * D)) by ring.
    apply Z.mul_le_mono_nonneg_r; lia.
Qed.

(** No representable number lies strictly between two consecutive multiples
    of the unit in the last place of a number. *)
Lemma representable_gap k m1 e1 N D g :
  0 < D -> -1074 <= k - 1 -> e1 = fexp prec emax k ->
  scaled (k - 1) * D <= N < scaled k * D ->
  m1 * (scaled e1 * D) <= N < (m1 + 1) * (scaled e1 * D) ->
  representable g ->
  g * D <= m1 * (scaled e1 * D) ∨ (m1 + 1) * (scaled e1 * D) <= g * D.
Proof.
  intros HD Hk He1 Hmag Hfl Hg. rewrite fexp_eq in He1.
  assert (-1074 <= e1) as He1' by lia.
  pose proof (scaled_pos e1 He1') as Hs1.
  assert (0 < scaled e1 * D) as HS by lia.
  assert (0 <= m1) as Hm1.
  { assert (0 < scaled (k - 1)) by (apply scaled_pos; lia).
    assert (0 < (m1 + 1) * (scaled e1 * D)) as Hpos by nia.
    change 0 with (0 * (scaled e1 * D)) in Hpos at 1.
    apply mul_lt_cancel in Hpos; lia. }
  destruct Hg as [->|(mg & eg & Hcan & ->)].
  { left. nia. }
  apply canonical_cases in Hcan.
  assert (-1074 <= eg) as Heg by lia.
  destruct (Z.le_gt_cases e1 eg) as [Hle|Hgt].
  - replace eg with (e1 + (eg - e1)) by lia. rewrite scaled_add by lia.
    set (j := Z.pos mg * 2 ^ (eg - e1)).
    replace (Z.pos mg * (scaled e1 * 2 ^ (eg - e1)) * D) with (j * (scaled e1 * D))
      by (unfold j; ring).
    destruct (Z.le_gt_cases j m1).
    + left. apply Z.mul_le_mono_nonneg_r; lia.
    + right. apply Z.mul_le_mono_nonneg_r; lia.
  - left. assert (e1 = k - 53) as -> by lia.
    (* 2^52 ulp <= N, hence 2^52 <= m1 *)
    assert (2 ^ 52 <= m1) as Hbig.
    { replace (k - 1) with (k - 53 + 52) in Hmag by lia.
      rewrite scaled_add in Hmag by lia.
      assert (2 ^ 52 * (scaled (k - 53) * D) < (m1 + 1) * (scaled (k - 53) * D)) as Hlt by lia.
      apply mul_lt_cancel in Hlt; lia. }
    pose proof (digits2_pos_bounds mg) as [_ Hhi].
    assert (2 ^ Z.pos (digits2_pos mg) <= 2 ^ 53) by (apply Z.pow_le_mono_r; lia).
    assert (Z.pos mg * scaled eg <= 2 ^ 52 * scaled (k - 53)) as Hv.
    { assert (scaled eg * 2 <= scaled (k - 53)).
      { replace (k - 53) with (eg + (k - 53 - eg)) by lia. rewrite scaled_add by lia.
        assert (2 ^ 1 <= 2 ^ (k - 53 - eg)) by (apply Z.pow_le_mono_r; lia).
        pose proof (scaled_pos eg Heg). change (2 ^ 1) with 2 in *. nia. }
      pose proof (scaled_pos eg Heg). change (2 ^ 53) with (2 ^ 52 * 2) in *. nia. }
    transitivity (2 ^ 52 * scaled (k - 53) * D); [nia|].
    replace (2 ^ 52 * scaled (k - 53) * D) with (2 ^ 52 * (scaled (k - 53) * D)) by ring.
    apply Z.mul_le_mono_nonneg_r; lia.
Qed.

Lemma scaled_1024 e : -1074 <= e <= 1024 -> scaled 1024 = scaled e * 2 ^ (1024 - e).
Proof. intros He. rewrite <- scaled_add by lia. f_equal. lia. Qed.

(** The last step of a rounding: a mantissa of the format with too large an
    exponent becomes the infinity. *)
Lemma finite_or_infinity m e :
  canonical m e ->
  let r := if e <=? emax - prec then S754_finite false m e else S754_infinity false in
  sf_nonneg r ∧ sf_value r = Z.min (Z.pos m * scaled e) (scaled 1024).
Proof.
  intros Hcan r. subst r. change (emax - prec) with 971.
  pose proof Hcan as Hc. apply canonical_cases in Hc.
  pose proof (digits2_pos_bounds m) as [Hlo Hhi].
  assert (-1074 <= e) as He by lia. pose proof (scaled_pos e He) as Hs.
  destruct (Z.leb_spec e 971) as [Hle|Hgt]; cbn [sf_nonneg sf_value].
  - split.
    + unfold bounded, canonical_mantissa. apply andb_true_intro. split.
      * apply Z.eqb_eq. exact Hcan.
      * apply Z.leb_le. exact Hle.
    + rewrite Z.min_l; [reflexivity|].
      rewrite (scaled_1024 e) by lia.
      assert (2 ^ Z.pos (digits2_pos m) <= 2 ^ (1024 - e)) by (apply Z.pow_le_mono_r; lia).
      nia.
  - split; [exact I|]. rewrite Z.min_r; [reflexivity|].
    assert (Z.pos (digits2_pos m) = 53) as Hd by lia. rewrite Hd in Hlo.
    change (scaled 1024) with (2 ^ 52 * scaled 972).
    pose proof (scaled_le 972 e ltac:(lia) ltac:(lia)).
    assert (0 < scaled 972) by (apply scaled_pos; lia).
    apply Z.mul_le_mono_nonneg; lia.
Qed.

(** Rounding a positive number given by a mantissa with enough digits, an
    exponent and a location: the result is a representable number nearest to
    it, or the infinity when that number is beyond the largest float. *)
Lemma binary_round_aux_spec p e l N D :
  -1074 <= e -> 0 < D ->
  e <= fexp prec emax (Z.pos (digits2_pos p) + e) ->
  inbetween (Z.pos p) e l N D ->
  ∃ v, representable v ∧ nearest v N D ∧
       sf_nonneg (binary_round_aux prec emax false (Z.pos p) e l) ∧
       sf_value (binary_round_aux prec emax false (Z.pos p) e l) = Z.min v (scaled 1024).
Proof.
  intros He HD Hprec H.
  pose proof (inbetween_mag p e l N D He HD H) as Hmag.
  set (k := Z.pos (digits2_pos p) + e) in *.
  destruct (shr_fexp_inbetween (Z.pos p) e l N D) as (mrs1 & E1 & Hm1 & H1); [lia|assumption..|].
  cbn [Zdigits2] in E1, H1. fold k in E1, H1. rewrite Z.max_r in E1, H1 by exact Hprec.
  set (e1 := fexp prec emax k) in *.
  assert (-1074 <= e1) as He1 by lia.
  assert (e1 = Z.max (k - 53) (-1074)) as Hk by (unfold e1; apply fexp_eq).
  set (m1 := shr_m mrs1) in *. set (l1 := loc_of_shr_record mrs1) in *.
  destruct (round_nearest_even_near m1 l1 e1 N D He1 HD H1) as (Hm2 & Hn1 & Hn2).
  apply inbetween_floor in H1; [|assumption..].
  set (m2 := round_nearest_even m1 l1) in *.
  pose proof (scaled_pos e1 He1) as Hs1.
  assert (0 < scaled e1 * D) as HS1 by lia.
  assert (1 <= Z.pos (digits2_pos p)) as Hd by lia.
  (* the number is below 2^k, so the rounded mantissa is at most 2^(k - e1) *)
  assert (m2 <= 2 ^ (k - e1)) as Htop.
  { destruct Hmag as [_ Hhi]. replace k with (e1 + (k - e1)) in Hhi at 1 by lia.
    rewrite scaled_add in Hhi by lia.
    assert (m1 * (scaled e1 * D) < 2 ^ (k - e1) * (scaled e1 * D)) as Hlt by lia.
    apply mul_lt_cancel in Hlt; lia. }
  (* above the subnormal range the mantissa has all its digits *)
  assert (-1074 < e1 -> 2 ^ 52 <= m1) as Hbig.
  { intros Hn. destruct Hmag as [Hlo _].
    replace (k - 1) with (e1 + 52) in Hlo by lia. rewrite scaled_add in Hlo by lia.
    assert (2 ^ 52 * (scaled e1 * D) < (m1 + 1) * (scaled e1 * D)) as Hlt by lia.
    apply mul_lt_cancel in Hlt; lia. }
  (* it is nearest *)
  assert (nearest (m2 * scaled e1) N D) as Hnear.
  { intros g Hg.
    destruct (representable_gap k m1 e1 N D g HD ltac:(lia) eq_refl Hmag H1 Hg) as [Hg1|Hg1].
    - replace (m2 * scaled e1 * D) with (m2 * (scaled e1 * D)) by ring. lia.
    - replace (m2 * scaled e1 * D) with (m2 * (scaled e1 * D)) by ring. lia. }
  unfold binary_round_aux. rewrite E1. fold m1 l1 m2.
  destruct (shr_fexp_inbetween m2 e1 loc_Exact (m2 * (scaled e1 * 1)) 1)
    as (mrs2 & E2 & Hm3 & H2); [lia|assumption|lia|reflexivity|].
  rewrite E2. apply inbetween_floor in H2; [|lia..].
  set (e2 := Z.max e1 (fexp prec emax (Zdigits2 m2 + e1))) in *.
  set (m3 := shr_m mrs2) in *.
  assert (-1074 <= e2) as He2 by lia.
  pose proof (scaled_pos e2 He2) as Hs2.
  rewrite !Z.mul_1_r in H2.
  assert ((m2 = 0 ∧ m3 = 0) ∨
          ∃ q3, m3 = Z.pos q3 ∧ canonical q3 e2 ∧ Z.pos q3 * scaled e2 = m2 * scaled e1)
    as Hres.
  { destruct m2 as [|q|q] eqn:Eq; [| |lia].
    - left. split; [reflexivity|].
      assert (m3 * scaled e2 < 1 * scaled e2) as Hlt1 by lia.
      assert (-1 * scaled e2 < m3 * scaled e2) as Hlt2 by lia.
      apply mul_lt_cancel in Hlt1, Hlt2; lia.
    - right. cbn [Zdigits2] in e2.
      pose proof (digits2_pos_bounds q) as [Hqlo Hqhi].
      assert (Z.pos (digits2_pos q) <= k - e1 + 1) as Hd2.
      { apply digits2_pos_le; [lia|].
        replace (k - e1 + 1) with (Z.succ (k - e1)) by lia.
        rewrite Z.pow_succ_r by lia. lia. }
      assert (e2 = Z.max e1 (Z.max (Z.pos (digits2_pos q) + e1 - 53) (-1074))) as He2'
        by (unfold e2; rewrite fexp_eq; reflexivity).
      destruct (Z.le_gt_cases (Z.pos (digits2_pos q)) 53) as [Hle|Hgt].
      + (* no carry into a new digit *)
        assert (e2 = e1) as He21 by lia. rewrite He21 in *.
        assert (m3 = Z.pos q) as Hm3q.
        { assert (m3 * scaled e1 < (Z.pos q + 1) * scaled e1) as Hlt1 by lia.
          assert ((Z.pos q - 1) * scaled e1 < m3 * scaled e1) as Hlt2 by lia.
          apply mul_lt_cancel in Hlt1, Hlt2; lia. }
        exists q. split_and!; [exact Hm3q| |reflexivity].
        apply canonical_cases.
        destruct (Z.eq_dec e1 (-1074)) as [->|Hne]; [right; lia|left].
        split; [|lia].
        assert (52 < Z.pos (digits2_pos q)); [|lia].
        apply digits2_pos_gt; [lia|]. specialize (Hbig ltac:(lia)). lia.
      + (* the mantissa was rounded up to 2^53 *)
        assert (k - e1 = 53) as Hke by lia.
        assert (Z.pos (digits2_pos q) = 54) as Hd54 by lia.
        assert (e2 = e1 + 1) as He21 by lia.
        rewrite Hke in Htop. rewrite Hd54 in Hqlo. change (54 - 1) with 53 in Hqlo.
        assert (Z.pos q = 2 ^ 53) as Hq by lia.
        rewrite He21, scaled_succ in H2 |- * by lia. rewrite Hq in H2 |- *.
        assert (m3 = 2 ^ 52) as Hm3q.
        { change (2 ^ 53) with (2 ^ 52 * 2) in H2.
          assert (m3 * scaled e1 < (2 ^ 52 + 1) * scaled e1) as Hlt1 by lia.
          assert ((2 ^ 52 - 1) * scaled e1 < m3 * scaled e1) as Hlt2 by lia.
          apply mul_lt_cancel in Hlt1, Hlt2; lia. }
        destruct m3 as [|q3|q3] eqn:Em3; [discriminate| |discriminate].
        exists q3. split_and!; [reflexivity| |].
        * apply canonical_cases. left. split; [|lia].
          pose proof (digits2_pos_le q3 53 ltac:(lia) ltac:(lia)).
          pose proof (digits2_pos_gt q3 52 ltac:(lia) ltac:(lia)). lia.
        * rewrite Hm3q. change (2 ^ 53) with (2 ^ 52 * 2). ring. }
  exists (m2 * scaled e1).
  destruct Hres as [[-> ->]|(q3 & -> & Hcan & Hv)].
  - split_and!; [left; reflexivity|exact Hnear|exact I|].
    cbn [sf_value]. rewrite Z.mul_0_l. rewrite Z.min_l; [reflexivity|].
    pose proof (scaled_pos 1024 ltac:(lia)). lia.
  - rewrite <- Hv. destruct (finite_or_infinity q3 e2 Hcan) as [Hnn Hval].
    split_and!; [right; eauto|rewrite Hv; exact Hnear|exact Hnn|exact Hval].
Qed.

(** *** The order of the floats *)

(** Round-to-nearest is monotone. *)
Lemma nearest_monotone v1 v2 N1 D1 N2 D2 :
  0 < D1 -> 0 < D2 -> representable v1 -> representable v2 ->
  nearest v1 N1 D1 -> nearest v2 N2 D2 ->
  N1 * D2 < N2 * D1 -> v1 <= v2.
Proof.
  intros HD1 HD2 Hr1 Hr2 Hn1 Hn2 Hlt.
  destruct (Z.le_gt_cases v1 v2) as [|Hgt]; [assumption|exfalso].
  specialize (Hn1 v2 Hr2). specialize (Hn2 v1 Hr1).
  assert (v2 * D1 < v1 * D1) as H1 by (apply Z.mul_lt_mono_pos_r; lia).
  assert (v2 * D2 < v1 * D2) as H2 by (apply Z.mul_lt_mono_pos_r; lia).
  assert ((v1 + v2) * D1 <= 2 * N1) as Ha by lia.
  assert (2 * N2 <= (v1 + v2) * D2) as Hb by lia.
  assert ((v1 + v2) * D1 * D2 <= 2 * N1 * D2) as Ha' by (apply Z.mul_le_mono_nonneg_r; lia).
  assert (2 * N2 * D1 <= (v1 + v2) * D2 * D1) as Hb' by (apply Z.mul_le_mono_nonneg_r; lia).
  lia.
Qed.

Lemma bounded_canonical m e : bounded prec emax m e = true ↔ canonical m e ∧ e <= 971.
Proof.
  unfold bounded, canonical_mantissa, canonical. change (emax - prec) with 971.
  rewrite andb_true_iff, Z.eqb_eq, Z.leb_le. reflexivity.
Qed.

(** The order of the floats of the format is the order of their values. *)
Lemma canonical_lt m1 e1 m2 e2 :
  canonical m1 e1 -> canonical m2 e2 -> e1 < e2 ->
  Z.pos m1 * scaled e1 < Z.pos m2 * scaled e2.
Proof.
  intros H1 H2 Hlt. apply canonical_cases in H1, H2.
  pose proof (digits2_pos_bounds m1) as [_ Hhi].
  pose proof (digits2_pos_bounds m2) as [Hlo _].
  assert (Z.pos (digits2_pos m2) = 53) as Hd by lia. rewrite Hd in Hlo.
  change (53 - 1) with 52 in Hlo.
  assert (2 ^ Z.pos (digits2_pos m1) <= 2 ^ 53) by (apply Z.pow_le_mono_r; lia).
  assert (-1074 <= e1) as He1 by lia. pose proof (scaled_pos e1 He1).
  pose proof (scaled_le (e1 + 1) e2 ltac:(lia) ltac:(lia)) as Hs.
  rewrite scaled_succ in Hs by lia.
  apply Z.lt_le_trans with (2 ^ 52 * (2 * scaled e1)).
  - change (2 ^ 53) with (2 ^ 52 * 2) in *. nia.
  - apply Z.mul_le_mono_nonneg; lia.
Qed.

Lemma sf_value_bounds x : sf_nonneg x -> 0 <= sf_value x <= scaled 1024.
Proof.
  assert (0 < scaled 1024) by (apply scaled_pos; lia).
  destruct x as [s|[]| |[] m e]; cbn; intros Hx; try lia.
  apply bounded_canonical in Hx as [Hcan He].
  destruct (finite_or_infinity m e Hcan) as [_ Hv].
  change (emax - prec) with 971 in Hv.
  destruct (Z.leb_spec e 971); [|lia]. cbn in Hv.
  assert (-1074 <= e) by (apply canonical_cases in Hcan; lia).
  pose proof (scaled_pos e ltac:(lia)). lia.
Qed.

Lemma sf_value_finite m e :
  bounded prec emax m e = true -> 0 < Z.pos m * scaled e < scaled 1024.
Proof.
  intros Hx. apply bounded_canonical in Hx as [Hcan He].
  pose proof (canonical_lt m e (4503599627370496) 972 Hcan eq_refl ltac:(lia)) as Hlt.
  assert (-1074 <= e) by (apply canonical_cases in Hcan; lia).
  pose proof (scaled_pos e ltac:(lia)).
  change (Z.pos 4503599627370496 * scaled 972) with (scaled 1024) in Hlt. lia.
Qed.

Lemma SFcompare_value x y :
  sf_nonneg x -> sf_nonneg y -> SFcompare x y = Some (sf_value x ?= sf_value y).
Proof.
  assert (0 < scaled 1024) as H1024 by (apply scaled_pos; lia).
  intros Hx Hy.
  destruct x as [sx|[]| |[] mx ex], y as [sy|[]| |[] my ey]; cbn in Hx, Hy; try contradiction;
    cbn [SFcompare sf_value];
    try pose proof (sf_value_finite _ _ Hx); try pose proof (sf_value_finite _ _ Hy);
    try (f_equal; symmetry; first [apply Z.compare_eq_iff|apply Z.compare_lt_iff
                                    |apply Z.compare_gt_iff]; lia).
  apply bounded_canonical in Hx as [Hx _], Hy as [Hy _].
  f_equal. destruct (Z.compare_spec ex ey) as [->|Hlt|Hgt].
  - assert (-1074 <= ey) by (apply canonical_cases in Hy; lia).
    pose proof (scaled_pos ey ltac:(lia)).
    change (Pos.compare_cont Eq mx my) with (Pos.compare mx my).
    rewrite Pos2Z.inj_compare. symmetry.
    destruct (Z.compare_spec (Z.pos mx) (Z.pos my)) as [->|?|?].
    + apply Z.compare_refl.
    + apply Z.compare_lt_iff. apply Z.mul_lt_mono_pos_r; lia.
    + apply Z.compare_gt_iff. apply Z.mul_lt_mono_pos_r; lia.
  - symmetry. apply Z.compare_lt_iff. apply canonical_lt; assumption.
  - symmetry. apply Z.compare_gt_iff. apply canonical_lt; assumption.
Qed.

Lemma SFleb_value x y :
  sf_nonneg x -> sf_nonneg y -> SFleb x y = true ↔ sf_value x <= sf_value y.
Proof.
  intros Hx Hy. unfold SFleb. rewrite SFcompare_value by assumption.
  destruct (Z.compare_spec (sf_value x) (sf_value y)); split; intros; try lia; congruence.
Qed.

Lemma SFltb_value x y :
  sf_nonneg x -> sf_nonneg y -> SFltb x y = true ↔ sf_value x < sf_value y.
Proof.
  intros Hx Hy. unfold SFltb. rewrite SFcompare_value by assumption.
  destruct (Z.compare_spec (sf_value x) (sf_value y)); split; intros; try lia; congruence.
Qed.

(** Two non-negative floats of the same value are the same float, or two
    zeros. *)
Lemma sf_value_inj x y :
  sf_nonneg x -> sf_nonneg y -> sf_value x = sf_value y ->
  x = y ∨ (∃ sx sy, x = S754_zero sx ∧ y = S754_zero sy).
Proof.
  assert (0 < scaled 1024) as H1024 by (apply scaled_pos; lia).
  intros Hx Hy Hv.
  destruct x as [sx|[]| |[] mx ex], y as [sy|[]| |[] my ey]; cbn in Hx, Hy; try contradiction;
    cbn [sf_value] in Hv;
    try pose proof (sf_value_finite _ _ Hx); try pose proof (sf_value_finite _ _ Hy);
    try lia; eauto.
  left. apply bounded_canonical in Hx as [Hx _], Hy as [Hy _].
  destruct (Z.compare_spec ex ey) as [->|Hlt|Hgt].
  - assert (-1074 <= ey) by (apply canonical_cases in Hy; lia).
    pose proof (scaled_pos ey ltac:(lia)).
    apply Z.mul_cancel_r in Hv; [|lia]. congruence.
  - pose proof (canonical_lt _ _ _ _ Hx Hy Hlt). lia.
  - pose proof (canonical_lt _ _ _ _ Hy Hx Hgt). lia.
Qed.

(** *** The sum of two floats *)

Lemma iter_xO m d : Z.pos (Pos.iter xO m d) = Z.pos m * 2 ^ Z.pos d.
Proof.
  induction d as [|d IH] using Pos.peano_ind.
  - cbn. lia.
  - rewrite Pos.iter_succ, Pos2Z.inj_succ, Z.pow_succ_r by lia.
    rewrite Pos2Z.inj_xO, IH. ring.
Qed.

Lemma digits2_pos_shift m m' d :
  0 <= d -> Z.pos m' = Z.pos m * 2 ^ d ->
  Z.pos (digits2_pos m') = Z.pos (digits2_pos m) + d.
Proof.
  intros Hd Hm. pose proof (digits2_pos_bounds m) as [Hlo Hhi].
  assert (0 < 2 ^ d) by (apply Z.pow_pos_nonneg; lia).
  assert (Z.pos (digits2_pos m') <= Z.pos (digits2_pos m) + d).
  { apply digits2_pos_le; [lia|]. rewrite Z.pow_add_r, Hm by lia.
    apply Z.mul_lt_mono_pos_r; lia. }
  assert (Z.pos (digits2_pos m) - 1 + d < Z.pos (digits2_pos m')).
  { apply digits2_pos_gt; [lia|]. rewrite Z.pow_add_r, Hm by lia.
    apply Z.mul_le_mono_nonneg_r; lia. }
  lia.
Qed.

(** Aligning a mantissa to a smaller exponent changes neither the value nor
    the magnitude. *)
Lemma shl_align_spec mx ex ex' :
  -1074 <= ex -> -1074 <= ex' ->
  (shl_align mx ex ex').2 = Z.min ex ex' ∧
  Z.pos (shl_align mx ex ex').1 * scaled (Z.min ex ex') = Z.pos mx * scaled ex ∧
  Z.pos (digits2_pos (shl_align mx ex ex').1) + Z.min ex ex' = Z.pos (digits2_pos mx) + ex.
Proof.
  intros Hex Hex'. unfold shl_align.
  destruct (ex' - ex) as [|d|d] eqn:Ed; cbn [fst snd].
  - rewrite Z.min_l by lia. auto.
  - rewrite Z.min_l by lia. auto.
  - rewrite Z.min_r by lia. pose proof (iter_xO mx d) as Hm.
    split_and!; [reflexivity| |].
    + rewrite Hm. replace ex with (ex' + Z.pos d) by lia.
      rewrite scaled_add by lia. ring.
    + rewrite (digits2_pos_shift mx _ (Z.pos d)) by (lia || exact Hm). lia.
Qed.

(** Rounding a positive integer multiple of a power of two. *)
Lemma binary_round_spec mx ex :
  -1074 <= ex ->
  ∃ v, representable v ∧ nearest v (Z.pos mx * scaled ex) 1 ∧
       sf_nonneg (binary_round prec emax false mx ex) ∧
       sf_value (binary_round prec emax false mx ex) = Z.min v (scaled 1024).
Proof.
  intros Hex. unfold binary_round.
  set (ex' := fexp prec emax (Z.pos (digits2_pos mx) + ex)).
  assert (-1074 <= ex') as Hex' by (unfold ex'; rewrite fexp_eq; lia).
  destruct (shl_align_spec mx ex ex' Hex Hex') as (He & Hv & Hd).
  destruct (shl_align mx ex ex') as [mz ez]. cbn [fst snd] in *. subst ez.
  apply binary_round_aux_spec; [lia|lia| |].
  - rewrite Hd. fold ex'. lia.
  - cbn [inbetween]. rewrite Z.mul_1_r. symmetry. exact Hv.
Qed.

(** The sum of two positive floats. *)
Lemma SFadd_spec m1 e1 m2 e2 :
  -1074 <= e1 -> -1074 <= e2 ->
  ∃ v, representable v ∧
       nearest v (Z.pos m1 * scaled e1 + Z.pos m2 * scaled e2) 1 ∧
       sf_nonneg (SFadd prec emax (S754_finite false m1 e1) (S754_finite false m2 e2)) ∧
       sf_value (SFadd prec emax (S754_finite false m1 e1) (S754_finite false m2 e2))
       = Z.min v (scaled 1024).
Proof.
  intros He1 He2. cbn [SFadd cond_Zopp].
  set (ez := Z.min e1 e2).
  assert (-1074 <= ez) as Hez by lia.
  destruct (shl_align_spec m1 e1 ez He1 Hez) as (_ & Hv1 & _).
  destruct (shl_align_spec m2 e2 ez He2 Hez) as (_ & Hv2 & _).
  rewrite Z.min_r in Hv1, Hv2 by lia.
  rewrite <- Hv1, <- Hv2, <- Z.mul_add_distr_r.
  rewrite <- Pos2Z.inj_add. cbn [binary_normalize].
  apply binary_round_spec. exact Hez.
Qed.

(** *** The quotient of 1 by a float *)

Lemma nearest_scale v N D c : 0 < c -> nearest v N D -> nearest v (N * c) (D * c).
Proof.
  intros Hc Hn g Hg. specialize (Hn g Hg).
  replace (v * (D * c) - N * c) with ((v * D - N) * c) by ring.
  replace (g * (D * c) - N * c) with ((g * D - N) * c) by ring.
  rewrite !Z.abs_mul, (Z.abs_eq c) by lia.
  apply Z.mul_le_mono_nonneg_r; lia.
Qed.

(** The location of a quotient from the remainder of the division. *)
Lemma new_location_inbetween q r nb e :
  0 <= r < nb -> -1074 <= e ->
  inbetween q e (new_location nb r) ((nb * q + r) * scaled e) nb.
Proof.
  intros Hr He. pose proof (scaled_pos e He) as Hs.
  assert (∀ c, (2 * r ?= nb) = c ->
            (2 * ((nb * q + r) * scaled e) ?= (2 * q + 1) * (scaled e * nb)) = c) as Hcmp.
  { intros c <-. destruct (Z.compare_spec (2 * r) nb) as [Heq|Hlt|Hgt].
    - apply Z.compare_eq_iff. rewrite <- Heq. ring.
    - apply Z.compare_lt_iff.
      assert (2 * r * scaled e < nb * scaled e) by (apply Z.mul_lt_mono_pos_r; lia). lia.
    - apply Z.compare_gt_iff.
      assert (nb * scaled e < 2 * r * scaled e) by (apply Z.mul_lt_mono_pos_r; lia). lia. }
  assert (r <> 0 ->
          q * (scaled e * nb) < (nb * q + r) * scaled e < (q + 1) * (scaled e * nb)) as Hin.
  { intros Hr0. assert (0 < r * scaled e) by (apply Z.mul_pos_pos; lia).
    assert (r * scaled e < nb * scaled e) by (apply Z.mul_lt_mono_pos_r; lia).
    lia. }
  unfold new_location, new_location_even, new_location_odd.
  destruct (Z.even nb) eqn:Ev; destruct (Z.eqb_spec r 0) as [->|Hr0]; cbn [inbetween].
  - ring.
  - split; [apply Hin; assumption|]. apply Hcmp. reflexivity.
  - ring.
  - split; [apply Hin; assumption|]. apply Hcmp.
    assert (Z.odd nb = true) as Hodd by (rewrite <- Z.negb_even, Ev; reflexivity).
    apply Z.odd_spec in Hodd as [k ->].
    destruct (Z.compare_spec (2 * r + 1) (2 * k + 1)).
    + apply Z.compare_lt_iff. lia.
    + apply Z.compare_lt_iff. lia.
    + apply Z.compare_gt_iff. lia.
Qed.

(** The quotient of 1 by a positive float. *)
Lemma SFdiv_one_spec m e :
  bounded prec emax m e = true ->
  ∃ v, representable v ∧
       nearest v (scaled 0 * scaled 0) (Z.pos m * scaled e) ∧
       sf_nonneg (SFdiv prec emax sf_one (S754_finite false m e)) ∧
       sf_value (SFdiv prec emax sf_one (S754_finite false m e))
       = Z.min v (scaled 1024).
Proof.
  intros Hb. apply bounded_canonical in Hb as [Hcan He].
  apply canonical_cases in Hcan.
  pose proof (digits2_pos_bounds m) as [Hlo Hhi].
  unfold sf_one. cbn [SFdiv xorb]. unfold SFdiv_core_binary. cbn [Zdigits2].
  change (Z.pos (digits2_pos 4503599627370496)) with 53.
  rewrite fexp_eq.
  set (d2 := Z.pos (digits2_pos m)) in *.
  assert (1 <= d2) as Hd2 by (unfold d2; lia).
  set (e' := Z.min (Z.max (53 + -52 - (d2 + e) - 53) (-1074)) (-52 - e)).
  assert (e' = Z.max (-52 - d2 - e) (-1074)) as He' by lia.
  set (s := -52 - e - e').
  assert (s = Z.min d2 (1022 - e)) as Hs by lia.
  destruct s as [|sp|sp] eqn:Es; [lia| |lia]. rewrite <- Es in *. clear Es sp.
  rewrite Z.shiftl_mul_pow2 by lia. change (Z.pos 4503599627370496) with (2 ^ 52).
  assert (0 < 2 ^ s) as Hps by (apply Z.pow_pos_nonneg; lia).
  (* the dividend exceeds the divisor *)
  assert (2 ^ d2 <= 2 ^ 52 * 2 ^ s) as Hnum.
  { rewrite <- Z.pow_add_r by lia. apply Z.pow_le_mono_r; lia. }
  pose proof (Z_div_mod (2 ^ 52 * 2 ^ s) (Z.pos m) ltac:(lia)) as Hdiv.
  destruct (Z.div_eucl (2 ^ 52 * 2 ^ s) (Z.pos m)) as [q r]. destruct Hdiv as [Hq Hr].
  assert (0 < q) as Hq0.
  { destruct (Z.lt_ge_cases 0 q) as [|Hle]; [assumption|exfalso].
    assert (Z.pos m * q <= Z.pos m * 0) by (apply Z.mul_le_mono_nonneg_l; lia). lia. }
  destruct q as [|qp|qp]; [lia| |lia].
  assert (-1074 <= e') as He'0 by lia.
  pose proof (new_location_inbetween (Z.pos qp) r (Z.pos m) e' Hr He'0) as Hin.
  rewrite <- Hq in Hin.
  assert (e' <= fexp prec emax (Z.pos (digits2_pos qp) + e')) as Hprec.
  { rewrite fexp_eq. destruct (Z.eq_dec e' (-1074)) as [->|Hne]; [lia|].
    assert (s = d2) as Hsd by lia. rewrite Hsd in *.
    assert (52 < Z.pos (digits2_pos qp)); [|lia].
    apply digits2_pos_gt; [lia|].
    destruct (Z.le_gt_cases (2 ^ 52) (Z.pos qp)) as [|Hsmall]; [assumption|exfalso].
    assert (Z.pos m * (Z.pos qp + 1) <= Z.pos m * 2 ^ 52)
      by (apply Z.mul_le_mono_nonneg_l; lia).
    assert (Z.pos m * 2 ^ 52 < 2 ^ d2 * 2 ^ 52) by (apply Z.mul_lt_mono_pos_r; lia).
    lia. }
  destruct (binary_round_aux_spec qp e' _ _ _ He'0 (eq_refl : 0 < Z.pos m) Hprec Hin)
    as (v & Hrep & Hnear & Hnn & Hval).
  exists v. split_and!; [exact Hrep| |exact Hnn|exact Hval].
  assert (-1074 <= e) as He0 by lia.
  apply (nearest_scale _ _ _ (scaled e) (scaled_pos e He0)) in Hnear.
  replace (2 ^ 52 * 2 ^ s * scaled e' * scaled e) with (scaled 0 * scaled 0) in Hnear.
  - exact Hnear.
  - unfold scaled. rewrite <- !Z.pow_add_r by lia. f_equal. lia.
Qed.

(** *** 1 + x and 1 / u on the floats that are not negative *)

Lemma representable_one : representable (scaled 0).
Proof. right. exists 4503599627370496%positive, (-52). split; reflexivity. Qed.

Lemma representable_least : representable 1.
Proof. right. exists 1%positive, (-1074). split; reflexivity. Qed.

Lemma representable_greatest : representable (9007199254740991 * scaled 971).
Proof. right. exists 9007199254740991%positive, 971. split; reflexivity. Qed.

(** 1 + x for a float x >= 0 *)
Lemma add_one_spec x :
  sf_nonneg x ->
  sf_nonneg (SFadd prec emax sf_one x) ∧
  scaled 0 <= sf_value (SFadd prec emax sf_one x) ∧
  (sf_value x < scaled 1024 -> sf_value (SFadd prec emax sf_one x) < scaled 1024).
Proof.
  assert (0 < scaled 1024) as H1024 by (apply scaled_pos; lia).
  intros Hx. destruct x as [s|[]| |[] m e]; cbn in Hx; try contradiction.
  - split_and!; [reflexivity|reflexivity|]. intros _. reflexivity.
  - split_and!; [exact I|cbn; discriminate|cbn; lia].
  - pose proof (sf_value_finite m e Hx) as Hfin.
    apply bounded_canonical in Hx as [Hcan He].
    assert (-1074 <= e) as He0 by (apply canonical_cases in Hcan; lia).
    destruct (SFadd_spec 4503599627370496 (-52) m e ltac:(lia) He0)
      as (v & Hrep & Hnear & Hnn & Hval).
    fold sf_one in Hnn, Hval.
    change (Z.pos 4503599627370496 * scaled (-52)) with (scaled 0) in Hnear.
    pose proof (Hnear _ representable_one) as H1.
    pose proof (Hnear _ representable_greatest) as Hmax.
    pose proof (scaled_le 0 1024 ltac:(lia) ltac:(lia)) as Hs0.
    rewrite Hval. split_and!; [exact Hnn|lia|]. intros _.
    assert (Z.pos m * scaled e <= 9007199254740991 * scaled 971) as Hle.
    { pose proof (digits2_pos_bounds m) as [_ Hhi]. apply canonical_cases in Hcan.
      assert (2 ^ Z.pos (digits2_pos m) <= 2 ^ 53) by (apply Z.pow_le_mono_r; lia).
      pose proof (scaled_le e 971 He0 He). pose proof (scaled_pos e He0).
      apply Z.mul_le_mono_nonneg; lia. }
    assert (9007199254740991 * scaled 971 + 2 * scaled 0 < scaled 1024) by reflexivity.
    pose proof (scaled_pos 0 ltac:(lia)). lia.
Qed.

Lemma add_one_monotone x y :
  sf_nonneg x -> sf_nonneg y -> sf_value x <= sf_value y ->
  sf_value (SFadd prec emax sf_one x) <= sf_value (SFadd prec emax sf_one y).
Proof.
  intros Hx Hy Hle.
  destruct (Z.eq_dec (sf_value x) (sf_value y)) as [Heq|Hne].
  { destruct (sf_value_inj x y Hx Hy Heq) as [->|(sx & sy & -> & ->)]; reflexivity. }
  destruct (add_one_spec y Hy) as (Hny & H1y & _).
  pose proof (sf_value_bounds _ Hny) as Hby.
  destruct x as [s|[]| |[] mx ex]; cbn in Hx; try contradiction.
  - exact H1y.
  - pose proof (sf_value_bounds y Hy). cbn [sf_value] in *. lia.
  - destruct y as [s|[]| |[] my ey]; cbn in Hy; try contradiction.
    + pose proof (sf_value_finite _ _ Hx). cbn [sf_value] in *. lia.
    + destruct (add_one_spec (S754_finite false mx ex) Hx) as (Hnx & _ & _).
      pose proof (sf_value_bounds _ Hnx).
      change (SFadd prec emax sf_one (S754_infinity false)) with (S754_infinity false).
      cbn [sf_value]. lia.
    + cbn [sf_value] in Hle, Hne.
      apply bounded_canonical in Hx as [Hcx _], Hy as [Hcy _].
      assert (-1074 <= ex) as Hex by (apply canonical_cases in Hcx; lia).
      assert (-1074 <= ey) as Hey by (apply canonical_cases in Hcy; lia).
      destruct (SFadd_spec 4503599627370496 (-52) mx ex ltac:(lia) Hex)
        as (v1 & Hr1 & Hn1 & _ & Hv1).
      destruct (SFadd_spec 4503599627370496 (-52) my ey ltac:(lia) Hey)
        as (v2 & Hr2 & Hn2 & _ & Hv2).
      fold sf_one in Hv1, Hv2. rewrite Hv1, Hv2.
      assert (v1 <= v2); [|lia].
      apply (nearest_monotone v1 v2 _ 1 _ 1 ltac:(lia) ltac:(lia) Hr1 Hr2 Hn1 Hn2). lia.
Qed.

(** 1 / u for a float u >= 1 *)
Lemma div_one_spec u :
  sf_nonneg u -> scaled 0 <= sf_value u ->
  sf_nonneg (SFdiv prec emax sf_one u) ∧
  sf_value (SFdiv prec emax sf_one u) <= scaled 0 ∧
  (sf_value u < scaled 1024 -> 0 < sf_value (SFdiv prec emax sf_one u)).
Proof.
  assert (0 < scaled 0) as H0 by (apply scaled_pos; lia).
  intros Hu H1. destruct u as [s|[]| |[] m e]; cbn [sf_nonneg] in Hu; try contradiction.
  - change (SFdiv prec emax sf_one (S754_infinity false)) with (S754_zero false).
    cbn [sf_value sf_nonneg]. split_and!; [exact I|lia|lia].
  - pose proof (sf_value_finite m e Hu) as Hfin. cbn [sf_value] in H1.
    destruct (SFdiv_one_spec m e Hu) as (v & Hrep & Hnear & Hnn & Hval).
    pose proof (Hnear _ representable_one) as Hone.
    pose proof (Hnear _ representable_least) as Hleast.
    set (D := Z.pos m * scaled e) in *.
    assert (scaled 0 * scaled 0 <= scaled 0 * D) by (apply Z.mul_le_mono_nonneg_l; lia).
    assert (v <= scaled 0) as Hv1.
    { apply (mul_le_cancel _ _ D); lia. }
    assert (0 < v) as Hv0.
    { destruct Hrep as [->|(mv & ev & Hcv & ->)].
      - exfalso. assert (scaled 1024 < scaled 0 * scaled 0) by reflexivity. lia.
      - assert (-1074 <= ev) by (apply canonical_cases in Hcv; lia).
        pose proof (scaled_pos ev ltac:(lia)). lia. }
    rewrite Hval. split_and!; [exact Hnn|lia|]. intros _.
    pose proof (scaled_pos 1024 ltac:(lia)). lia.
Qed.

Lemma div_one_antitone u1 u2 :
  sf_nonneg u1 -> sf_nonneg u2 -> 0 < sf_value u1 <= sf_value u2 ->
  sf_value (SFdiv prec emax sf_one u2) <= sf_value (SFdiv prec emax sf_one u1).
Proof.
  assert (0 < scaled 0) as H0 by (apply scaled_pos; lia).
  intros Hu1 Hu2 [Hpos Hle].
  destruct (Z.eq_dec (sf_value u1) (sf_value u2)) as [Heq|Hne].
  { destruct (sf_value_inj u1 u2 Hu1 Hu2 Heq) as [->|(sx & sy & -> & ->)];
      [reflexivity|cbn [sf_value] in Hpos; lia]. }
  destruct u1 as [s|[]| |[] m1 e1]; cbn in Hu1; try contradiction.
  - cbn [sf_value] in *. lia.
  - pose proof (sf_value_bounds u2 Hu2). cbn [sf_value] in *. lia.
  - destruct u2 as [s|[]| |[] m2 e2]; cbn in Hu2; try contradiction.
    + cbn [sf_value] in *. lia.
    + destruct (SFdiv_one_spec m1 e1 Hu1) as (v1 & _ & _ & Hnn & _).
      pose proof (sf_value_bounds _ Hnn).
      change (SFdiv prec emax sf_one (S754_infinity false)) with (S754_zero false).
      cbn [sf_value]. lia.
    + cbn [sf_value] in Hle, Hne, Hpos.
      destruct (SFdiv_one_spec m1 e1 Hu1) as (v1 & Hr1 & Hn1 & _ & Hv1).
      destruct (SFdiv_one_spec m2 e2 Hu2) as (v2 & Hr2 & Hn2 & _ & Hv2).
      rewrite Hv1, Hv2.
      pose proof (sf_value_finite _ _ Hu1) as [Hp1 _].
      pose proof (sf_value_finite _ _ Hu2) as [Hp2 _].
      assert (v2 <= v1); [|lia].
      apply (nearest_monotone v2 v1 _ _ _ _ Hp2 Hp1 Hr2 Hr1 Hn2 Hn1).
      apply Z.mul_lt_mono_pos_l; [|lia]. apply Z.mul_pos_pos; lia.
Qed.

(** *** The score of a distance *)

(** What is not below a non-negative float is a non-negative float. *)
Lemma sf_nonneg_above x y :
  sf_nonneg x -> valid_binary y = true -> SFleb x y = true -> sf_nonneg y.
Proof.
  destruct x as [sx|[]| |[] mx ex], y as [sy|[]| |[] my ey]; cbn; intros Hx Hy Hle;
    solve [exact I|contradiction|discriminate|exact Hy].
Qed.

Lemma float_nonneg d : (0 <=? d)%float = true -> sf_nonneg (Prim2SF d).
Proof.
  rewrite FloatAxioms.leb_spec. intros Hle.
  apply (sf_nonneg_above (Prim2SF 0)); [exact I|apply Prim2SF_valid|exact Hle].
Qed.

Lemma float_nonneg_one_plus d :
  sf_nonneg (Prim2SF d) ->
  sf_nonneg (Prim2SF (1 + d)) ∧ scaled 0 <= sf_value (Prim2SF (1 + d)) ∧
  (sf_value (Prim2SF d) < scaled 1024 -> sf_value (Prim2SF (1 + d)) < scaled 1024).
Proof. intros Hd. rewrite add_spec. apply (add_one_spec _ Hd). Qed.

(** The score of a non-negative distance lies in [0, 1], and is not 0 when
    the distance is finite. *)
Lemma score_range (d : float) :
  (0 <=? d)%float = true ->
  (0 <=? 1 / (1 + d))%float = true ∧ (1 / (1 + d) <=? 1)%float = true ∧
  ((d <? infinity)%float = true -> (0 <? 1 / (1 + d))%float = true).
Proof.
  intros Hd. apply float_nonneg in Hd.
  destruct (float_nonneg_one_plus d Hd) as (Hu & Hu1 & Hufin).
  destruct (div_one_spec _ Hu Hu1) as (Hs & Hs1 & Hs0).
  rewrite !FloatAxioms.leb_spec, !FloatAxioms.ltb_spec, div_spec.
  change (SF64div (Prim2SF 1)) with (SFdiv prec emax sf_one).
  split_and!.
  - apply SFleb_value; [exact I|exact Hs|]. apply (sf_value_bounds _ Hs).
  - apply SFleb_value; [exact Hs|reflexivity|exact Hs1].
  - intros Hfin. apply SFltb_value in Hfin; [|exact Hd|exact I].
    apply SFltb_value; [exact I|exact Hs|]. apply Hs0, Hufin, Hfin.
Qed.

(** A larger distance never has a larger score. *)
Lemma score_antitone (d1 d2 : float) :
  (0 <=? d1)%float = true -> (d1 <=? d2)%float = true ->
  (1 / (1 + d2) <=? 1 / (1 + d1))%float = true.
Proof.
  intros H1 H12. apply float_nonneg in H1.
  rewrite FloatAxioms.leb_spec in H12.
  pose proof (sf_nonneg_above _ _ H1 (Prim2SF_valid d2) H12) as H2.
  apply SFleb_value in H12; [|assumption..].
  destruct (float_nonneg_one_plus d1 H1) as (Hu1 & Hu1' & _).
  destruct (float_nonneg_one_plus d2 H2) as (Hu2 & Hu2' & _).
  destruct (div_one_spec _ Hu1 Hu1') as (Hs1 & _ & _).
  destruct (div_one_spec _ Hu2 Hu2') as (Hs2 & _ & _).
  rewrite FloatAxioms.leb_spec, !div_spec.
  change (SF64div (Prim2SF 1)) with (SFdiv prec emax sf_one).
  apply SFleb_value; [exact Hs2|exact Hs1|].
  pose proof (scaled_pos 0 ltac:(lia)).
  apply div_one_antitone; [exact Hu1|exact Hu2|]. split; [lia|].
  rewrite !add_spec. apply add_one_monotone; assumption.
Qed.

(** With a distance that is not negative the divisor of the score is not 0,
    and [search] does not raise [ZeroDivisionError]. *)
Lemma one_plus_nonzero (d : float) :
  (0 <=? d)%float = true -> (1 + d =? 0)%float = false.
Proof.
  intros Hd. apply float_nonneg in Hd.
  destruct (float_nonneg_one_plus d Hd) as (Hu & Hu1 & _).
  rewrite FloatAxioms.eqb_spec. unfold SFeqb.
  rewrite (SFcompare_value _ (Prim2SF 0) Hu I).
  pose proof (scaled_pos 0 ltac:(lia)).
  change (sf_value (Prim2SF 0)) with 0.
  destruct (Z.compare_spec (sf_value (Prim2SF (1 + d))) 0); [lia|lia|reflexivity].
Qed.

End FloatRounding.

(** ** Lists *)

Module ListFacts.

Lemma StronglySorted_fmap_inv {A B} (f : A → B) (R : relation B) (l : list A) :
  StronglySorted R (f <$> l) -> StronglySorted (λ a b, R (f a) (f b)) l.
Proof.
  induction l as [|x l IH]; [constructor|]. rewrite fmap_cons.
  intros [Hs Hall]%StronglySorted_inv. constructor; [by auto|].
  by rewrite Forall_fmap in Hall.
Qed.

Lemma StronglySorted_Forall2 {A B} (Q : A → B → Prop) (R1 : relation A) (R2 : relation B) l k :
  (∀ a b c d, Q a c -> Q b d -> R1 a b -> R2 c d) ->
  Forall2 Q l k -> StronglySorted R1 l -> StronglySorted R2 k.
Proof.
  intros HR. induction 1 as [|a c l k Hac Hlk IH]; [constructor|].
  intros [Hs Hall]%StronglySorted_inv. constructor; [by auto|].
  apply Forall_forall. intros d Hd. apply list_elem_of_lookup in Hd as [i Hi].
  destruct (Forall2_lookup_r _ _ _ _ _ Hlk Hi) as (b & Hb & Hbd).
  eapply HR; [done..|]. rewrite Forall_forall in Hall. apply Hall.
  by eapply list_elem_of_lookup_2.
Qed.

Lemma fmap_section {A B} (f : A → B) (g : B → A) (l : list B) :
  Forall (λ x, x = f (g x)) l -> l = f <$> (g <$> l).
Proof.
  induction 1 as [|x l Hx _ IH]; [done|]. rewrite !fmap_cons. by f_equal.
Qed.

Lemma filter_all {A} (P : A → Prop) `{!∀ x, Decision (P x)} (l : list A) :
  (∀ x, P x) -> filter P l = l.
Proof.
  intros HP. induction l as [|x l IH]; [done|]. rewrite filter_cons_True by done. by f_equal.
Qed.

Lemma filter_head {A} (P : A → Prop) `{!∀ x, Decision (P x)} (l : list A) x :
  x ∈ l -> P x -> ∃ y rest, filter P l = y :: rest ∧ y ∈ l ∧ P y.
Proof.
  intros Hin HP. destruct (filter P l) as [|y rest] eqn:Hf.
  - exfalso. by eapply filter_nil_not_elem_of.
  - exists y, rest. split; [done|].
    assert (y ∈ filter P l) as Hy by (rewrite Hf; left).
    by apply list_elem_of_filter in Hy as [? ?].
Qed.

Lemma length_filter_partition {A} (P : A → Prop) `{∀ x, Decision (P x)} (l : list A) :
  (length (filter P l) + length (filter (λ x, ¬ P x) l) = length l)%nat.
Proof.
  induction l as [|x l IH]; [reflexivity|].
  rewrite !filter_cons. destruct (decide (P x)) as [HP|HP].
  - rewrite decide_False by tauto. cbn. lia.
  - rewrite decide_True by tauto. cbn. lia.
Qed.

Lemma filter_none {A} (P : A → Prop) `{∀ x, Decision (P x)} (l : list A) :
  (∀ x, x ∈ l -> ¬ P x) -> filter P l = [].
Proof.
  intros Hl. induction l as [|x l IH]; [done|].
  rewrite filter_cons, decide_False by (apply Hl; left).
  apply IH. intros y Hy. apply Hl. by right.
Qed.

End ListFacts.

(** ** The vector store *)

Module VectorStoreFacts.
Import DatetimeFacts MonadFacts ListFacts FloatOrder FloatRounding VectorStore.

(** *** Rows and documents *)

Lemma or_empty_None : or_empty None = "".
Proof. reflexivity. Qed.

Lemma or_empty_empty : or_empty (Some "") = "".
Proof. reflexivity. Qed.

Lemma or_none_empty : or_none "" = None.
Proof. reflexivity. Qed.

Lemma or_none_no_empty s : no_empty_string (or_none s).
Proof.
  unfold no_empty_string, or_none. destruct (String.eqb_spec s ""); congruence.
Qed.

(** What is read back for an optional text field that was written. *)
Lemma or_none_or_empty x :
  or_none (or_empty x) = match x with Some "" => None | _ => x end.
Proof.
  destruct x as [s|]; [|done]. unfold or_empty, or_none.
  destruct (String.eqb_spec s "") as [->|Hne]; [done|].
  destruct (String.eqb_spec s ""); [done|]. by destruct s.
Qed.

Lemma to_document_Ok r doc :
  to_document r = Ok doc ->
  Document.id doc = id r ∧
  DocumentMetadata.project_path (Document.metadata doc) = or_none (project_path r) ∧
  DocumentMetadata.conversation_id (Document.metadata doc) = or_none (conversation_id r).
Proof.
  unfold to_document, mbind, result_bind.
  destruct (Datetime.fromisoformat (created_at r)); [|done].
  destruct (extra r) as [|[]]; try done; by intros [= <-].
Qed.

Lemma to_document_to_row document embedding :
  Datetime.datetime_ok (DocumentMetadata.created_at (Document.metadata document)) ->
  to_document (to_row document embedding)
  = Ok (Document.mk (Document.id document) (Document.text document)
          (DocumentMetadata.mk
             (DocumentMetadata.source (Document.metadata document))
             (or_none (or_empty (DocumentMetadata.project_path (Document.metadata document))))
             (or_none (or_empty (DocumentMetadata.conversation_id (Document.metadata document))))
             (DocumentMetadata.chunk_index (Document.metadata document))
             (DocumentMetadata.created_at (Document.metadata document))
             (DocumentMetadata.extra (Document.metadata document)))
          None).
Proof.
  intros Hok. unfold to_document, to_row, mbind, result_bind.
  cbn [created_at extra id text source project_path conversation_id chunk_index json_dumps].
  by rewrite fromisoformat_isoformat.
Qed.

Lemma to_search_result_Ok h res :
  to_search_result h = Ok res ->
  to_document h.1 = Ok (SearchResult.document res) ∧
  SearchResult.distance res = default 0%float h.2 ∧
  SearchResult.score res = (1 / (1 + SearchResult.distance res))%float.
Proof.
  unfold to_search_result, float_div, mbind, result_bind.
  destruct (to_document h.1) as [doc|e]; [|done].
  destruct (1 + default 0 h.2 =? 0)%float; [done|].
  intros [= <-]. done.
Qed.

Lemma search_results_Ok hits rs :
  search_results hits = Ok rs ->
  Forall2 (λ h res, to_search_result h = Ok res) hits rs.
Proof.
  revert rs. induction hits as [|h hits IH]; intros rs; cbn [search_results].
  - intros [= <-]. constructor.
  - unfold mbind, result_bind.
    destruct (to_search_result h) as [res|e] eqn:Hres; [|done].
    destruct (search_results hits) as [rest|e] eqn:Hrest; [|done].
    intros [= <-]. constructor; [done|]. by apply IH.
Qed.

Lemma search_results_total hits :
  Forall (λ h : hit, (∃ doc, to_document h.1 = Ok doc) ∧
                     (1 + default 0 h.2 =? 0)%float = false) hits ->
  ∃ rs, search_results hits = Ok rs.
Proof.
  induction 1 as [|h hits [[doc Hdoc] Hdiv] _ [rs Hrs]]; [by exists []|].
  eexists. cbn [search_results]. unfold to_search_result, float_div, mbind, result_bind.
  rewrite Hdoc, Hdiv, Hrs. done.
Qed.

Section Engine.
Variable dimension : Z.
Variable metric : list float → list float → float.
Variable sql_where : string → option (row → bool).
Variable scan_limit : option nat.
Variable nearest : list float → option Z → option (row → bool) → t → result (list row).

Abbreviation reads_as := (VectorStore.reads_as sql_where).
Abbreviation parse := (VectorStore.parse sql_where).
Abbreviation to_list := (VectorStore.to_list metric sql_where scan_limit nearest).
Abbreviation table_delete := (VectorStore.table_delete sql_where).
Abbreviation fits := (VectorStore.fits dimension).
Abbreviation merge_insert := (VectorStore.merge_insert dimension).
Abbreviation add := (VectorStore.add dimension).
Abbreviation search := (VectorStore.search metric sql_where scan_limit nearest).
Abbreviation get := (VectorStore.get metric sql_where scan_limit nearest).
Abbreviation delete := (VectorStore.delete sql_where).
Abbreviation delete_by_conversation :=
  (VectorStore.delete_by_conversation metric sql_where scan_limit nearest).
Abbreviation result_of := (VectorStore.result_of metric).
Abbreviation scanned n := (match scan_limit with Some k => k `min` n | None => n end)%nat.

Lemma run_add document embedding tbl :
  run (add document embedding) tbl
  = if fits (to_row document embedding)
    then (Ok tt, filter (λ r, id r ∉ [Document.id document]) tbl ++ [to_row document embedding])
    else (Raise EngineError, tbl).
Proof.
  unfold VectorStore.add, _ensure_connected, update, VectorStore.merge_insert.
  rewrite run_bind, run_ret. cbn [forallb run fmap list_fmap to_row id].
  rewrite andb_true_r. by destruct (VectorStore.fits _ _).
Qed.

(** *** delete and delete_by_conversation *)

Lemma run_delete_document id tbl :
  run (delete id) tbl
  = match sql_where (id_expr id) with
    | Some f => (Ok true, filter (λ r, f r ≠ true) tbl)
    | None => (Raise EngineError, tbl)
    end.
Proof.
  unfold VectorStore.delete, _ensure_connected, update, VectorStore.table_delete.
  rewrite run_bind, run_ret, run_bind. cbn [run].
  by destruct (sql_where _).
Qed.

(** [delete] returns [True] whenever it returns, whatever is stored; it
    returns when the engine accepts the filter built from the id, and raises
    and leaves the table as it is when the engine refuses it. *)
Theorem delete_returns_true (id : string) (tbl : t) :
  (∀ b tbl', run (delete id) tbl = (Ok b, tbl') -> b = true) ∧
  (∀ f, sql_where (id_expr id) = Some f ->
     run (delete id) tbl = (Ok true, filter (λ r, f r ≠ true) tbl)) ∧
  (sql_where (id_expr id) = None -> run (delete id) tbl = (Raise EngineError, tbl)).
Proof.
  rewrite run_delete_document. split_and!.
  - intros b tbl'. destruct (sql_where _); by intros [= <- _].
  - by intros f ->.
  - by intros ->.
Qed.

Lemma run_delete_by_conversation c tbl :
  run (delete_by_conversation c) tbl
  = match sql_where (conversation_expr c) with
    | Some f =>
        (Ok (Z.of_nat (scanned (length (filter (λ r, f r = true) tbl)))),
         filter (λ r, f r ≠ true) tbl)
    | None => (Raise EngineError, tbl)
    end.
Proof.
  unfold VectorStore.delete_by_conversation, _ensure_connected, ask, update,
    VectorStore.table_delete, VectorStore.to_list, VectorStore.parse.
  unfold run, mbind, M_bind, mret, M_ret.
  cbn [q_where q_vector q_limit where_ search_].
  destruct (sql_where _) as [f|]; [|done].
  rewrite length_fmap. destruct scan_limit as [k|]; [|done]. by rewrite length_take.
Qed.

(** C2, amended. For a conversation id [c] whose filter
    [conversation_id = 'c'] the engine reads as that equality,
    [delete_by_conversation(c)] removes every stored row whose
    [conversation_id] equals [c] and no other row. The number it returns is
    the number of rows its count query returned: the number of rows removed
    when the plain query of the engine returns them all, and the limit of
    that query when more rows than that are removed. *)
Theorem delete_by_conversation_exact (c : string) (tbl : t) :
  reads_as ("conversation_id = '" ++ c ++ "'") (λ r, String.eqb (conversation_id r) c) ->
  ∃ n tbl' removed,
    run (delete_by_conversation c) tbl = (Ok n, tbl') ∧
    tbl' = filter (λ r, conversation_id r ≠ c) tbl ∧
    removed = length (filter (λ r, conversation_id r = c) tbl) ∧
    (length tbl' + removed = length tbl)%nat ∧
    n = Z.of_nat (scanned removed) ∧
    0 <= n <= Z.of_nat removed ∧
    (match scan_limit with Some k => (removed ≤ k)%nat | None => True end ->
     n = Z.of_nat removed).
Proof.
  intros (f & Hf & Htest).
  change ("conversation_id = '" ++ c ++ "'")%string with (conversation_expr c) in Hf.
  rewrite run_delete_by_conversation, Hf.
  assert (filter (λ r, f r = true) tbl = filter (λ r, conversation_id r = c) tbl) as ->.
  { apply list_filter_iff. intros r. by rewrite Htest, String.eqb_eq. }
  assert (filter (λ r, f r ≠ true) tbl = filter (λ r, conversation_id r ≠ c) tbl) as ->.
  { apply list_filter_iff. intros r. by rewrite Htest, String.eqb_eq. }
  eexists _, _, _. split_and!; try reflexivity.
  - pose proof (length_filter_partition (λ r, conversation_id r = c) tbl) as Hpart.
    cbv beta in Hpart. lia.
  - destruct scan_limit; lia.
  - destruct scan_limit; lia.
  - destruct scan_limit; lia.
Qed.

(** *** search *)

Abbreviation ranked_hits embedding rows :=
  ((λ r : row, (r, Some (metric embedding (vector r)))) <$> rows).

Lemma run_search embedding limit_ filter_expr tbl :
  run (search embedding limit_ filter_expr) tbl
  = (match parse (passed_filter filter_expr) with
     | Raise e => Raise e
     | Ok test =>
         match nearest embedding (Some limit_) test tbl with
         | Ok rows => search_results (ranked_hits embedding rows)
         | Raise e => Raise e
         end
     end, tbl).
Proof.
  unfold VectorStore.search, _ensure_connected, ask, lift, VectorStore.to_list, passed_filter.
  unfold run, mbind, M_bind, mret, M_ret.
  destruct filter_expr as [expr|]; [destruct (String.eqb expr "")|];
    cbn [q_where q_vector q_limit limit where_ search_ VectorStore.parse];
    try destruct (sql_where expr); try done;
    by destruct (nearest _ _ _ _).
Qed.

Lemma search_Ok embedding limit_ filter_expr tbl results tbl' :
  run (search embedding limit_ filter_expr) tbl = (Ok results, tbl') ->
  ∃ test rows,
    parse (passed_filter filter_expr) = Ok test ∧
    nearest embedding (Some limit_) test tbl = Ok rows ∧
    search_results (ranked_hits embedding rows) = Ok results ∧
    tbl' = tbl.
Proof.
  rewrite run_search. intros [= Hres <-].
  destruct (parse _) as [test|] eqn:Htest; [|done].
  destruct (nearest _ _ _ _) as [rows|] eqn:Hrows; [|done]. by exists test, rows.
Qed.

Lemma search_results_of embedding rows results :
  search_results (ranked_hits embedding rows) = Ok results ->
  Forall2 (result_of embedding) rows results.
Proof.
  intros Hres. apply search_results_Ok in Hres.
  apply Forall2_fmap_l in Hres. eapply Forall2_impl; [exact Hres|].
  intros r res Hr. cbv beta in Hr. apply to_search_result_Ok in Hr as (Hdoc & Hd & Hsc).
  cbn [fst snd default] in *. by split_and!.
Qed.


Lemma search_score embedding limit_ filter_expr tbl results tbl' :
  run (search embedding limit_ filter_expr) tbl = (Ok results, tbl') ->
  Forall (λ r, SearchResult.score r
               = (1 / (1 + SearchResult.distance r))%float) results.
Proof.
  intros (test & rows & _ & _ & Hres & _)%search_Ok. apply search_results_Ok in Hres.
  apply Forall_forall. intros res Hin. apply list_elem_of_lookup in Hin as [i Hi].
  destruct (Forall2_lookup_r _ _ _ _ _ Hres Hi) as (h & _ & Hh).
  by apply to_search_result_Ok in Hh as (_ & _ & ?).
Qed.

(** C4, amended. Every [SearchResult] that [search] produces has
    [score = 1.0 / (1.0 + distance)], computed in binary64. Hence whenever
    [distance >= 0] the score lies in [[0, 1]], and it is not 0 when the
    distance is finite; and of any two results, of this search or of another,
    the one with the greater distance has a score that is smaller or equal. *)
Theorem search_score_formula embedding limit_ filter_expr tbl results tbl' res :
  run (search embedding limit_ filter_expr) tbl = (Ok results, tbl') ->
  res ∈ results ->
  SearchResult.score res = (1 / (1 + SearchResult.distance res))%float ∧
  ((0 <=? SearchResult.distance res)%float = true ->
     (0 <=? SearchResult.score res)%float = true ∧
     (SearchResult.score res <=? 1)%float = true ∧
     ((SearchResult.distance res <? infinity)%float = true ->
        (0 <? SearchResult.score res)%float = true)) ∧
  (∀ embedding2 limit2 filter_expr2 tbl2 results2 tbl2' res2,
     run (search embedding2 limit2 filter_expr2) tbl2 = (Ok results2, tbl2') ->
     res2 ∈ results2 ->
     (0 <=? SearchResult.distance res)%float = true ->
     (SearchResult.distance res <=? SearchResult.distance res2)%float = true ->
     (SearchResult.score res2 <=? SearchResult.score res)%float = true).
Proof.
  intros Hrun Hin.
  assert (∀ e l f t rs t' r, run (search e l f) t = (Ok rs, t') -> r ∈ rs ->
            SearchResult.score r = (1 / (1 + SearchResult.distance r))%float) as Hformula.
  { intros e l f t rs t' r Hr Hr'. pose proof (search_score _ _ _ _ _ _ Hr) as Hall.
    rewrite Forall_forall in Hall. by apply Hall. }
  rewrite (Hformula _ _ _ _ _ _ _ Hrun Hin). split_and!.
  - reflexivity.
  - apply score_range.
  - intros embedding2 limit2 filter_expr2 tbl2 results2 tbl2' res2 Hrun2 Hin2 Hpos Hle.
    rewrite (Hformula _ _ _ _ _ _ _ Hrun2 Hin2). by apply score_antitone.
Qed.

(** *** get, and the optional text fields *)

Lemma run_get_document id tbl :
  run (get id) tbl
  = (match sql_where (id_expr id) with
     | None => Raise EngineError
     | Some f =>
         match filter (λ r, f r = true) tbl with
         | [] => Ok None
         | r :: _ => doc ← to_document r; Ok (Some doc)
         end
     end, tbl).
Proof.
  unfold VectorStore.get, _ensure_connected, ask, lift, VectorStore.to_list.
  unfold run, mbind at 1 2, M_bind, mret, M_ret.
  cbn [q_where q_vector q_limit limit where_ search_ VectorStore.parse].
  destruct (sql_where _) as [f|]; [|done].
  change (Z.to_nat 1) with 1%nat.
  destruct (filter _ tbl) as [|r rest]; [done|].
  cbn [take fmap list_fmap fst]. unfold mbind, M_bind, result_bind.
  by destruct (to_document r).
Qed.

Lemma get_from_row id tbl doc tbl' :
  run (get id) tbl = (Ok (Some doc), tbl') -> ∃ r, to_document r = Ok doc.
Proof.
  rewrite run_get_document. destruct (sql_where _) as [f|]; [|done].
  destruct (filter _ tbl) as [|r rest] eqn:Hf; [done|].
  unfold mbind, result_bind. destruct (to_document r) as [d|] eqn:Hd; [|done].
  intros [= <- _]. by exists r.
Qed.

Lemma search_from_row embedding limit_ filter_expr tbl results tbl' res :
  run (search embedding limit_ filter_expr) tbl = (Ok results, tbl') ->
  res ∈ results -> ∃ r, to_document r = Ok (SearchResult.document res).
Proof.
  intros (test & rows & _ & _ & Hres & _)%search_Ok Hin.
  apply search_results_Ok in Hres. apply list_elem_of_lookup in Hin as [i Hi].
  destruct (Forall2_lookup_r _ _ _ _ _ Hres Hi) as (h & Hh & Hhr).
  apply to_search_result_Ok in Hhr as (Hdoc & _). by exists h.1.
Qed.

Lemma filter_after_add (f : row → bool) i r (tbl : t) :
  (∀ x, f x = String.eqb (id x) i) -> id r = i ->
  filter (λ x, f x = true) (filter (λ x, id x ∉ [i]) tbl ++ [r]) = [r].
Proof.
  intros Hf Hid. rewrite filter_app.
  rewrite (filter_none (λ x, f x = true)); last first.
  { intros x [Hx _]%list_elem_of_filter. rewrite Hf. intros Heq%String.eqb_eq.
    apply Hx. rewrite Heq. left. }
  rewrite filter_cons, decide_True; [done|]. rewrite Hf. by apply String.eqb_eq.
Qed.

(** [get] after [add] returns the document that was added, with the empty
    string in the optional text fields read back as [None]. *)
Lemma add_get document embedding tbl :
  reads_as (id_expr (Document.id document)) (λ r, String.eqb (id r) (Document.id document)) ->
  fits (to_row document embedding) = true ->
  run (add document embedding;; get (Document.id document)) tbl
  = (to_document (to_row document embedding) ≫= λ doc, Ok (Some doc),
     filter (λ r, id r ∉ [Document.id document]) tbl ++ [to_row document embedding]).
Proof.
  intros (f & Hf & Htest) Hfits. rewrite run_bind, run_add, Hfits, run_get_document, Hf.
  by rewrite (filter_after_add f _ (to_row document embedding)).
Qed.

(** C10. [add] stores a [project_path] or [conversation_id] that is [None]
    or the empty string as the empty string; every row is read back with the
    empty string turned into [None], so no document returned by [get] or
    [search] carries the empty string in either field; and a document added
    with the empty string there is returned by [get] with [None], unless the
    engine refuses its row, which does not fit the schema of the table. *)
Theorem empty_string_read_as_None :
  (∀ document embedding,
     let metadata := Document.metadata document in
     let r := to_row document embedding in
     (DocumentMetadata.project_path metadata = None ∨
      DocumentMetadata.project_path metadata = Some "" -> project_path r = "") ∧
     (DocumentMetadata.conversation_id metadata = None ∨
      DocumentMetadata.conversation_id metadata = Some "" -> conversation_id r = "")) ∧
  (∀ r doc,
     to_document r = Ok doc ->
     let metadata := Document.metadata doc in
     no_empty_string (DocumentMetadata.project_path metadata) ∧
     no_empty_string (DocumentMetadata.conversation_id metadata) ∧
     (project_path r = "" -> DocumentMetadata.project_path metadata = None) ∧
     (conversation_id r = "" -> DocumentMetadata.conversation_id metadata = None)) ∧
  (∀ id tbl doc tbl',
     run (get id) tbl = (Ok (Some doc), tbl') ->
     no_empty_string (DocumentMetadata.project_path (Document.metadata doc)) ∧
     no_empty_string (DocumentMetadata.conversation_id (Document.metadata doc))) ∧
  (∀ embedding limit_ filter_expr tbl results tbl' res,
     run (search embedding limit_ filter_expr) tbl = (Ok results, tbl') ->
     res ∈ results ->
     let metadata := Document.metadata (SearchResult.document res) in
     no_empty_string (DocumentMetadata.project_path metadata) ∧
     no_empty_string (DocumentMetadata.conversation_id metadata)) ∧
  (∀ document embedding tbl,
     reads_as (id_expr (Document.id document))
              (λ r, String.eqb (id r) (Document.id document)) ->
     Datetime.datetime_ok (DocumentMetadata.created_at (Document.metadata document)) ->
     (fits (to_row document embedding) = false ->
      run (add document embedding;; get (Document.id document)) tbl
      = (Raise EngineError, tbl)) ∧
     (fits (to_row document embedding) = true ->
      ∃ doc tbl',
        run (add document embedding;; get (Document.id document)) tbl
        = (Ok (Some doc), tbl') ∧
        Document.id doc = Document.id document ∧
        (DocumentMetadata.project_path (Document.metadata document) = Some "" ->
         DocumentMetadata.project_path (Document.metadata doc) = None) ∧
        (DocumentMetadata.conversation_id (Document.metadata document) = Some "" ->
         DocumentMetadata.conversation_id (Document.metadata doc) = None))).
Proof.
  assert (∀ r doc, to_document r = Ok doc ->
            no_empty_string (DocumentMetadata.project_path (Document.metadata doc)) ∧
            no_empty_string (DocumentMetadata.conversation_id (Document.metadata doc)))
    as Hread.
  { intros r doc (_ & -> & ->)%to_document_Ok. split; apply or_none_no_empty. }
  split_and!.
  - intros document embedding. cbn zeta. cbn [to_row project_path conversation_id].
    split; intros [-> | ->]; reflexivity.
  - intros r doc Hdoc. cbn zeta. destruct (Hread r doc Hdoc) as [? ?].
    apply to_document_Ok in Hdoc as (_ & Hpp & Hcid).
    split_and!; [done|done|..].
    + intros Hr. by rewrite Hpp, Hr.
    + intros Hr. by rewrite Hcid, Hr.
  - intros id tbl doc tbl' (r & Hdoc)%get_from_row. by eapply Hread.
  - intros embedding limit_ filter_expr tbl results tbl' res Hrun Hin.
    destruct (search_from_row _ _ _ _ _ _ _ Hrun Hin) as (r & Hdoc).
    by eapply Hread.
  - intros document embedding tbl Hengine Hok. split; intros Hfits.
    { by rewrite run_bind, run_add, Hfits. }
    eexists _, _. rewrite add_get by done.
    rewrite to_document_to_row by done. split; [reflexivity|].
    cbn [Document.id Document.metadata DocumentMetadata.project_path
         DocumentMetadata.conversation_id].
    split_and!; [done|by intros ->..].
Qed.

End Engine.

End VectorStoreFacts.
(** ** Laws of lists *)

Module ListLaws.
Import ListFacts.

Lemma filter_all_of {A} (P : A → Prop) `{∀ x, Decision (P x)} (l : list A) :
  (∀ x, x ∈ l -> P x) -> filter P l = l.
Proof.
  intros Hl. induction l as [|x l IH]; [done|].
  rewrite filter_cons, decide_True by (apply Hl; left).
  f_equal. apply IH. intros y Hy. apply Hl. by right.
Qed.

(** A key that occurs once at most selects one element at most. *)
Lemma at_most_one {A K} `{EqDecision K} (key : A → K) (k : K) (l : list A) :
  NoDup (key <$> l) -> (length (filter (λ x, key x = k) l) ≤ 1)%nat.
Proof.
  induction l as [|x l IH]; [cbn; lia|].
  rewrite fmap_cons. intros [Hx Hl]%NoDup_cons.
  rewrite filter_cons. destruct (decide _) as [Heq|Hne]; [|by apply IH].
  rewrite filter_none; [cbn; lia|].
  intros y Hy Heq'. apply Hx. apply list_elem_of_fmap. exists y. split; [congruence|done].
Qed.

Lemma length_remove_dups {A} `{EqDecision A} (l : list A) :
  (length (remove_dups l) ≤ length l)%nat.
Proof.
  induction l as [|x l IH]; [done|]. cbn. destruct (decide_rel _ x l); cbn; lia.
Qed.

Lemma length_omap_le {A B} (f : A → option B) (l : list A) :
  (length (omap f l) ≤ length l)%nat.
Proof. induction l as [|x l IH]; [done|]. cbn. destruct (f x); cbn; lia. Qed.

(** The rows [offset .. offset + limit) of a list *)
Lemma window_sorted {A} (R : relation A) (l : list A) limit offset :
  StronglySorted R l -> StronglySorted R (take limit (drop offset l)).
Proof.
  intros Hl. rewrite <- (take_drop offset l) in Hl. apply StronglySorted_app_1_r in Hl.
  rewrite <- (take_drop limit (drop offset l)) in Hl. by apply StronglySorted_app_1_l in Hl.
Qed.

Lemma window_subseteq {A} (l : list A) limit offset : take limit (drop offset l) ⊆ l.
Proof. intros x Hx. by apply subseteq_take, subseteq_drop in Hx. Qed.

Lemma window_NoDup {A B} (f : A → B) (l : list A) limit offset :
  NoDup (f <$> l) -> NoDup (f <$> take limit (drop offset l)).
Proof.
  intros Hl. rewrite fmap_take, fmap_drop.
  eapply sublist_NoDup; [|apply sublist_take]. eapply sublist_NoDup; [|apply sublist_drop]. done.
Qed.

End ListLaws.

Module StoreLaws.
Import DatetimeFacts CodecFacts PathFacts MonadFacts ListFacts ListLaws ConversationStore
       ConversationStoreFacts.

Lemma temp_ne_path id1 id2 : temp id1 ≠ path id2.
Proof. apply temp_path_ne. Qed.

Lemma filter_insert_or_replace_same r1 r2 tbl :
  row_id r1 = row_id r2 ->
  insert_or_replace r2 (insert_or_replace r1 tbl) = insert_or_replace r2 tbl.
Proof.
  intros Hid. unfold insert_or_replace. f_equal.
  rewrite filter_app, list_filter_filter.
  rewrite filter_cons, decide_False, filter_nil, app_nil_r by (intros H; apply H; exact Hid).
  apply list_filter_iff. intros r. rewrite Hid. tauto.
Qed.

(** X1. The last save of an id wins, and leaves nothing of the save before. *)
Theorem save_overwrites (c1 c2 : Conversation.t) (s : t) :
  Conversation.id c1 = Conversation.id c2 ->
  run (save c1;; save c2) s = (Ok tt, exec (save c2) s).
Proof.
  intros Hid. rewrite run_bind, run_save, run_save, exec_save. cbn [files index].
  f_equal. rewrite Hid. f_equal.
  - rewrite (delete_insert_ne _ (temp _) (path _)) by apply temp_path_ne.
    rewrite delete_delete_eq. apply insert_insert_eq.
  - apply filter_insert_or_replace_same. unfold index_row. cbn. exact Hid.
Qed.

(** *** Rows and files of an id that is not stored *)

Lemma absent_rows s id :
  store_ok s -> run (get id) s = (Ok None, s) -> ∀ r, r ∈ index s -> row_id r ≠ id.
Proof.
  intros Hs Hget r Hr Heq. destruct Hs as (_ & Hrows & _).
  destruct (Hrows r Hr) as (c & _ & _ & Hf).
  rewrite run_get, <- Heq, Hf in Hget.
  by destruct (Conversation.model_validate_json _).
Qed.

Lemma absent_file s id :
  run (get id) s = (Ok None, s) -> files s !! path id = None.
Proof.
  rewrite run_get. destruct (files s !! path id) as [j|]; [|done].
  by destruct (Conversation.model_validate_json j).
Qed.

Lemma no_temp_file s id : store_ok s -> files s !! temp id = None.
Proof.
  intros (_ & _ & Hfiles). destruct (files s !! temp id) as [j|] eqn:Hj; [|done].
  destruct (Hfiles (temp id)) as (r & _ & Hp); [by eauto|].
  by apply temp_path_ne in Hp.
Qed.

Lemma filter_absent id (tbl : list row) :
  (∀ r, r ∈ tbl -> row_id r ≠ id) -> filter (λ r, row_id r ≠ id) tbl = tbl.
Proof.
  intros Habs. induction tbl as [|r tbl IH]; [done|].
  rewrite filter_cons, decide_True by (apply Habs; left).
  f_equal. apply IH. intros r' Hr'. apply Habs. by right.
Qed.

(** X2. Deleting an id that is not stored returns [False] and changes nothing. *)
Theorem delete_absent (s : t) (id : string) :
  store_ok s -> run (get id) s = (Ok None, s) ->
  run (delete id) s = (Ok false, s).
Proof.
  intros Hs Hget. rewrite run_delete, (absent_file s id Hget).
  rewrite bool_decide_eq_false_2 by (by intros [? ?]).
  f_equal. destruct s as [f idx]. cbn [files index] in *. f_equal.
  - apply delete_id. exact (absent_file _ id Hget).
  - unfold delete_where_id. apply filter_absent. exact (absent_rows _ id Hs Hget).
Qed.

(** X3. Saving a conversation under a new id and deleting it again gives the
    store back as it was. *)
Theorem save_delete_restores (s : t) (c : Conversation.t) :
  store_ok s -> run (get (Conversation.id c)) s = (Ok None, s) ->
  run (save c;; delete (Conversation.id c)) s = (Ok true, s).
Proof.
  intros Hs Hget. rewrite run_bind, run_save, run_delete. cbn [files index].
  rewrite lookup_insert_eq. rewrite bool_decide_eq_true_2 by eauto.
  f_equal. destruct s as [f idx]. cbn [files index] in *. f_equal.
  - rewrite delete_insert_eq.
    rewrite (delete_id _ (temp _)) by exact (no_temp_file _ _ Hs).
    apply delete_id. exact (absent_file _ _ Hget).
  - unfold delete_where_id, insert_or_replace.
    rewrite filter_app, list_filter_filter, filter_cons, decide_False, filter_nil, app_nil_r
      by (intros H; by apply H).
    rewrite <- (filter_absent (Conversation.id c) idx) at 2
      by exact (absent_rows _ _ Hs Hget).
    apply list_filter_iff. intros r. cbn. tauto.
Qed.

(** *** Windows of a sorted selection *)

#[local] Instance asc_by_trans key : Transitive (asc_by key).
Proof. intros a b c Hab Hbc. unfold asc_by in *. by etrans. Qed.

#[local] Instance asc_by_total key : Total (asc_by key).
Proof. intros a b. unfold asc_by. destruct (total String.le (key a) (key b)); auto. Qed.

Lemma order_by_asc_perm key tbl : order_by_asc key tbl ≡ₚ tbl.
Proof. apply merge_sort_Permutation. Qed.

Lemma order_by_asc_sorted key tbl : StronglySorted (asc_by key) (order_by_asc key tbl).
Proof. apply (StronglySorted_merge_sort _). Qed.

Lemma limit_offset_all (offset : nat) rows :
  limit_offset (-1) (Z.of_nat offset) rows = drop offset rows.
Proof. unfold limit_offset. by rewrite Nat2Z.id. Qed.

(** Reading the files of a list of ids, one list after the other. *)
Lemma run_hydrate_app s ids1 ids2 cs1 cs2 :
  run (hydrate ids1) s = (Ok cs1, s) -> run (hydrate ids2) s = (Ok cs2, s) ->
  run (hydrate (ids1 ++ ids2)) s = (Ok (cs1 ++ cs2), s).
Proof.
  intros H1 H2. revert cs1 H1. induction ids1 as [|id ids1 IH]; intros cs1 H1.
  - injection H1 as <-. done.
  - cbn [hydrate app] in *. rewrite run_bind in *. rewrite run_get in *.
    destruct (files s !! path id) as [j|].
    + destruct (Conversation.model_validate_json j) as [c|]; [|done].
      rewrite run_bind in *.
      destruct (run (hydrate ids1) s) as [[cs|e] s1] eqn:Hrest; [|done].
      injection H1 as <- ->. by rewrite (IH cs eq_refl).
    + rewrite run_bind in *.
      destruct (run (hydrate ids1) s) as [[cs|e] s1] eqn:Hrest; [|done].
      injection H1 as <- ->. by rewrite (IH cs eq_refl).
Qed.

(** *** list_by_project *)

Lemma run_list_by_project s p (limit offset : nat) :
  store_ok s ->
  ∃ cs, run (list_by_project p (Z.of_nat limit) (Z.of_nat offset)) s = (Ok cs, s) ∧
        Forall2 (row_of s)
          (take limit (drop offset
             (order_by_desc row_updated_at
                (filter (λ r, row_project_path r = Some p) (index s))))) cs.
Proof.
  intros Hs. unfold list_by_project, _ensure_initialized.
  rewrite run_bind, run_ret, run_bind. unfold gets at 1. cbn [run].
  rewrite limit_offset_nat. apply run_hydrate; [done|].
  apply Forall_forall. intros r Hr. apply window_subseteq in Hr.
  rewrite order_by_desc_perm in Hr. by apply list_elem_of_filter in Hr as [_ Hr].
Qed.

Lemma limit_offset_window limit offset (rows : list row) :
  limit_offset limit offset rows
  = take (cap limit (drop (Z.to_nat offset) rows)) (drop (Z.to_nat offset) rows).
Proof.
  unfold limit_offset, cap. cbv zeta. destruct (limit <? 0); [by rewrite take_ge|done].
Qed.

Lemma run_list_by_project_window s p (limit offset : Z) :
  store_ok s ->
  let rest := drop (Z.to_nat offset)
                (order_by_desc row_updated_at
                   (filter (λ r, row_project_path r = Some p) (index s))) in
  ∃ cs, run (list_by_project p limit offset) s = (Ok cs, s) ∧
        Forall2 (row_of s) (take (cap limit rest) rest) cs.
Proof.
  intros Hs rest. unfold list_by_project, _ensure_initialized.
  rewrite run_bind, run_ret, run_bind. unfold gets at 1. cbn [run].
  rewrite limit_offset_window. fold rest. apply run_hydrate; [done|].
  apply Forall_forall. intros r Hr. apply subseteq_take in Hr. unfold rest in Hr.
  apply subseteq_drop in Hr.
  rewrite order_by_desc_perm in Hr. by apply list_elem_of_filter in Hr as [_ Hr].
Qed.



Lemma list_all_unfold s (limit offset : nat) :
  run (list_all (Z.of_nat limit) (Z.of_nat offset)) s
  = run (hydrate (row_id <$> take limit (drop offset
                    (order_by_desc row_updated_at (index s))))) s.
Proof.
  unfold list_all, _ensure_initialized.
  rewrite run_bind, run_ret, run_bind. unfold gets at 1. cbn [run].
  by rewrite limit_offset_nat.
Qed.

Lemma list_by_project_unfold s p (limit offset : nat) :
  run (list_by_project p (Z.of_nat limit) (Z.of_nat offset)) s
  = run (hydrate (row_id <$> take limit (drop offset
                    (order_by_desc row_updated_at
                       (filter (λ r, row_project_path r = Some p) (index s)))))) s.
Proof.
  unfold list_by_project, _ensure_initialized.
  rewrite run_bind, run_ret, run_bind. unfold gets at 1. cbn [run].
  by rewrite limit_offset_nat.
Qed.

(** X5. Two consecutive pages are the page of their joint size, for [list_all]
    and for [list_by_project]. *)
Theorem pages_concatenate (s : t) (p : string) (k1 k2 : nat) :
  store_ok s ->
  (∃ page1 page2,
     run (list_all (Z.of_nat k1) 0) s = (Ok page1, s) ∧
     run (list_all (Z.of_nat k2) (Z.of_nat k1)) s = (Ok page2, s) ∧
     run (list_all (Z.of_nat (k1 + k2)) 0) s = (Ok (page1 ++ page2), s)) ∧
  (∃ page1 page2,
     run (list_by_project p (Z.of_nat k1) 0) s = (Ok page1, s) ∧
     run (list_by_project p (Z.of_nat k2) (Z.of_nat k1)) s = (Ok page2, s) ∧
     run (list_by_project p (Z.of_nat (k1 + k2)) 0) s = (Ok (page1 ++ page2), s)).
Proof.
  intros Hs. change 0 with (Z.of_nat 0). split.
  - destruct (run_list_all s k1 0 Hs) as (page1 & H1 & _).
    destruct (run_list_all s k2 k1 Hs) as (page2 & H2 & _).
    exists page1, page2. split_and!; [done..|].
    rewrite list_all_unfold in *. rewrite drop_0 in *.
    rewrite <- take_take_drop, fmap_app. by apply run_hydrate_app.
  - destruct (run_list_by_project s p k1 0 Hs) as (page1 & H1 & _).
    destruct (run_list_by_project s p k2 k1 Hs) as (page2 & H2 & _).
    exists page1, page2. split_and!; [done..|].
    rewrite list_by_project_unfold in *. rewrite drop_0 in *.
    rewrite <- take_take_drop, fmap_app. by apply run_hydrate_app.
Qed.

(** *** list_unindexed *)

Lemma row_of_sorted_asc s (col : row → string) (key : Conversation.t → datetime) rows cs :
  (∀ c, col (index_row c) = Datetime.isoformat (key c)) ->
  Forall2 (row_of s) rows cs ->
  StronglySorted (asc_by col) rows -> StronglySorted (oldest_text_first key) cs.
Proof.
  intros Hcol. induction 1 as [|r c rows cs (Hc & <- & _) Hrest IH].
  - constructor.
  - intros Hsorted. apply StronglySorted_inv in Hsorted as [Hs Hall].
    constructor; [by auto|].
    apply Forall_forall. intros c' Hc'.
    destruct (row_of_elem _ _ _ _ Hrest Hc') as (r' & Hr' & Hc'' & <- & _).
    rewrite Forall_forall in Hall. specialize (Hall _ Hr').
    unfold asc_by, String.le in Hall. rewrite !Hcol in Hall.
    unfold oldest_text_first. by apply Is_true_true in Hall.
Qed.

Lemma run_list_unindexed s (limit : nat) :
  store_ok s ->
  ∃ cs, run (list_unindexed (Z.of_nat limit)) s = (Ok cs, s) ∧
        Forall2 (row_of s)
          (take limit (order_by_asc row_created_at
                         (filter (λ r, row_indexed_at r = None) (index s)))) cs.
Proof.
  intros Hs. unfold list_unindexed, _ensure_initialized.
  rewrite run_bind, run_ret, run_bind. unfold gets at 1. cbn [run].
  rewrite (limit_offset_nat limit 0), drop_0. apply run_hydrate; [done|].
  apply Forall_forall. intros r Hr. apply subseteq_take in Hr.
  rewrite order_by_asc_perm in Hr. by apply list_elem_of_filter in Hr as [_ Hr].
Qed.

Lemma row_indexed_at_None c :
  row_indexed_at (index_row c) = None ↔ Conversation.indexed_at c = None.
Proof. unfold index_row. cbn. apply fmap_None. Qed.

Lemma run_list_unindexed_window s (limit : Z) :
  store_ok s ->
  let sorted := order_by_asc row_created_at
                  (filter (λ r, row_indexed_at r = None) (index s)) in
  ∃ cs, run (list_unindexed limit) s = (Ok cs, s) ∧
        Forall2 (row_of s) (take (cap limit sorted) sorted) cs.
Proof.
  intros Hs sorted. unfold list_unindexed, _ensure_initialized.
  rewrite run_bind, run_ret, run_bind. unfold gets at 1. cbn [run].
  rewrite limit_offset_cap. fold sorted. apply run_hydrate; [done|].
  apply Forall_forall. intros r Hr. apply subseteq_take in Hr. unfold sorted in Hr.
  rewrite order_by_asc_perm in Hr. by apply list_elem_of_filter in Hr as [_ Hr].
Qed.

Lemma oldest_text_naive (key : Conversation.t → datetime) a b :
  Datetime.datetime_ok (key a) -> Datetime.datetime_ok (key b) ->
  Datetime.naive (key a) -> Datetime.naive (key b) ->
  oldest_text_first key a b ↔ oldest_first key a b.
Proof.
  intros. unfold oldest_text_first, oldest_first. by rewrite leb_isoformat.
Qed.

Lemma sorted_naive_asc (key : Conversation.t → datetime) cs :
  Forall (λ c, Datetime.datetime_ok (key c) ∧ Datetime.naive (key c)) cs ->
  StronglySorted (oldest_text_first key) cs -> StronglySorted (oldest_first key) cs.
Proof.
  intros Hcs Hsorted. induction Hsorted as [|c cs Hsorted IH Hall]; [constructor|].
  apply Forall_cons in Hcs as [[Hok Hn] Hcs]. constructor; [by apply IH|].
  rewrite Forall_forall in Hall, Hcs. apply Forall_forall. intros c' Hc'.
  destruct (Hcs c' Hc') as [Hok' Hn']. apply oldest_text_naive; auto.
Qed.


Lemma list_unindexed_listed s (limit : nat) :
  store_ok s ->
  ∃ cs, run (list_unindexed (Z.of_nat limit)) s = (Ok cs, s) ∧
        ∀ c, c ∈ cs ->
          run (get (Conversation.id c)) s = (Ok (Some c), s) ∧
          Conversation.indexed_at c = None.
Proof.
  intros Hs. destruct (run_list_unindexed s limit Hs) as (cs & Hrun & Hcs).
  exists cs. split; [done|].
  intros c Hc. destruct (row_of_elem _ _ _ _ Hcs Hc) as (r & Hr & Hcok & Hrow & Hget).
  split; [done|]. apply subseteq_take in Hr.
  rewrite order_by_asc_perm in Hr. apply list_elem_of_filter in Hr as [HP _].
  rewrite <- Hrow in HP. by apply row_indexed_at_None.
Qed.

(** *** mark_indexed, in its two cases *)

Lemma mark_indexed_cases s utcnow id indexed_at :
  store_ok s -> Datetime.datetime_ok (default utcnow indexed_at) ->
  let now := default utcnow indexed_at in
  (∃ c, run (get id) s = (Ok (Some c), s) ∧
        conversation_ok (Conversation.set_indexed_at (Some now) c) ∧
        run (mark_indexed utcnow id indexed_at) s
        = (Ok tt, exec (save (Conversation.set_indexed_at (Some now) c)) s)) ∨
  (run (get id) s = (Ok None, s) ∧ run (mark_indexed utcnow id indexed_at) s = (Ok tt, s)).
Proof.
  intros Hs Hnow now. rewrite run_mark_indexed. cbn zeta. fold now.
  set (s1 := set_index (update_indexed_at (Datetime.isoformat now) id) s).
  rewrite (get_other_files id s s1) by done.
  destruct (run (get id) s) as [[[c|]|e] s0] eqn:Hget; cbn [fst].
  - assert (s0 = s) as -> by (rewrite run_get in Hget; by injection Hget).
    destruct (get_row s id c Hs Hget) as (Hcok & Hid & Hrow & Hfile).
    set (c' := Conversation.set_indexed_at (Some now) c).
    assert (conversation_ok c') as Hc'ok.
    { destruct Hcok as (? & ? & ? & ?). by split_and!. }
    left. exists c. split_and!; [done..|]. fold c'.
    rewrite run_save, exec_save. subst s1. cbn [files index set_index]. do 2 f_equal.
    unfold insert_or_replace. f_equal.
    assert (row_id (index_row c') = id) as -> by exact Hid.
    apply filter_update_indexed_at.
  - assert (s0 = s) as -> by (rewrite run_get in Hget; by injection Hget).
    right. split; [done|]. f_equal. subst s1. unfold set_index.
    rewrite update_indexed_at_absent by exact (absent_rows s id Hs Hget). by destruct s.
  - exfalso. rewrite run_get in Hget.
    destruct (files s !! path id) as [j|] eqn:Hj; [|done].
    destruct Hs as (_ & Hrows & Hfiles).
    destruct (Hfiles (path id)) as (r & Hr & Hp); [by eauto|].
    apply conversation_path_inj in Hp as ->.
    destruct (Hrows r Hr) as (c & Hc & _ & Hf). rewrite Hj in Hf. injection Hf as ->.
    by rewrite conversation_roundtrip in Hget.
Qed.

Lemma store_ok_mark_indexed s utcnow id indexed_at :
  store_ok s -> Datetime.datetime_ok (default utcnow indexed_at) ->
  ∃ s', run (mark_indexed utcnow id indexed_at) s = (Ok tt, s') ∧ store_ok s'.
Proof.
  intros Hs Hnow.
  destruct (mark_indexed_cases s utcnow id indexed_at Hs Hnow) as [(c & _ & Hc & ->)|[_ ->]].
  - eexists. split; [done|]. by apply store_ok_save.
  - by exists s.
Qed.


(** *** get_stats *)

Lemma run_list_everything s :
  store_ok s ->
  ∃ cs, run (list_all (-1) 0) s = (Ok cs, s) ∧
        Forall2 (row_of s) (order_by_desc row_updated_at (index s)) cs.
Proof.
  intros Hs. unfold list_all, _ensure_initialized.
  rewrite run_bind, run_ret, run_bind. unfold gets at 1. cbn [run].
  rewrite (limit_offset_all 0), drop_0. apply run_hydrate; [done|].
  apply Forall_forall. intros r Hr. by rewrite order_by_desc_perm in Hr.
Qed.

Lemma run_list_unindexed_all s :
  store_ok s ->
  ∃ cs, run (list_unindexed (-1)) s = (Ok cs, s) ∧
        Forall2 (row_of s)
          (order_by_asc row_created_at (filter (λ r, row_indexed_at r = None) (index s))) cs.
Proof.
  intros Hs. unfold list_unindexed, _ensure_initialized.
  rewrite run_bind, run_ret, run_bind. unfold gets at 1. cbn [run].
  rewrite (limit_offset_all 0), drop_0. apply run_hydrate; [done|].
  apply Forall_forall. intros r Hr.
  rewrite order_by_asc_perm in Hr. by apply list_elem_of_filter in Hr as [_ Hr].
Qed.

(** X8. In a store whose index and files agree the statistics count what the
    listings return: the total is the number of conversations that
    [list_all] returns without a limit, the total less the indexed ones is the
    number that [list_unindexed] returns without a limit, and the projects are
    the distinct project paths of the stored conversations. *)
Theorem get_stats_counts (s : t) :
  store_ok s ->
  ∃ everything unindexed projects,
    run (list_all (-1) 0) s = (Ok everything, s) ∧
    run (list_unindexed (-1)) s = (Ok unindexed, s) ∧
    run get_stats s
    = (Ok (mk_stats (Z.of_nat (length everything))
                    (Z.of_nat (length everything) - Z.of_nat (length unindexed))
                    (Z.of_nat (length projects))), s) ∧
    (length unindexed ≤ length everything)%nat ∧
    (length projects ≤ length everything)%nat ∧
    NoDup projects ∧
    ∀ p, p ∈ projects ↔
         ∃ c, c ∈ everything ∧ Conversation.project_path c = Some p.
Proof.
  intros Hs.
  destruct (run_list_everything s Hs) as (everything & Hall & Hrows).
  destruct (run_list_unindexed_all s Hs) as (unindexed & Hun & Hunrows).
  exists everything, unindexed, (remove_dups (omap row_project_path (index s))).
  assert (length everything = length (index s)) as Hlen.
  { rewrite <- (Forall2_length _ _ _ Hrows). apply Permutation_length, order_by_desc_perm. }
  assert (length unindexed = length (filter (λ r, row_indexed_at r = None) (index s)))
    as Hlenun.
  { rewrite <- (Forall2_length _ _ _ Hunrows). apply Permutation_length, order_by_asc_perm. }
  pose proof (length_filter_partition (λ r, row_indexed_at r = None) (index s)) as Hpart.
  assert (length (filter (λ r, ¬ row_indexed_at r = None) (index s))
          = length (filter (λ r, is_Some (row_indexed_at r)) (index s))) as Hsome.
  { f_equal. apply list_filter_iff. intros r. rewrite <- not_eq_None_Some. done. }
  split_and!.
  - done.
  - done.
  - rewrite run_get_stats. unfold count_stats. do 2 f_equal. f_equal; [lia|lia].
  - lia.
  - rewrite Hlen. etrans; [apply length_remove_dups|apply length_omap_le].
  - apply NoDup_remove_dups.
  - intros p. rewrite elem_of_remove_dups, list_elem_of_omap. split.
    + intros (r & Hr & Hp).
      assert (r ∈ order_by_desc row_updated_at (index s)) as Hr'
        by (by rewrite order_by_desc_perm).
      destruct (row_of_elem_l _ _ _ _ Hrows Hr') as (c & Hc & _ & <- & _).
      exists c. split; [done|]. exact Hp.
    + intros (c & Hc & Hp).
      destruct (row_of_elem _ _ _ _ Hrows Hc) as (r & Hr & _ & <- & _).
      rewrite order_by_desc_perm in Hr. exists (index_row c). split; [done|]. exact Hp.
Qed.

(** X9. Saving adds one conversation to the total when the id is new, and none
    when the id is stored already. *)
Theorem save_counts_once (s : t) (c : Conversation.t) :
  store_ok s ->
  ∃ before after s',
    run get_stats s = (Ok before, s) ∧
    run (save c;; get_stats) s = (Ok after, s') ∧
    (run (get (Conversation.id c)) s = (Ok None, s) ->
     total_conversations after = total_conversations before + 1) ∧
    (∀ c0, run (get (Conversation.id c)) s = (Ok (Some c0), s) ->
     total_conversations after = total_conversations before).
Proof.
  intros Hs. eexists _, _, _.
  rewrite run_bind, run_save, !run_get_stats. cbn [index].
  split_and!; [done|done|..]; unfold count_stats, insert_or_replace; cbn [total_conversations];
    rewrite length_app; cbn [length index_row row_id].
  - intros Hget.
    rewrite (filter_absent (Conversation.id c)) by exact (absent_rows s _ Hs Hget). lia.
  - intros c0 Hget. destruct (get_row s _ c0 Hs Hget) as (_ & Hid & Hrow & _).
    pose proof (length_filter_lt (λ r, row_id r ≠ Conversation.id c) (index s) (index_row c0)
                  Hrow) as Hlt.
    destruct Hs as (Hnodup & _ & _).
    pose proof (length_filter_partition (λ r, row_id r ≠ Conversation.id c) (index s)) as Hp.
    pose proof (at_most_one row_id (Conversation.id c) (index s) Hnodup) as Hone.
    assert (length (filter (λ r, ¬ row_id r ≠ Conversation.id c) (index s))
            = length (filter (λ r, row_id r = Conversation.id c) (index s))) as Heq.
    { f_equal. apply list_filter_iff. intros r. split; [apply dec_stable|tauto]. }
    specialize (Hlt ltac:(cbn; intros H; apply H; exact Hid)). lia.
Qed.

(** *** The invariant along a sequence of writes *)

Lemma perform_store_ok w s :
  write_ok w -> store_ok s -> ∃ s', run (perform w) s = (Ok tt, s') ∧ store_ok s'.
Proof.
  intros Hw Hs. destruct w as [c|id|utcnow id indexed_at]; cbn [perform write_ok] in *.
  - destruct Hw as [Hc _].
    exists (exec (save c) s). split; [by rewrite run_save, exec_save|by apply store_ok_save].
  - pose proof (store_ok_delete id s Hs) as Hd. unfold exec in Hd.
    change (delete id s) with (run (delete id) s) in Hd. rewrite run_delete in Hd.
    eexists. split; [|exact Hd]. by rewrite run_bind, run_delete.
  - destruct Hw as [Hnow _]. by apply store_ok_mark_indexed.
Qed.


End StoreLaws.

Module TableLaws.
Import DatetimeFacts MonadFacts ListFacts ListLaws FloatOrder VectorStore VectorStoreFacts.

(** *** The rows after a merge *)

Abbreviation merged data tbl := (filter (λ r : row, id r ∉ id <$> data) tbl ++ data)%list.

Lemma NoDup_merged (data tbl : t) :
  NoDup (id <$> data) -> NoDup (id <$> tbl) -> NoDup (id <$> merged data tbl).
Proof.
  intros Hdata Htbl. rewrite fmap_app. apply NoDup_app. split_and!.
  - assert (id <$> filter (λ r : row, id r ∉ id <$> data) tbl `sublist_of` id <$> tbl) as Hsub
      by apply fmap_sublist, sublist_filter.
    by eapply sublist_NoDup.
  - intros i (r & -> & [Hr _]%list_elem_of_filter)%list_elem_of_fmap. exact Hr.
  - exact Hdata.
Qed.

Lemma merged_other (data tbl : t) :
  filter (λ r, id r ∉ id <$> data) (merged data tbl) = filter (λ r, id r ∉ id <$> data) tbl.
Proof.
  rewrite filter_app, list_filter_filter.
  rewrite (filter_none _ data), app_nil_r.
  - apply list_filter_iff. tauto.
  - intros r Hr Hnot. apply Hnot. apply list_elem_of_fmap. by exists r.
Qed.

Lemma merged_same (data tbl : t) :
  filter (λ r, id r ∈ id <$> data) (merged data tbl) = data.
Proof.
  rewrite filter_app, list_filter_filter.
  rewrite (filter_none _ tbl) by tauto. cbn [app].
  apply filter_all_of. intros r Hr. apply list_elem_of_fmap. by exists r.
Qed.

Lemma length_stored i (tbl : t) :
  NoDup (id <$> tbl) ->
  length (filter (λ r, id r = i) tbl) = if bool_decide (i ∈ id <$> tbl) then 1%nat else 0%nat.
Proof.
  intros Hnd. pose proof (at_most_one id i tbl Hnd) as Hone. case_bool_decide as Hin.
  - apply list_elem_of_fmap in Hin as (r & -> & Hr).
    assert (r ∈ filter (λ x, id x = id r) tbl) as Hr' by (by apply list_elem_of_filter).
    destruct (filter _ tbl); [by apply elem_of_nil in Hr'|]. cbn in *. lia.
  - rewrite filter_none; [done|]. intros r Hr Hid. apply Hin, list_elem_of_fmap. by exists r.
Qed.

Section Engine.
Variable dimension : Z.
Variable metric : list float → list float → float.
Variable sql_where : string → option (row → bool).
Variable scan_limit : option nat.
Variable nearest : list float → option Z → option (row → bool) → t → result (list row).

Abbreviation reads_as := (VectorStore.reads_as sql_where).
Abbreviation parse := (VectorStore.parse sql_where).
Abbreviation fits := (VectorStore.fits dimension).
Abbreviation add := (VectorStore.add dimension).
Abbreviation add_batch := (VectorStore.add_batch dimension).
Abbreviation search := (VectorStore.search metric sql_where scan_limit nearest).
Abbreviation get := (VectorStore.get metric sql_where scan_limit nearest).
Abbreviation delete := (VectorStore.delete sql_where).
Abbreviation delete_by_conversation :=
  (VectorStore.delete_by_conversation metric sql_where scan_limit nearest).

Lemma run_count (tbl : t) : run count tbl = (Ok (Z.of_nat (length tbl)), tbl).
Proof. reflexivity. Qed.


(** *** add_batch *)

Abbreviation rows_of pairs :=
  ((λ de : Document.t * list float, to_row de.1 de.2) <$> pairs).

Lemma run_add_batch documents embeddings (tbl : t) :
  run (add_batch documents embeddings) tbl
  = if (length documents =? length embeddings)%nat
    then if forallb fits (rows_of (zip documents embeddings))
         then (Ok tt, merged (rows_of (zip documents embeddings)) tbl)
         else (Raise EngineError, tbl)
    else (Raise ValueError, tbl).
Proof.
  unfold VectorStore.add_batch, _ensure_connected, update, VectorStore.merge_insert.
  rewrite run_bind, run_ret.
  destruct (length documents =? length embeddings)%nat; [|done]. cbn [negb run].
  by destruct (forallb _ _).
Qed.

Lemma rows_of_ids documents embeddings :
  length documents = length embeddings ->
  id <$> rows_of (zip documents embeddings) = Document.id <$> documents.
Proof.
  intros Hlen. rewrite <- list_fmap_compose.
  rewrite <- (fst_zip documents embeddings) at 2 by lia.
  by rewrite <- list_fmap_compose.
Qed.

Lemma merged_cons r (rs tbl : t) :
  id r ∉ id <$> rs -> merged rs (merged [r] tbl) = merged (r :: rs) tbl.
Proof.
  intros Hr. rewrite filter_app, list_filter_filter.
  rewrite (filter_all_of _ [r]); last first.
  { intros x ->%list_elem_of_singleton. done. }
  rewrite <- app_assoc. cbn [app]. f_equal.
  apply list_filter_iff. intros x. cbn [fmap list_fmap].
  rewrite list_elem_of_singleton, not_elem_of_cons. tauto.
Qed.

Lemma run_add_each pairs : ∀ tbl : t,
  NoDup (id <$> rows_of pairs) -> forallb fits (rows_of pairs) = true ->
  run (add_each dimension pairs) tbl = (Ok tt, merged (rows_of pairs) tbl).
Proof.
  induction pairs as [|[d e] pairs IH]; intros tbl Hnd Hfits.
  - cbn. rewrite filter_all_of, app_nil_r; [done|]. intros x _. apply not_elem_of_nil.
  - cbn [fmap list_fmap fst snd forallb] in Hnd, Hfits.
    apply NoDup_cons in Hnd as [Hd Hnd]. apply andb_true_iff in Hfits as [Hfit Hfits].
    cbn [add_each]. rewrite run_bind, run_add, Hfit.
    change [Document.id d] with (id <$> [to_row d e]).
    rewrite IH by done. f_equal.
    exact (merged_cons (to_row d e) (rows_of pairs) tbl Hd).
Qed.


(** *** delete and get *)

(** X14. With an engine that reads the id filter of [i] as the test
    [id = i]: after [delete(i)], [get(i)] returns [None], and [get] of
    another id that the engine reads in the same way returns what it returned
    before. *)
Theorem delete_then_get (i : string) (tbl : t) :
  reads_as (id_expr i) (λ r, String.eqb (id r) i) ->
  (run (delete i;; get i) tbl).1 = Ok None ∧
  ∀ i', i' ≠ i -> reads_as (id_expr i') (λ r, String.eqb (id r) i') ->
    (run (delete i;; get i') tbl).1 = (run (get i') tbl).1.
Proof.
  intros (f & Hf & Htest). split.
  - rewrite run_bind, run_delete_document, Hf, run_get_document, Hf. cbn [fst].
    rewrite filter_none; [done|].
    by intros r [Hr _]%list_elem_of_filter.
  - intros i' Hne (f' & Hf' & Htest').
    rewrite run_bind, run_delete_document, Hf, !run_get_document, Hf'. cbn [fst].
    rewrite list_filter_filter.
    assert (filter (λ r, f' r = true ∧ f r ≠ true) tbl = filter (λ r, f' r = true) tbl) as ->;
      [|done].
    apply list_filter_iff. intros r. rewrite Htest, Htest', not_true_iff_false.
    split; [tauto|]. intros Hr. split; [done|].
    apply String.eqb_eq in Hr. apply String.eqb_neq. congruence.
Qed.

(** *** A document comes back as it was added *)


(** *** search *)

Lemma only_row i r (tbl : t) :
  NoDup (id <$> tbl) -> r ∈ tbl -> id r = i -> filter (λ x, id x = i) tbl = [r].
Proof.
  intros Hnd Hr Hid. pose proof (at_most_one id i tbl Hnd) as Hone.
  assert (r ∈ filter (λ x, id x = i) tbl) as Hin by (by apply list_elem_of_filter).
  destruct (filter (λ x, id x = i) tbl) as [|x [|y l]].
  - by apply elem_of_nil in Hin.
  - by apply list_elem_of_singleton in Hin as ->.
  - cbn in Hone. lia.
Qed.

(** X16. Every hit can be fetched. On a table with one row per id, with an
    engine whose vector query returns rows of the table and which reads the
    id filter of every stored id as the test of that id, [get] of the id of
    every result of a search returns the document of that result. *)
Theorem search_hits_are_stored (embedding : list float) (limit_ : Z)
    (filter_expr : option string) (tbl : t) (results : list SearchResult.t) :
  NoDup (id <$> tbl) ->
  (∀ r, r ∈ tbl -> reads_as (id_expr (id r)) (λ x, String.eqb (id x) (id r))) ->
  (∀ test rows, nearest embedding (Some limit_) test tbl = Ok rows -> rows ⊆ tbl) ->
  run (search embedding limit_ filter_expr) tbl = (Ok results, tbl) ->
  ∀ res, res ∈ results ->
    run (get (Document.id (SearchResult.document res))) tbl
    = (Ok (Some (SearchResult.document res)), tbl).
Proof.
  intros Hnd Hids Hstored (test & rows & _ & Hrows & Hres & _)%search_Ok res Hin.
  apply search_results_of in Hres.
  apply list_elem_of_lookup in Hin as [k Hk].
  destruct (Forall2_lookup_r _ _ _ _ _ Hres Hk) as (r & Hr & Hdoc & _).
  apply list_elem_of_lookup_2, (Hstored test rows Hrows) in Hr.
  pose proof (to_document_Ok _ _ Hdoc) as (Hid & _).
  destruct (Hids r Hr) as (f & Hf & Htest).
  rewrite run_get_document, Hid, Hf.
  assert (filter (λ x, f x = true) tbl = filter (λ x, id x = id r) tbl) as ->.
  { apply list_filter_iff. intros x. by rewrite Htest, String.eqb_eq. }
  rewrite (only_row (id r) r) by done. by rewrite Hdoc.
Qed.

(** X17. [search] has no partial results: when the rows that the engine
    returns validate and one of them gives the divisor 0 (a distance of -1),
    the search raises [ZeroDivisionError]. *)
Theorem search_zero_divisor (embedding : list float) (limit_ : Z)
    (filter_expr : option string) (tbl : t) (test : option (row → bool)) (rows : list row) :
  parse (passed_filter filter_expr) = Ok test ->
  nearest embedding (Some limit_) test tbl = Ok rows ->
  Forall (λ r, ∃ doc, to_document r = Ok doc) rows ->
  Exists (λ r, (1 + metric embedding (vector r) =? 0)%float = true) rows ->
  run (search embedding limit_ filter_expr) tbl = (Raise ZeroDivisionError, tbl).
Proof.
  intros Htest Hrows Hvalid Hzero. rewrite run_search, Htest, Hrows. f_equal.
  clear Hrows. induction Hvalid as [|r rows [doc Hdoc] Hvalid IH].
  - by apply Exists_nil in Hzero.
  - rewrite fmap_cons. cbn [search_results]. unfold to_search_result at 1. cbn [fst snd].
    rewrite Hdoc. cbn. unfold float_div.
    destruct (1 + metric embedding (vector r) =? 0)%float eqn:Hz; [done|].
    apply Exists_cons in Hzero as [Hzero|Hzero]; [congruence|].
    cbn. by rewrite (IH Hzero).
Qed.

End Engine.

End TableLaws.
(** ** The settings singleton and the provider factory *)

Module SettingsFacts.
Import Settings Factory.

Section Process.
Context {E : Type}.
Variable build : E → dict → outcome RecallSettings.
Variable voyageai_installed openai_installed : bool.

Abbreviation get_settings := (Settings.get_settings build).
Abbreviation happen := (Settings.happen build).
Abbreviation create_embedding_provider :=
  (Factory.create_embedding_provider build voyageai_installed openai_installed).

Lemma quiet_keeps settings evs (p : @process E) :
  _settings p = Some settings -> Forall quiet evs ->
  _settings (foldl (λ p ev, happen ev p) p evs) = Some settings.
Proof.
  intros Hp Hevs. revert p Hp. induction Hevs as [|ev evs Hev _ IH]; intros p Hp; [done|].
  cbn [foldl]. apply IH. destruct ev as [e|kwargs|]; cbn in *.
  - done.
  - subst kwargs. unfold Settings.get_settings. by rewrite Hp.
  - done.
Qed.

(** X18. The settings are built once. After [get_settings] has returned, with
    keyword arguments or without, every later [get_settings()] returns the
    same settings, whatever happens to the environment in between, until the
    settings are reset or asked for with keyword arguments; a call that
    raises leaves the process as it was; and after a reset the next call
    builds the settings from the environment of that moment. *)
Theorem settings_are_cached (kwargs : dict) (p : @process E) :
  (∀ settings p',
     get_settings kwargs p = (Returns settings, p') ->
     ∀ evs, Forall quiet evs ->
       get_settings [] (foldl (λ p ev, happen ev p) p' evs)
       = (Returns settings, foldl (λ p ev, happen ev p) p' evs)) ∧
  (∀ e p', get_settings kwargs p = (Raises e, p') -> p' = p) ∧
  (get_settings [] (reset_settings p).2
   = match build (environment p) [] with
     | Returns settings => (Returns settings, mk_process (environment p) (Some settings))
     | Raises e => (Raises e, mk_process (environment p) None)
     end).
Proof.
  split_and!.
  - intros settings p' Hget evs Hevs.
    assert (_settings p' = Some settings) as Hp'.
    { unfold Settings.get_settings in Hget.
      repeat case_match; by simplify_eq/=. }
    pose proof (quiet_keeps settings evs p' Hp' Hevs) as Hq.
    unfold Settings.get_settings. by rewrite Hq.
  - intros e p' Hget. unfold Settings.get_settings in Hget.
    repeat case_match; by simplify_eq/=.
  - unfold Settings.get_settings, reset_settings. cbn. by destruct (build _ _).
Qed.

(** X19. The factory raises [ValueError] for the settings that the validator of
    [RecallSettings] rejects, and for no others; it never changes the
    process when the settings are passed in; and for validated settings and
    installed packages it returns the provider that the settings name, with
    the model, the stripped URL or the key of the settings. *)
Theorem factory_agrees_with_validator (settings : RecallSettings) (p : @process E) :
  ((∃ message, (create_embedding_provider (Some settings) p).1
               = Raises (BuiltinValueError message))
   ↔ validate_api_keys settings ≠ Returns settings) ∧
  (create_embedding_provider (Some settings) p).2 = p ∧
  (validate_api_keys settings = Returns settings ->
   voyageai_installed = true -> openai_installed = true ->
   match embedding_provider settings with
   | OLLAMA =>
       (create_embedding_provider (Some settings) p).1
       = Returns (Ollama (OllamaProvider.mk (ollama_model settings)
                            (OllamaProvider.rstrip "/" (ollama_base_url settings)) 30 None))
   | ANTHROPIC =>
       ∃ provider,
         (create_embedding_provider (Some settings) p).1 = Returns (Anthropic provider) ∧
         Some (AnthropicProvider.api_key provider) = anthropic_api_key settings
   | OPENAI =>
       ∃ provider,
         (create_embedding_provider (Some settings) p).1 = Returns (OpenAI provider) ∧
         Some (OpenAIProvider.api_key provider) = openai_api_key settings
   end).
Proof.
  unfold Factory.create_embedding_provider, validate_api_keys,
    AnthropicProvider.init, OpenAIProvider.init.
  destruct settings as [prov om ou ak ok dd cd].
  cbn [embedding_provider anthropic_api_key openai_api_key ollama_model ollama_base_url].
  unfold mbind, P_bind, mret, P_ret, raises.
  split_and!.
  - split.
    + intros [message Hm] Hv.
      destruct prov, ak as [ka|], ok as [ko|], voyageai_installed, openai_installed;
        cbn in Hm, Hv; repeat case_match; simplify_eq/=.
    + intros Hv.
      destruct prov, ak as [ka|], ok as [ko|];
        cbn in Hv |- *; repeat case_match; simplify_eq/=; eauto.
  - destruct prov, ak as [ka|], ok as [ko|]; cbn; repeat case_match; by simplify_eq/=.
  - intros Hv -> ->.
    destruct prov, ak as [ka|], ok as [ko|];
      cbn in Hv |- *; repeat case_match; simplify_eq/=; eauto.
Qed.

End Process.
End SettingsFacts.

(** ** The Ollama provider *)

Module OllamaFacts.
Import DatetimeFacts OllamaProvider.

Lemma append_empty_inv s1 a s2 : (s1 ++ String a s2)%string ≠ EmptyString.
Proof. by destruct s1. Qed.

Lemma rstrip_spec c s :
  (∃ n, s = (rstrip c s ++ string_of_list_ascii (replicate n c))%string) ∧
  (∀ s', rstrip c s ≠ (s' ++ String c EmptyString)%string).
Proof.
  induction s as [|a s [[n Hn] Hend]]; cbn [rstrip].
  - split; [by exists 0%nat|]. intros s' Hs'. symmetry in Hs'. by apply append_empty_inv in Hs'.
  - destruct (rstrip c s) as [|b r] eqn:Hr.
    + destruct (Ascii.eqb_spec a c) as [->|Hac].
      * split; [|intros s' Hs'; symmetry in Hs'; by apply append_empty_inv in Hs'].
        exists (S n). by rewrite Hn.
      * split; [exists n; by rewrite Hn|].
        intros [|x s'] Hs'; [by injection Hs'|].
        rewrite append_cons in Hs'. injection Hs' as _ Hs'.
        symmetry in Hs'. by apply append_empty_inv in Hs'.
    + split; [exists n; by rewrite Hn at 1|].
      intros [|x s'] Hs'; [by injection Hs'|].
      rewrite append_cons in Hs'. injection Hs' as _ Hs'. by apply (Hend s').
Qed.

Lemma rstrip_fixed c s :
  (∀ s', s ≠ (s' ++ String c EmptyString)%string) -> rstrip c s = s.
Proof.
  induction s as [|a s IH]; intros Hend; [done|]. cbn [rstrip].
  destruct s as [|b r].
  - cbn [rstrip]. destruct (Ascii.eqb_spec a c) as [->|Hac]; [|done].
    by destruct (Hend EmptyString).
  - rewrite IH.
    + done.
    + intros s' Hs'. apply (Hend (String a s')). by rewrite append_cons, <- Hs'.
Qed.

(** X20. The provider keeps the base URL without its trailing slashes: what
    [__init__] stores is the argument less a run of ["/"] at its end, it does
    not end in ["/"], and a URL that does not end in ["/"] is stored as it
    is. The request of [embed] goes to that URL followed by
    ["/api/embeddings"]. *)
Theorem base_url_without_trailing_slash (model base_url : string) (timeout : float) :
  let provider := init model base_url timeout in
  (∃ n, base_url = (_base_url provider ++ string_of_list_ascii (replicate n "/"%char))%string) ∧
  (∀ s, _base_url provider ≠ (s ++ "/")%string) ∧
  init model (_base_url provider) timeout = provider ∧
  (∀ text, url (embed_request provider text) = (_base_url provider ++ "/api/embeddings")%string).
Proof.
  cbn. pose proof (rstrip_spec "/" base_url) as [Hn Hend]. split_and!; [done|done| |done].
  unfold init. by rewrite rstrip_fixed.
Qed.

Section Client.
Variable server : list request → request → response.

Abbreviation embed := (OllamaProvider.embed server).
Abbreviation embed_batch := (OllamaProvider.embed_batch server).
Abbreviation exchange := (OllamaProvider.exchange server).
Abbreviation data := (λ embedding : list float, Data (Some embedding)).
Abbreviation detected d embeddings :=
  (match d with
   | Some d => Some d
   | None => (λ e : list float, Z.of_nat (length e)) <$> head embeddings
   end).
Abbreviation failure base_url r err :=
  (match r with
   | ConnectError =>
       err = Recall Exceptions.ProviderConnectionError
               ("Failed to connect to Ollama at " ++ base_url
                ++ ". Ensure Ollama is running and accessible.")
   | OtherError name => err = LibraryError name
   | HTTPStatusError text =>
       err = Recall Exceptions.EmbeddingError ("Ollama API error: " ++ text)
   | Data None =>
       err = Recall Exceptions.EmbeddingError "Unexpected Ollama response format: 'embedding'"
   | Data (Some _) => False
   end).

Abbreviation rq m u := (λ text : string, mk_request (u ++ "/api/embeddings") m text).

Lemma run_embed text m u t d hist :
  embed text (mk_world (mk m u t d) hist)
  = match server hist (rq m u text) with
    | ConnectError =>
        (Raises (Recall Exceptions.ProviderConnectionError
                   ("Failed to connect to Ollama at " ++ u
                    ++ ". Ensure Ollama is running and accessible.")),
         mk_world (mk m u t d) (hist ++ [rq m u text]))
    | OtherError name =>
        (Raises (LibraryError name), mk_world (mk m u t d) (hist ++ [rq m u text]))
    | HTTPStatusError text' =>
        (Raises (Recall Exceptions.EmbeddingError ("Ollama API error: " ++ text')),
         mk_world (mk m u t d) (hist ++ [rq m u text]))
    | Data None =>
        (Raises (Recall Exceptions.EmbeddingError
                   "Unexpected Ollama response format: 'embedding'"),
         mk_world (mk m u t d) (hist ++ [rq m u text]))
    | Data (Some e) =>
        (Returns e, mk_world (mk m u t (detected d [e])) (hist ++ [rq m u text]))
    end.
Proof.
  unfold OllamaProvider.embed, post. cbn.
  destruct (server hist _) as [| | |[e|]]; try done. by destruct d.
Qed.

Lemma embed_batch_Returns m u t texts : ∀ d hist es,
  exchange hist (rq m u <$> texts) = data <$> es ->
  embed_batch texts (mk_world (mk m u t d) hist)
  = (Returns es, mk_world (mk m u t (detected d es)) (hist ++ (rq m u <$> texts))).
Proof.
  induction texts as [|text texts IH]; intros d hist es Hex.
  - destruct es; [|done]. cbn. rewrite app_nil_r. by destruct d.
  - destruct es as [|e es]; [done|].
    cbn [fmap list_fmap OllamaProvider.exchange] in Hex. injection Hex as He Hes.
    cbn [OllamaProvider.embed_batch]. unfold mbind at 1, P_bind.
    rewrite run_embed, He. unfold mbind, P_bind.
    rewrite (IH _ _ es Hes).
    cbn. rewrite <- app_assoc. by destruct d.
Qed.

Lemma embed_batch_inv m u t texts : ∀ d hist,
  match embed_batch texts (mk_world (mk m u t d) hist) with
  | (Returns es, w') => exchange hist (rq m u <$> texts) = data <$> es
  | (Raises err, w') =>
      ∃ k text es,
        texts !! k = Some text ∧
        exchange hist (rq m u <$> take k texts) = data <$> es ∧
        w' = mk_world (mk m u t (detected d es)) (hist ++ (rq m u <$> take (S k) texts)) ∧
        failure u (server (hist ++ (rq m u <$> take k texts)) (rq m u text)) err
  end.
Proof.
  induction texts as [|text texts IH]; intros d hist; [done|].
  cbn [OllamaProvider.embed_batch]. unfold mbind at 1, P_bind.
  rewrite run_embed.
  destruct (server hist _) as [|name|text'|[e|]] eqn:Hr.
  1-3: exists 0%nat, text, []; cbn [take fmap list_fmap lookup list_lookup];
       rewrite app_nil_r, Hr; split_and!; try done; by destruct d.
  2: exists 0%nat, text, []; cbn [take fmap list_fmap lookup list_lookup];
       rewrite app_nil_r, Hr; split_and!; try done; by destruct d.
  unfold mbind, P_bind.
  specialize (IH (detected d [e]) (hist ++ [rq m u text])).
  destruct (OllamaProvider.embed_batch _ texts _) as [[es|err] w'].
  - cbn [fmap list_fmap OllamaProvider.exchange mret P_ret]. rewrite Hr. f_equal. exact IH.
  - destruct IH as (k & text1 & es & Hk & Hex & -> & Hfail).
    exists (S k), text1, (e :: es). split_and!.
    + done.
    + cbn [take fmap list_fmap OllamaProvider.exchange]. rewrite Hr. f_equal. exact Hex.
    + cbn [take fmap list_fmap]. rewrite <- app_assoc. by destruct d.
    + cbn [take fmap list_fmap]. rewrite <- app_assoc in Hfail. exact Hfail.
Qed.

Lemma length_exchange hist rqs : length (exchange hist rqs) = length rqs.
Proof. revert hist. induction rqs as [|r rqs IH]; intros hist; [done|]. cbn. by rewrite IH. Qed.

(** X21. [embed_batch] returns the embeddings [es] exactly when the server
    answers the requests for the texts, sent one after the other in the
    order of the texts, with the embeddings [es]. Then there is one embedding
    per text, the requests sent are these and no others, and the dimension
    of the provider is the length of the first embedding if none had been
    detected before. A dimension once detected is never changed, whether the
    call returns or raises. *)
Theorem embed_batch_returns (texts : list string) (w : world) (es : list (list float)) :
  let rqs := embed_request (self w) <$> texts in
  let out := embed_batch texts w in
  (out.1 = Returns es ↔ exchange (sent w) rqs = data <$> es) ∧
  (out.1 = Returns es ->
     length es = length texts ∧
     sent out.2 = sent w ++ rqs ∧
     dimension (self out.2)
     = match _detected_dimension (self w), es with
       | None, e :: _ => Z.of_nat (length e)
       | _, _ => dimension (self w)
       end) ∧
  (∀ d, _detected_dimension (self w) = Some d -> dimension (self out.2) = d).
Proof.
  destruct w as [[m u t d] hist]. cbv zeta. cbn [self sent].
  change (embed_request (mk m u t d)) with (rq m u).
  set (rqs := rq m u <$> texts).
  set (out := OllamaProvider.embed_batch server texts _).
  assert (out.1 = Returns es -> exchange hist rqs = data <$> es) as Hfwd.
  { intros Hout. pose proof (embed_batch_inv m u t texts d hist) as Hinv.
    fold out in Hinv. destruct out as [[es'|err] w']; [|done].
    cbn in Hout. by injection Hout as <-. }
  split_and!.
  - split; [exact Hfwd|]. intros Hex. unfold out.
    by rewrite (embed_batch_Returns _ _ _ _ _ _ es Hex).
  - intros Hout. pose proof (Hfwd Hout) as Hex. unfold out.
    rewrite (embed_batch_Returns _ _ _ _ _ _ es Hex). cbn [fst snd self sent].
    split_and!; [|done|].
    + apply (f_equal length) in Hex.
      rewrite length_exchange, length_fmap in Hex. unfold rqs in Hex.
      rewrite length_fmap in Hex. done.
    + unfold dimension. cbn [_detected_dimension _model]. by destruct d, es.
  - intros d' [= ->]. pose proof (embed_batch_inv m u t texts (Some d') hist) as Hinv.
    fold out in Hinv. destruct out as [[es'|err] w'] eqn:Hout.
    + unfold out in Hout. rewrite (embed_batch_Returns _ _ _ _ _ _ es' Hinv) in Hout.
      by injection Hout as <-.
    + by destruct Hinv as (k & text & es0 & _ & _ & -> & _).
Qed.

(** X22. When [embed_batch] raises, it is at the first text whose response is not
    an embedding: the texts before it were answered with embeddings, the
    request for it is the last one sent, and no later text is sent. What is
    raised is [ProviderConnectionError] for a failed connection,
    [EmbeddingError] for an HTTP error status or a response without
    ["embedding"], each with the message of the source, and any other
    exception of the client as it is; so an exception of this package that
    [embed_batch] raises is always an [EmbeddingError]. *)
Theorem embed_batch_raises (texts : list string) (w : world) (err : raised) :
  let request := embed_request (self w) in
  let out := embed_batch texts w in
  out.1 = Raises err ->
  (∃ k text es,
     texts !! k = Some text ∧
     exchange (sent w) (request <$> take k texts) = data <$> es ∧
     sent out.2 = sent w ++ (request <$> take (S k) texts) ∧
     failure (_base_url (self w))
       (server (sent w ++ (request <$> take k texts)) (request text)) err) ∧
  (∀ cls message, err = Recall cls message ->
     Exceptions.issubclass cls Exceptions.EmbeddingError = true).
Proof.
  destruct w as [[m u t d] hist]. cbv zeta. cbn [self sent _base_url].
  change (embed_request (mk m u t d)) with (rq m u).
  set (out := OllamaProvider.embed_batch server texts _). intros Hout.
  pose proof (embed_batch_inv m u t texts d hist) as Hinv.
  fold out in Hinv. destruct out as [[es'|err'] w']; [done|].
  cbn in Hout. injection Hout as ->.
  destruct Hinv as (k & text & es & Hk & Hex & -> & Hfail).
  split.
  - exists k, text, es. by split_and!.
  - intros cls message ->.
    destruct (server _ _) as [|name|text'|[e|]]; try done; by injection Hfail as ->.
Qed.

End Client.
End OllamaFacts.


(** ** Examples *)

Module ExampleFacts.
Import DatetimeFacts ConversationStoreFacts ListFacts FloatOrder VectorStoreFacts Examples.

Lemma conv_ok id source day : 1 <= day <= 31 -> conversation_ok (conv id source day).
Proof.
  intros Hday.
  assert (Datetime.datetime_ok (noon day)) as Hnoon.
  { unfold Datetime.datetime_ok, Datetime.datetime_okb, noon. cbn.
    rewrite !andb_true_iff, !Z.leb_le. lia. }
  unfold conversation_ok, conv. cbn. split_and!; try done.
  repeat constructor; done.
Qed.

Lemma store1_ok : store_ok store1.
Proof. apply store_ok_save; [apply conv_ok; lia|apply store_ok_empty]. Qed.

Lemma store3_ok : store_ok store3.
Proof. repeat (apply store_ok_save; [apply conv_ok; lia|]). apply store_ok_empty. Qed.

(** The example engine reads the expressions of the store as equality tests. *)
Lemma eqb_append_l p s t : String.eqb (p +:+ s) (p +:+ t) = String.eqb s t.
Proof.
  induction p as [|c p IH]; [done|]. rewrite !append_cons. cbn [String.eqb].
  by rewrite Ascii.eqb_refl.
Qed.

Lemma eqb_append_quote s t : String.eqb (s +:+ "'") (t +:+ "'") = String.eqb s t.
Proof.
  revert t. induction s as [|a s IH]; intros [|b t]; rewrite ?append_cons, ?append_nil.
  - done.
  - cbn [String.eqb]. destruct t; rewrite ?append_cons, ?append_nil; cbn [String.eqb];
      by rewrite andb_false_r || by destruct (Ascii.eqb _ _).
  - cbn [String.eqb]. destruct s; rewrite ?append_cons, ?append_nil; cbn [String.eqb];
      by rewrite andb_false_r || by destruct (Ascii.eqb _ _).
  - cbn [String.eqb]. by rewrite IH.
Qed.

Lemma eq_where_conversation_test c r :
  String.eqb (VectorStore.conversation_expr c) (VectorStore.id_expr (VectorStore.id r)) ||
  String.eqb (VectorStore.conversation_expr c)
             (VectorStore.conversation_expr (VectorStore.conversation_id r)) ||
  String.eqb (VectorStore.conversation_expr c) (source_expr (VectorStore.source r))
  = String.eqb (VectorStore.conversation_id r) c.
Proof.
  unfold VectorStore.conversation_expr, VectorStore.id_expr, source_expr.
  rewrite eqb_append_l, eqb_append_quote, (String.eqb_sym c).
  rewrite !append_cons. cbn [String.eqb Ascii.eqb Bool.eqb]. cbn [orb andb].
  by rewrite orb_false_r.
Qed.

Lemma eq_where_id_test i r :
  String.eqb (VectorStore.id_expr i) (VectorStore.id_expr (VectorStore.id r)) ||
  String.eqb (VectorStore.id_expr i)
             (VectorStore.conversation_expr (VectorStore.conversation_id r)) ||
  String.eqb (VectorStore.id_expr i) (source_expr (VectorStore.source r))
  = String.eqb (VectorStore.id r) i.
Proof.
  unfold VectorStore.conversation_expr, VectorStore.id_expr, source_expr.
  rewrite eqb_append_l, eqb_append_quote, (String.eqb_sym i).
  rewrite !append_cons. cbn [String.eqb Ascii.eqb Bool.eqb]. cbn [orb andb].
  by rewrite !orb_false_r.
Qed.

(** The example engine reads the filters of the store as equality tests,
    for an id in which the filter has no quote but its own two. *)
Lemma eq_where_conversation c :
  quotes (VectorStore.conversation_expr c) = 2%nat ->
  VectorStore.reads_as eq_where ("conversation_id = '" ++ c ++ "'")
    (λ r, String.eqb (VectorStore.conversation_id r) c).
Proof.
  intros Hq. change ("conversation_id = '" ++ c ++ "'")%string
    with (VectorStore.conversation_expr c).
  unfold VectorStore.reads_as, eq_where. rewrite Hq. eexists. split; [reflexivity|].
  intros r. apply eq_where_conversation_test.
Qed.

Lemma eq_where_id i :
  quotes (VectorStore.id_expr i) = 2%nat ->
  VectorStore.reads_as eq_where (VectorStore.id_expr i) (λ r, String.eqb (VectorStore.id r) i).
Proof.
  intros Hq. unfold VectorStore.reads_as, eq_where. rewrite Hq.
  eexists. split; [reflexivity|]. intros r. apply eq_where_id_test.
Qed.

(** The exhaustive search returns, for a limit of 1 at least, the nearest
    rows among those that pass the filter. *)
Lemma exhaustive_selects_nearest v n test (tbl : VectorStore.t) :
  1 <= n ->
  ∃ ranked rows,
    exhaustive v (Some n) test tbl = Ok rows ∧
    VectorStore.selects_nearest l2 v n test tbl ranked rows.
Proof.
  intros Hn. unfold exhaustive. change (default 10 (Some n)) with n. cbv zeta.
  destruct (Z.leb_spec n 0) as [?|_]; [lia|].
  set (cand := match test with
               | Some f => filter (λ r, f r = true) tbl
               | None => tbl
               end).
  assert (cand = filter (VectorStore.passes test) tbl) as Hcand.
  { unfold cand. destruct test as [f|]; [by apply list_filter_iff|].
    symmetry. by apply filter_all. }
  set (pairs := merge_sort VectorStore.nearer ((λ r, (r, l2 v (VectorStore.vector r))) <$> cand)).
  exists (fst <$> pairs), (fst <$> take (Z.to_nat n) pairs).
  split; [done|]. split_and!.
  - unfold pairs. rewrite merge_sort_Permutation, <- list_fmap_compose, <- Hcand.
    by rewrite list_fmap_id.
  - apply (StronglySorted_fmap_inv (λ r, (r, l2 v (VectorStore.vector r))) VectorStore.nearer).
    assert (pairs = (λ r, (r, l2 v (VectorStore.vector r))) <$> (fst <$> pairs)) as <-.
    { apply fmap_section. unfold pairs. rewrite merge_sort_Permutation.
      apply Forall_fmap, Forall_true. done. }
    apply (StronglySorted_merge_sort _).
  - by rewrite fmap_take.
Qed.

Lemma selected_rows (P : VectorStore.row → Prop) v n test (tbl : VectorStore.t) ranked rows :
  VectorStore.selects_nearest l2 v n test tbl ranked rows -> Forall P tbl -> Forall P rows.
Proof.
  intros (Hperm & _ & ->) Htbl. rewrite Forall_forall in Htbl. apply Forall_forall.
  intros r Hr. apply subseteq_take in Hr. rewrite Hperm in Hr.
  apply list_elem_of_filter in Hr as [_ Hr]. by apply Htbl.
Qed.

(** The exhaustive search returns rows of the table. *)
Lemma exhaustive_stored v n test (tbl : VectorStore.t) rows :
  exhaustive v (Some n) test tbl = Ok rows -> rows ⊆ tbl.
Proof.
  intros Hrows. destruct (Z.leb_spec n 0) as [Hle|Hgt].
  - unfold exhaustive in Hrows. change (default 10 (Some n)) with n in Hrows.
    cbv zeta in Hrows. by rewrite (proj2 (Z.leb_le n 0) Hle) in Hrows.
  - destruct (exhaustive_selects_nearest v n test tbl ltac:(lia))
      as (ranked & rows' & Hrows' & Hsel).
    rewrite Hrows' in Hrows. injection Hrows as <-.
    intros r Hr. revert r Hr. apply Forall_forall.
    apply (selected_rows _ _ _ _ _ _ _ Hsel). by apply Forall_forall.
Qed.

End ExampleFacts.

(** ** The theorems at the examples *)

Module Witnesses.
Import ExampleFacts Examples.

Lemma save_get_roundtrip_witness :
  conversation_ok (conv "date-0" "claude_code" 1) ∧
  run (ConversationStore.save (conv "date-0" "claude_code" 1);;
       ConversationStore.get "date-0") ConversationStore.empty
  = (Ok (Some (conv "date-0" "claude_code" 1)), store1).
Proof.
  assert (conversation_ok (conv "date-0" "claude_code" 1)) as Hok by (apply conv_ok; lia).
  split; [exact Hok|].
  exact (ConversationStoreFacts.save_get_roundtrip ConversationStore.empty _ Hok).
Defined.



Lemma mark_indexed_witness :
  store_ok store3 ∧ Datetime.datetime_ok (default (noon 5) None) ∧
  ∃ s',
    run (ConversationStore.mark_indexed (noon 5) "date-1" None) store3 = (Ok tt, s') ∧
    store_ok s'.
Proof.
  assert (Datetime.datetime_ok (default (noon 5) None)) as Hnow by reflexivity.
  split; [exact store3_ok|]. split; [exact Hnow|].
  destruct (proj2 (proj2 (ConversationStoreFacts.mark_indexed_spec store3 (noon 5) "date-1"
                            None)) store3_ok Hnow)
    as (s' & Hrun & Hok & _).
  exists s'. split; assumption.
Defined.

Lemma delete_by_conversation_witness :
  VectorStore.reads_as eq_where "conversation_id = 'A'"
    (λ r, String.eqb (VectorStore.conversation_id r) "A") ∧
  ∃ tbl',
    run (VectorStore.delete_by_conversation l2 eq_where (Some 10%nat) exhaustive "A") table3
    = (Ok 2, tbl') ∧
    tbl' = filter (λ r, VectorStore.conversation_id r ≠ "A") table3.
Proof.
  split; [exact (eq_where_conversation "A" eq_refl)|].
  destruct (VectorStoreFacts.delete_by_conversation_exact l2 eq_where (Some 10%nat) exhaustive
              "A" table3 (eq_where_conversation "A" eq_refl))
    as (n & tbl' & removed & Hrun & Htbl & Hremoved & _ & Hn & _).
  exists tbl'. split; [|exact Htbl].
  rewrite Hrun, Hn, Hremoved. reflexivity.
Defined.

Lemma table3_rows :
  Forall (λ r, ∃ doc, VectorStore.to_document r = Ok doc) table3.
Proof.
  apply Forall_forall. intros r Hr. vm_compute in Hr.
  repeat (apply elem_of_cons in Hr as [-> | Hr]; [eexists; vm_compute; reflexivity|]).
  by apply elem_of_nil in Hr.
Qed.

Lemma table3_distances :
  Forall (λ r, (1 + l2 [0%float] (VectorStore.vector r) =? 0)%float = false) table3.
Proof.
  apply Forall_forall. intros r Hr. vm_compute in Hr.
  repeat (apply elem_of_cons in Hr as [-> | Hr]; [vm_compute; reflexivity|]).
  by apply elem_of_nil in Hr.
Qed.


Lemma search_score_formula_witness :
  ∃ r1 r2,
    run (VectorStore.search l2 eq_where (Some 10%nat) exhaustive [0%float] 2 None) table3 = (Ok [r1; r2], table3) ∧
    SearchResult.score r1 = (1 / (1 + SearchResult.distance r1))%float ∧
    (0 <=? SearchResult.score r1)%float = true ∧
    (SearchResult.score r1 <=? 1)%float = true ∧
    (SearchResult.score r2 <=? SearchResult.score r1)%float = true.
Proof.
  eexists _, _.
  assert (run (VectorStore.search l2 eq_where (Some 10%nat) exhaustive [0%float] 2 None) table3 = (Ok _, table3))
    as Hrun by (vm_compute; reflexivity).
  split; [exact Hrun|].
  destruct (VectorStoreFacts.search_score_formula l2 eq_where (Some 10%nat) exhaustive _ _ _ _ _ _ _ Hrun
              (list_elem_of_here _ _)) as (Hscore & Hrange & Hothers).
  destruct (Hrange eq_refl) as (H0 & H1 & _).
  split; [exact Hscore|]. split; [exact H0|]. split; [exact H1|].
  exact (Hothers _ _ _ _ _ _ _ Hrun (list_elem_of_further _ _ _ (list_elem_of_here _ _))
           eq_refl eq_refl).
Defined.


(** Two results at the distances 0 and 2^-60: the first is nearer, and both
    scores are 1. *)
Lemma score_not_strictly_decreasing :
  ∃ r1 r2,
    (run (VectorStore.search l2 eq_where (Some 10%nat) exhaustive [0%float] 2 None) table_close).1 = Ok [r1; r2] ∧
    (SearchResult.distance r1 <? SearchResult.distance r2)%float = true ∧
    (SearchResult.score r2 <? SearchResult.score r1)%float = false ∧
    (SearchResult.score r1 =? SearchResult.score r2)%float = true.
Proof.
  eexists _, _. split; [vm_compute; reflexivity|]. split_and!; vm_compute; reflexivity.
Qed.


(** An index row whose file is gone: [get] finds no conversation, and
    [mark_indexed] changes the index all the same, as the statistics show. *)
Lemma mark_indexed_changes_orphan_row :
  (run (ConversationStore.get "date-0") store_orphan).1 = Ok None ∧
  (run ConversationStore.get_stats store_orphan).1 = Ok (ConversationStore.mk_stats 1 0 1) ∧
  (run (ConversationStore.mark_indexed (noon 5) "date-0" None;;
        ConversationStore.get_stats) store_orphan).1
  = Ok (ConversationStore.mk_stats 1 1 1).
Proof. split_and!; vm_compute; reflexivity. Qed.

(** Twelve rows of the conversation ["A"] are removed, and the count query
    of an engine whose plain query returns 10 rows at most gives 10. *)
Lemma delete_by_conversation_undercounts :
  length (filter (λ r, VectorStore.conversation_id r = "A") table12) = 12%nat ∧
  run (VectorStore.delete_by_conversation l2 eq_where (Some 10%nat) exhaustive "A") table12
  = (Ok 10, []).
Proof. split; vm_compute; reflexivity. Qed.


(** C9, at the failing input. The filter built from an id with a quote,
    [id = 'a'b'], is refused by the engine: [delete] raises and returns
    nothing, where it is to return [True]. *)
Lemma delete_quote_raises :
  VectorStore.id_expr "a'b" = "id = 'a'b'" ∧
  eq_where "id = 'a'b'" = None ∧
  run (VectorStore.delete eq_where "a'b") table3 = (Raise EngineError, table3) ∧
  (run (VectorStore.delete eq_where "a-0") table3).1 = Ok true ∧
  run (VectorStore.delete eq_where "nope") table3 = (Ok true, table3).
Proof. split_and!; vm_compute; reflexivity. Qed.

(** At an infinite distance the score is 0. *)
Example score_at_infinite_distance :
  float_div 1 (1 + infinity) = Ok 0%float ∧ ((0 <? 0)%float = false).
Proof. split; vm_compute; reflexivity. Qed.

End Witnesses.

(** ** The laws at the examples *)

Module LawWitnesses.
Import ExampleFacts Examples LawExamples.

Lemma store3_without_nope :
  run (ConversationStore.get "nope") store3 = (Ok None, store3).
Proof. vm_compute. reflexivity. Qed.

Lemma store1_without_date_1 :
  run (ConversationStore.get "date-1") store1 = (Ok None, store1).
Proof. vm_compute. reflexivity. Qed.

Lemma table3_ids : NoDup (VectorStore.id <$> table3).
Proof. apply (bool_decide_unpack _). vm_compute. exact I. Qed.

Lemma save_overwrites_witness :
  run (ConversationStore.save (conv "date-0" "claude_code" 1);;
       ConversationStore.save (conv "date-0" "other" 2)) ConversationStore.empty
  = (Ok tt, exec (ConversationStore.save (conv "date-0" "other" 2)) ConversationStore.empty).
Proof.
  exact (StoreLaws.save_overwrites (conv "date-0" "claude_code" 1) (conv "date-0" "other" 2)
           ConversationStore.empty eq_refl).
Defined.

Lemma delete_absent_witness :
  store_ok store3 ∧
  run (ConversationStore.get "nope") store3 = (Ok None, store3) ∧
  run (ConversationStore.delete "nope") store3 = (Ok false, store3).
Proof.
  split; [exact store3_ok|]. split; [exact store3_without_nope|].
  exact (StoreLaws.delete_absent store3 "nope" store3_ok store3_without_nope).
Defined.

Lemma save_delete_restores_witness :
  store_ok store1 ∧
  run (ConversationStore.save (conv "date-1" "claude_code" 2);;
       ConversationStore.delete "date-1") store1
  = (Ok true, store1).
Proof.
  split; [exact store1_ok|].
  exact (StoreLaws.save_delete_restores store1 (conv "date-1" "claude_code" 2)
           store1_ok store1_without_date_1).
Defined.


Lemma pages_concatenate_witness :
  store_ok store3 ∧
  ∃ page1 page2,
    run (ConversationStore.list_all 1 0) store3 = (Ok page1, store3) ∧
    run (ConversationStore.list_all 2 1) store3 = (Ok page2, store3) ∧
    run (ConversationStore.list_all 3 0) store3 = (Ok (page1 ++ page2), store3).
Proof.
  split; [exact store3_ok|].
  destruct (StoreLaws.pages_concatenate store3 "/home/user/project" 1 2 store3_ok)
    as [(page1 & page2 & H1 & H2 & H3) _].
  exists page1, page2. split; [exact H1|]. split; [exact H2|exact H3].
Defined.



Lemma get_stats_counts_witness :
  store_ok store3 ∧
  ∃ (everything unindexed : list Conversation.t) (projects : list string),
    run (ConversationStore.list_all (-1) 0) store3 = (Ok everything, store3) ∧
    run ConversationStore.get_stats store3
    = (Ok (ConversationStore.mk_stats (Z.of_nat (length everything))
             (Z.of_nat (length everything) - Z.of_nat (length unindexed))
             (Z.of_nat (length projects))), store3).
Proof.
  split; [exact store3_ok|].
  destruct (StoreLaws.get_stats_counts store3 store3_ok)
    as (everything & unindexed & projects & Hall & _ & Hstats & _).
  exists everything, unindexed, projects. split; [exact Hall|exact Hstats].
Defined.

Lemma save_counts_once_witness :
  store_ok store3 ∧
  ∃ before after s',
    run ConversationStore.get_stats store3 = (Ok before, store3) ∧
    run (ConversationStore.save (conv "date-9" "other" 4);; ConversationStore.get_stats) store3
    = (Ok after, s').
Proof.
  split; [exact store3_ok|].
  destruct (StoreLaws.save_counts_once store3 (conv "date-9" "other" 4) store3_ok)
    as (before & after & s' & Hbefore & Hafter & _).
  exists before, after, s'. split; [exact Hbefore|exact Hafter].
Defined.



Lemma delete_then_get_witness :
  VectorStore.reads_as eq_where (VectorStore.id_expr "a-0")
    (λ r, String.eqb (VectorStore.id r) "a-0") ∧
  (run (VectorStore.delete eq_where "a-0";;
        VectorStore.get l2 eq_where (Some 10%nat) exhaustive "a-0") table3).1
  = Ok None.
Proof.
  split; [exact (eq_where_id "a-0" eq_refl)|].
  exact (proj1 (TableLaws.delete_then_get l2 eq_where (Some 10%nat) exhaustive "a-0" table3
                  (eq_where_id "a-0" eq_refl))).
Defined.


Lemma table3_id_filters :
  ∀ r, r ∈ table3 ->
    VectorStore.reads_as eq_where (VectorStore.id_expr (VectorStore.id r))
      (λ x, String.eqb (VectorStore.id x) (VectorStore.id r)).
Proof.
  intros r Hr. vm_compute in Hr.
  repeat (apply elem_of_cons in Hr as [-> | Hr];
          [cbn [VectorStore.id]; apply eq_where_id; reflexivity|]).
  by apply elem_of_nil in Hr.
Qed.

Lemma search_hits_are_stored_witness :
  ∃ results,
    run (VectorStore.search l2 eq_where (Some 10%nat) exhaustive [0%float] 2 None) table3
    = (Ok results, table3) ∧
    ∀ res, res ∈ results ->
      run (VectorStore.get l2 eq_where (Some 10%nat) exhaustive
             (Document.id (SearchResult.document res))) table3
      = (Ok (Some (SearchResult.document res)), table3).
Proof.
  eexists.
  assert (run (VectorStore.search l2 eq_where (Some 10%nat) exhaustive [0%float] 2 None) table3
          = (Ok _, table3)) as Hrun by (vm_compute; reflexivity).
  split; [exact Hrun|].
  exact (TableLaws.search_hits_are_stored l2 eq_where (Some 10%nat) exhaustive [0%float] 2 None
           table3 _ table3_ids table3_id_filters
           (λ test rows, exhaustive_stored [0%float] 2 test table3 rows) Hrun).
Defined.

Lemma search_zero_divisor_witness :
  run (VectorStore.search minus_one eq_where (Some 10%nat) exhaustive [0%float] 5 None) table3
  = (Raise ZeroDivisionError, table3).
Proof.
  eassert (exhaustive [0%float] (Some 5) None table3 = Ok _) as Hrows
    by (vm_compute; reflexivity).
  apply (TableLaws.search_zero_divisor minus_one eq_where (Some 10%nat) exhaustive
           [0%float] 5 None table3 None _ eq_refl Hrows).
  - repeat (apply Forall_cons_2; [eexists; vm_compute; reflexivity|]). apply Forall_nil_2.
  - apply Exists_cons_hd. vm_compute. reflexivity.
Defined.

Lemma embed_batch_raises_witness :
  ∃ message,
    (OllamaProvider.embed_batch server ["a"; ""; "b"] fresh).1
    = Raises (Recall Exceptions.ProviderConnectionError message) ∧
    Exceptions.issubclass Exceptions.ProviderConnectionError Exceptions.EmbeddingError = true.
Proof.
  eexists.
  assert ((OllamaProvider.embed_batch server ["a"; ""; "b"] fresh).1
          = Raises (Recall Exceptions.ProviderConnectionError _)) as Hrun
    by (vm_compute; reflexivity).
  split; [exact Hrun|].
  exact (proj2 (OllamaFacts.embed_batch_raises server _ _ _ Hrun) _ _ eq_refl).
Defined.

End LawWitnesses.
